(** * Cartesian Taylor expansions of the Laplace kernel

    A shallow embedding of [kernel/LaplaceCartesian.hpp]: the monomial
    indexing, the power and derivative builders and the six shift operators
    of [LaplaceCartesian<P>], with the properties the specification states
    about them.

    Conventions of the embedding.
    - [unsigned] is a 32-bit machine integer: a value of [N] below [2^32],
      every operation reduced modulo [2^32].
    - [real] (a C++ [double]) is read as an exact real number of [R];
      rounding is outside the embedding.
    - the [int] template arguments [nx], [ny], [nz], [kx], ... are natural
      numbers: every specialisation the templates select is selected by an
      argument being [0], and a template is never instantiated below it.
    - [Vec<N,real>] is a [list R] of length [N]; slot [i] is read with
      [nth i v 0] and written with [vset]. *)

From Stdlib Require Import Reals Lra Lia ZArith NArith List Arith Bool Psatz Permutation.
From Equations Require Import Equations.
Import ListNotations.

(** ** 32-bit unsigned arithmetic *)

Module Unsigned.

Definition modulus : N := 2 ^ 32.

Definition wrap (x : N) : N := (x mod modulus)%N.

Definition uadd (a b : N) : N := wrap (a + b).
Definition umul (a b : N) : N := wrap (a * b).
Definition udiv (a b : N) : N := (a / b)%N.

Lemma wrap_small x : (x < modulus)%N -> wrap x = x.
Proof. intro H. unfold wrap. now apply N.mod_small. Qed.

End Unsigned.

Import Unsigned.

(** ** Monomial index ([cart_index], [factorial], [cart_value], [Index]) *)

(** [cart_index(nx,ny,nz)]:
    [(nx+ny+nz)*(nx+ny+nz+1)*(nx+ny+nz+2)/6 + (ny+nz)*(ny+nz+1)/2 + nz]. *)
Definition cart_index (nx ny nz : N) : N :=
  let n := uadd (uadd nx ny) nz in
  let m := uadd ny nz in
  uadd (uadd (udiv (umul (umul n (uadd n 1)) (uadd n 2)) 6)
             (udiv (umul m (uadd m 1)) 2))
       nz.

(** [factorial(k)]: [k <= 1 ? 1 : k * factorial(k-1)]. *)
Fixpoint factorial (k : nat) : N :=
  match k with
  | 0 => 1%N
  | S k' => if (k <=? 1)%nat then 1%N else umul (N.of_nat k) (factorial k')
  end.

(** [cart_value(nx,ny,nz)]: [factorial(nx) * factorial(ny) * factorial(nz)]. *)
Definition cart_value (nx ny nz : nat) : N :=
  umul (umul (factorial nx) (factorial ny)) (factorial nz).

(** [Index<nx,ny,nz>::I] and [Index<nx,ny,nz>::F]. *)
Definition Index_I (nx ny nz : nat) : nat :=
  N.to_nat (cart_index (N.of_nat nx) (N.of_nat ny) (N.of_nat nz)).

Definition Index_F (nx ny nz : nat) : R :=
  IZR (Z.of_N (cart_value nx ny nz)).

(** [MTERM = P*(P+1)*(P+2)/6] and [LTERM = (P+1)*(P+2)*(P+3)/6], computed
    on the [unsigned] template argument [P]. *)
Definition MTERM (P : nat) : nat :=
  let p := N.of_nat P in
  N.to_nat (udiv (umul (umul p (uadd p 1)) (uadd p 2)) 6).

Definition LTERM (P : nat) : nat :=
  let p := N.of_nat P in
  N.to_nat (udiv (umul (umul (uadd p 1) (uadd p 2)) (uadd p 3)) 6).

(** Orders for which no index computation wraps around. *)
Definition supported (P : nat) : Prop :=
  ((N.of_nat P + 1) * (N.of_nat P + 2) * (N.of_nat P + 3) < modulus)%N.

(** *** The ideal numbering *)

(** Triangular and tetrahedral numbers, by their recurrences. *)
Fixpoint tri (m : nat) : nat :=
  match m with
  | 0 => 0
  | S m' => tri m' + S m'
  end.

Fixpoint tet (n : nat) : nat :=
  match n with
  | 0 => 0
  | S n' => tet n' + tri (S n')
  end.

Definition slot (nx ny nz : nat) : nat :=
  tet (nx + ny + nz) + tri (ny + nz) + nz.

(** Multi-indices as triples, for the statements. *)
Definition midx : Type := nat * nat * nat.

Definition deg (a : midx) : nat :=
  let '(nx, ny, nz) := a in nx + ny + nz.

Definition slot_of (a : midx) : nat :=
  let '(nx, ny, nz) := a in slot nx ny nz.

Definition index_of (a : midx) : nat :=
  let '(nx, ny, nz) := a in Index_I nx ny nz.

(** The template arguments of the instantiation made just before
    [<nx,ny,nz>] by [Terms], [Upward], [Downward], [M2LSum], [LocalSum]. *)
Definition prev (a : midx) : midx :=
  let '(nx, ny, nz) := a in
  match nz with
  | S nz' => (nx, S ny, nz')
  | 0 =>
      match ny with
      | S ny' => (S nx, 0, ny')
      | 0 =>
          match nx with
          | S nx' => (0, 0, nx')
          | 0 => (0, 0, 0)
          end
      end
  end.

Definition next (a : midx) : midx :=
  let '(nx, ny, nz) := a in
  match ny with
  | S ny' => (nx, ny', S nz)
  | 0 =>
      match nx with
      | S nx' => (nx', S nz, 0)
      | 0 => (S nz, 0, 0)
      end
  end.

Fixpoint unrank (k : nat) : midx :=
  match k with
  | 0 => (0, 0, 0)
  | S k' => next (unrank k')
  end.

Definition fact_prod (nx ny nz : nat) : nat :=
  fact nx * fact ny * fact nz.

(** ** Facts on the numbering *)

Lemma tri_double m : 2 * tri m = m * (m + 1).
Proof. induction m; simpl; [reflexivity | nia]. Qed.

Lemma tet_sixfold n : 6 * tet n = n * (n + 1) * (n + 2).
Proof.
  induction n; [reflexivity |].
  change (tet (S n)) with (tet n + tri (S n)).
  pose proof (tri_double (S n)). nia.
Qed.

Lemma tri_mono a b : a <= b -> tri a <= tri b.
Proof. induction 1; simpl; lia. Qed.

Lemma tet_mono a b : a <= b -> tet a <= tet b.
Proof. induction 1; [lia |]. change (tet (S m)) with (tet m + tri (S m)). lia. Qed.

Lemma tet_succ n : tet (S n) = tet n + tri n + S n.
Proof. simpl. lia. Qed.

Lemma slot_bounds nx ny nz :
  tet (nx + ny + nz) <= slot nx ny nz < tet (S (nx + ny + nz)).
Proof.
  unfold slot. rewrite tet_succ.
  pose proof (tri_mono (ny + nz) (nx + ny + nz) ltac:(lia)).
  lia.
Qed.

Lemma tri_succ m : tri (S m) = tri m + S m.
Proof. reflexivity. Qed.

Lemma slot_next a : slot_of (next a) = S (slot_of a).
Proof.
  destruct a as [[nx ny] nz]. unfold slot_of, next.
  destruct ny as [|ny].
  - destruct nx as [|nx]; unfold slot.
    + replace (0 + 0 + nz) with nz by lia.
      replace (S nz + 0 + 0) with (S nz) by lia.
      replace (0 + nz) with nz by lia.
      replace (0 + 0) with 0 by lia.
      rewrite tet_succ. change (tri 0) with 0. lia.
    + replace (nx + S nz + 0) with (S nx + 0 + nz) by lia.
      replace (S nz + 0) with (S nz) by lia.
      replace (0 + nz) with nz by lia.
      rewrite tri_succ. lia.
  - unfold slot.
    replace (nx + ny + S nz) with (nx + S ny + nz) by lia.
    replace (ny + S nz) with (S ny + nz) by lia. lia.
Qed.

Lemma deg_next a : deg a <= deg (next a) <= S (deg a).
Proof.
  destruct a as [[nx ny] nz]. unfold deg, next.
  destruct ny; [destruct nx |]; lia.
Qed.

Lemma slot_unrank k : slot_of (unrank k) = k.
Proof.
  induction k; [reflexivity |].
  simpl. rewrite slot_next. now f_equal.
Qed.

Lemma slot_inj a b : slot_of a = slot_of b -> a = b.
Proof.
  destruct a as [[ax ay] az], b as [[bx by_] bz]. unfold slot_of. intro H.
  assert (Hn : ax + ay + az = bx + by_ + bz).
  { pose proof (slot_bounds ax ay az). pose proof (slot_bounds bx by_ bz).
    destruct (Nat.lt_trichotomy (ax + ay + az) (bx + by_ + bz)) as [Hlt | [Heq | Hgt]];
      [| assumption |].
    - pose proof (tet_mono (S (ax + ay + az)) (bx + by_ + bz) ltac:(lia)). lia.
    - pose proof (tet_mono (S (bx + by_ + bz)) (ax + ay + az) ltac:(lia)). lia. }
  unfold slot in H. rewrite Hn in H.
  assert (Hm : ay + az = by_ + bz).
  { destruct (Nat.lt_trichotomy (ay + az) (by_ + bz)) as [Hlt | [Heq | Hgt]];
      [| assumption |].
    - pose proof (tri_mono (S (ay + az)) (by_ + bz) ltac:(lia)). simpl in *. lia.
    - pose proof (tri_mono (S (by_ + bz)) (ay + az) ltac:(lia)). simpl in *. lia. }
  rewrite Hm in H.
  assert (az = bz) by lia. subst.
  assert (ay = by_) by lia. subst.
  assert (ax = bx) by lia. subst. reflexivity.
Qed.

Lemma unrank_slot a : unrank (slot_of a) = a.
Proof. apply slot_inj. apply slot_unrank. Qed.

Lemma slot_prev a : a <> (0, 0, 0) -> S (slot_of (prev a)) = slot_of a.
Proof.
  intro Ha. rewrite <- slot_next. f_equal.
  destruct a as [[nx ny] nz]. destruct nz as [|nz]; [destruct ny as [|ny]; [destruct nx as [|nx] |] |];
    try reflexivity. now elim Ha.
Qed.

Lemma deg_slot_lt a n : slot_of a < tet (S n) -> deg a <= n.
Proof.
  destruct a as [[nx ny] nz]. unfold slot_of, deg. intro H.
  pose proof (slot_bounds nx ny nz).
  destruct (Nat.le_gt_cases (nx + ny + nz) n) as [Hle | Hgt]; [assumption |].
  pose proof (tet_mono (S n) (nx + ny + nz) ltac:(lia)). lia.
Qed.

(** *** No wrap-around for supported orders *)

Definition bound (P : nat) : nat := (P + 1) * (P + 2) * (P + 3).

Lemma supported_bound P : supported P <-> (N.of_nat (bound P) < modulus)%N.
Proof.
  unfold supported, bound.
  rewrite !Nat2N.inj_mul, !Nat2N.inj_add. reflexivity.
Qed.

Lemma wrap_of_nat P k : supported P -> k <= bound P -> wrap (N.of_nat k) = N.of_nat k.
Proof.
  intros HP Hk. apply wrap_small. apply supported_bound in HP. lia.
Qed.

Lemma uadd_of_nat P a b :
  supported P -> a + b <= bound P -> uadd (N.of_nat a) (N.of_nat b) = N.of_nat (a + b).
Proof.
  intros HP H. unfold uadd. rewrite <- Nat2N.inj_add. now apply (wrap_of_nat P).
Qed.

Lemma umul_of_nat P a b :
  supported P -> a * b <= bound P -> umul (N.of_nat a) (N.of_nat b) = N.of_nat (a * b).
Proof.
  intros HP H. unfold umul. rewrite <- Nat2N.inj_mul. now apply (wrap_of_nat P).
Qed.

Lemma udiv_of_nat a b : udiv (N.of_nat a) (N.of_nat b) = N.of_nat (a / b).
Proof. unfold udiv. now rewrite Nat2N.inj_div. Qed.

Lemma tet_le_bound n P : n <= P -> 6 * tet (S n) <= bound P.
Proof.
  intro H. rewrite tet_sixfold. unfold bound.
  assert (S n <= P + 1) by lia. assert (S n + 1 <= P + 2) by lia.
  assert (S n + 2 <= P + 3) by lia.
  apply Nat.mul_le_mono; [apply Nat.mul_le_mono |]; assumption.
Qed.

Lemma cart_index_of_nat P nx ny nz :
  supported P -> nx + ny + nz <= P ->
  cart_index (N.of_nat nx) (N.of_nat ny) (N.of_nat nz) = N.of_nat (slot nx ny nz).
Proof.
  intros HP Hn.
  pose proof (tet_le_bound (nx + ny + nz) P Hn) as HB.
  pose proof (tet_sixfold (nx + ny + nz)) as H6.
  pose proof (tet_sixfold (S (nx + ny + nz))) as H6'.
  pose proof (tri_double (ny + nz)) as H2.
  pose proof (slot_bounds nx ny nz) as Hs. unfold slot in Hs.
  set (n := nx + ny + nz) in *. set (m := ny + nz) in *.
  assert (Hnb : n * (n + 1) * (n + 2) <= bound P) by lia.
  assert (Hn1 : n * (n + 1) <= n * (n + 1) * (n + 2)) by nia.
  assert (Hm1 : m * (m + 1) <= n * (n + 1)).
  { assert (m <= n) by (unfold m, n; lia). apply Nat.mul_le_mono; lia. }
  assert (Hb3 : P + 3 <= bound P) by (unfold bound; nia).
  assert (Hmn : m <= n) by (unfold m, n; lia).
  assert (Hxy : nx + ny <= n) by (unfold n; lia).
  unfold cart_index.
  change 1%N with (N.of_nat 1). change 2%N with (N.of_nat 2).
  change 6%N with (N.of_nat 6).
  rewrite (uadd_of_nat P nx ny HP) by lia.
  rewrite (uadd_of_nat P (nx + ny) nz HP) by (fold n; lia).
  rewrite (uadd_of_nat P ny nz HP) by (fold m; lia).
  fold n m.
  rewrite (uadd_of_nat P n 1 HP) by lia.
  rewrite (uadd_of_nat P n 2 HP) by lia.
  rewrite (uadd_of_nat P m 1 HP) by lia.
  rewrite (umul_of_nat P n (n + 1) HP) by lia.
  rewrite (umul_of_nat P (n * (n + 1)) (n + 2) HP) by lia.
  rewrite (umul_of_nat P m (m + 1) HP) by lia.
  rewrite !udiv_of_nat.
  replace (n * (n + 1) * (n + 2) / 6) with (tet n)
    by (apply Nat.div_unique_exact; lia).
  replace (m * (m + 1) / 2) with (tri m)
    by (apply Nat.div_unique_exact; lia).
  rewrite (uadd_of_nat P (tet n) (tri m) HP) by lia.
  rewrite (uadd_of_nat P (tet n + tri m) nz HP) by lia.
  reflexivity.
Qed.

Lemma Index_I_slot P nx ny nz :
  supported P -> nx + ny + nz <= P -> Index_I nx ny nz = slot nx ny nz.
Proof.
  intros HP Hn. unfold Index_I.
  rewrite (cart_index_of_nat P) by assumption. apply Nat2N.id.
Qed.

Lemma index_of_slot P a : supported P -> deg a <= P -> index_of a = slot_of a.
Proof. destruct a as [[nx ny] nz]. apply Index_I_slot. Qed.

Lemma supported_le P Q : Q <= P -> supported P -> supported Q.
Proof.
  intros HQ HP. apply supported_bound. apply supported_bound in HP.
  assert (bound Q <= bound P).
  { unfold bound. apply Nat.mul_le_mono; [apply Nat.mul_le_mono |]; lia. }
  lia.
Qed.

Lemma LTERM_tet P : supported P -> LTERM P = tet (S P).
Proof.
  intro HP. unfold LTERM.
  pose proof (tet_sixfold (S P)) as H6.
  assert (HB : bound P = 6 * tet (S P)) by (unfold bound; rewrite H6; lia).
  change 1%N with (N.of_nat 1). change 2%N with (N.of_nat 2).
  change 3%N with (N.of_nat 3). change 6%N with (N.of_nat 6).
  assert ((P + 1) * (P + 2) <= bound P) by (unfold bound; nia).
  assert (P + 3 <= bound P) by (unfold bound; nia).
  rewrite (uadd_of_nat P P 1 HP) by lia.
  rewrite (uadd_of_nat P P 2 HP) by lia.
  rewrite (uadd_of_nat P P 3 HP) by lia.
  rewrite (umul_of_nat P (P + 1) (P + 2) HP) by lia.
  rewrite (umul_of_nat P ((P + 1) * (P + 2)) (P + 3) HP) by (unfold bound; lia).
  rewrite udiv_of_nat, Nat2N.id.
  symmetry. apply Nat.div_unique_exact; [lia |]. fold (bound P). lia.
Qed.

Lemma MTERM_tet P : supported P -> MTERM P = tet P.
Proof.
  intro HP. unfold MTERM.
  pose proof (tet_sixfold P) as H6.
  change 1%N with (N.of_nat 1). change 2%N with (N.of_nat 2).
  change 6%N with (N.of_nat 6).
  assert (P * (P + 1) * (P + 2) <= bound P).
  { unfold bound. apply Nat.mul_le_mono; [apply Nat.mul_le_mono |]; lia. }
  assert (P * (P + 1) <= P * (P + 1) * (P + 2)) by nia.
  assert (P + 2 <= bound P) by (unfold bound; nia).
  rewrite (uadd_of_nat P P 1 HP) by lia.
  rewrite (uadd_of_nat P P 2 HP) by lia.
  rewrite (umul_of_nat P P (P + 1) HP) by lia.
  rewrite (umul_of_nat P (P * (P + 1)) (P + 2) HP) by lia.
  rewrite udiv_of_nat, Nat2N.id.
  symmetry. apply Nat.div_unique_exact; lia.
Qed.

(** The machine factorial is the factorial modulo [2^32]. *)
Lemma factorial_fact k : factorial k = wrap (N.of_nat (fact k)).
Proof.
  induction k as [|k IH]; [reflexivity |].
  destruct k as [|k]; [reflexivity |].
  change (factorial (S (S k))) with (umul (N.of_nat (S (S k))) (factorial (S k))).
  rewrite IH. unfold umul, wrap.
  rewrite N.Div0.mul_mod_idemp_r.
  rewrite <- Nat2N.inj_mul. reflexivity.
Qed.

Lemma cart_value_fact nx ny nz :
  cart_value nx ny nz = wrap (N.of_nat (fact_prod nx ny nz)).
Proof.
  unfold cart_value, fact_prod, umul, wrap.
  rewrite !factorial_fact. unfold wrap.
  rewrite <- (N.Div0.mul_mod (N.of_nat (fact nx)) (N.of_nat (fact ny))).
  rewrite <- N.Div0.mul_mod.
  rewrite <- !Nat2N.inj_mul. reflexivity.
Qed.

Lemma fact_prod_pos nx ny nz : 0 < fact_prod nx ny nz.
Proof.
  unfold fact_prod.
  pose proof (lt_O_fact nx). pose proof (lt_O_fact ny). pose proof (lt_O_fact nz).
  nia.
Qed.

Lemma slot_step_z nx ny nz : slot nx (S ny) nz < slot nx ny (S nz).
Proof.
  pose proof (slot_prev (nx, ny, S nz) ltac:(discriminate)) as H.
  simpl in H. lia.
Qed.

Lemma slot_step_y nx ny : slot (S nx) 0 ny < slot nx (S ny) 0.
Proof.
  pose proof (slot_prev (nx, S ny, 0) ltac:(discriminate)) as H.
  simpl in H. lia.
Qed.

Lemma slot_step_x nx : slot 0 0 nx < slot (S nx) 0 0.
Proof.
  pose proof (slot_prev (S nx, 0, 0) ltac:(discriminate)) as H.
  simpl in H. lia.
Qed.

Ltac slot_wf := first [apply slot_step_x | apply slot_step_y | apply slot_step_z].

(** ** Points and coefficient vectors *)

Open Scope R_scope.
Open Scope bool_scope.

(** Modelled from the spec: [Vec.hpp] is not among the sources.  A
    [Vec<N,real>] is a fixed-length vector of reals, zeroed when it is
    constructed, with slot read, slot write and elementwise [+=]; a point is
    a [Vec<3,real>] with [normSq] its squared Euclidean norm. *)
Definition point : Type := R * R * R.

Definition pt_at (p : point) (d : nat) : R :=
  let '(x, y, z) := p in
  match d with
  | 0%nat => x
  | 1%nat => y
  | _ => z
  end.

Definition pt_sub (a b : point) : point :=
  let '(ax, ay, az) := a in
  let '(bx, by_, bz) := b in
  (ax - bx, ay - by_, az - bz).

Definition pt_scale (a : point) (s : R) : point :=
  let '(ax, ay, az) := a in (ax * s, ay * s, az * s).

Definition normSq (p : point) : R :=
  let '(x, y, z) := p in x * x + y * y + z * z.

Definition Vec : Type := list R.

Definition vzero (n : nat) : Vec := repeat 0 n.

Definition vget (v : Vec) (i : nat) : R := nth i v 0.

Fixpoint vset (v : Vec) (i : nat) (x : R) : Vec :=
  match v with
  | [] => []
  | h :: t =>
      match i with
      | 0%nat => x :: t
      | S i' => h :: vset t i' x
      end
  end.

(** [a += b]. *)
Fixpoint vadd (a b : Vec) : Vec :=
  match a, b with
  | x :: a', y :: b' => (x + y) :: vadd a' b'
  | _, _ => a
  end.

(** [v[i] += x]. *)
Definition vinc (v : Vec) (i : nat) (x : R) : Vec := vset v i (vget v i + x).

(** ** Power builder ([Terms<nx,ny,nz>::power]) *)

Equations? Terms_power (nx ny nz : nat) (C : Vec) (dist : point) : Vec
  by wf (slot nx ny nz) lt :=
  Terms_power 0 0 0 C dist := C;
  Terms_power (S nx) 0 0 C dist :=
    let C1 := Terms_power 0 0 nx C dist in
    vset C1 (Index_I (S nx) 0 0)
         (vget C1 (Index_I nx 0 0) * pt_at dist 0 / INR (S nx));
  Terms_power nx (S ny) 0 C dist :=
    let C1 := Terms_power (S nx) 0 ny C dist in
    vset C1 (Index_I nx (S ny) 0)
         (vget C1 (Index_I nx ny 0) * pt_at dist 1 / INR (S ny));
  Terms_power nx ny (S nz) C dist :=
    let C1 := Terms_power nx (S ny) nz C dist in
    vset C1 (Index_I nx ny (S nz))
         (vget C1 (Index_I nx ny nz) * pt_at dist 2 / INR (S nz)).
Proof. all: slot_wf. Qed.

(** Evaluation of the slot numbers of a closed term. *)
Ltac eval_index :=
  repeat match goal with
    | |- context [Index_I ?a ?b ?c] =>
        let v := eval vm_compute in (Index_I a b c) in
        change (Index_I a b c) with v
    end.

Example Terms_power_ex :
  Terms_power 0 0 1 [1; 0; 0; 0] (2, 3, 5) = [1; 2; 3; 5].
Proof.
  simp Terms_power. eval_index. cbn. repeat f_equal; field.
Qed.

(** ** Derivative builder ([DerivativeTerm], [DerivativeSum], [Terms]) *)

(** [DerivativeTerm<n,kx,ky,kz,d>::kernel]: the specialisation [d = -1] has
    coefficient [1 - n] and no factor [dist[d]]; the others have
    coefficient [1 - 2n]. *)
Definition DerivativeTerm_kernel (n kx ky kz : nat) (d : Z) (C : Vec) (dist : point) : R :=
  if (d =? -1)%Z
  then IZR (1 - Z.of_nat n) * vget C (Index_I kx ky kz)
  else IZR (1 - 2 * Z.of_nat n) * pt_at dist (Z.to_nat d) * vget C (Index_I kx ky kz).

Definition DS_measure (nx ny kx ky kz flag : nat) : nat :=
  match flag with
  | 0 => 0
  | 1 => 1 + kx
  | 2 => nx + 2
  | 3 => nx + 3 + ky
  | 4 => nx + ny + 4
  | _ => nx + ny + 5 + kz
  end.

(** [DerivativeSum<nx,ny,nz,kx,ky,kz,flag>::loop].  The clauses that return
    [0] for [flag = 1, kx = 0], [flag = 3, ky = 0] and [flag > 5, kz = 0]
    stand for instantiations the templates never make. *)
Equations? DerivativeSum_loop (nx ny nz kx ky kz flag : nat) (C : Vec) (dist : point) : R
  by wf (DS_measure nx ny kx ky kz flag) lt :=
  DerivativeSum_loop nx ny nz kx ky kz 0 C dist := 0;
  DerivativeSum_loop nx ny nz 0 ky kz 1 C dist := 0;
  DerivativeSum_loop nx ny nz (S kx') ky kz 1 C dist :=
    let kx := S kx' in
    let nextflag := (1 - Nat.b2n ((kx <? nx)%nat || (kx =? 1)%nat))%nat in
    let dim := if (Z.of_nat kx =? Z.of_nat nx - 1)%Z then (-1)%Z else 0%Z in
    let n := (nx + ny + nz)%nat in
    DerivativeSum_loop nx ny nz kx' ny nz nextflag C dist
    + DerivativeTerm_kernel n kx' ny nz dim C dist;
  DerivativeSum_loop nx ny nz kx ky kz 2 C dist :=
    let nextflag := (1 - Nat.b2n (nx =? 0)%nat)%nat in
    DerivativeSum_loop nx ny nz nx ny nz nextflag C dist;
  DerivativeSum_loop nx ny nz kx 0 kz 3 C dist := 0;
  DerivativeSum_loop nx ny nz kx (S ky') kz 3 C dist :=
    let ky := S ky' in
    let nextflag := (3 - Nat.b2n ((ky <? ny)%nat || (ky =? 1)%nat))%nat in
    let dim := if (Z.of_nat ky =? Z.of_nat ny - 1)%Z then (-1)%Z else 1%Z in
    let n := (nx + ny + nz)%nat in
    DerivativeSum_loop nx ny nz nx ky' nz nextflag C dist
    + DerivativeTerm_kernel n nx ky' nz dim C dist;
  DerivativeSum_loop nx ny nz kx ky kz 4 C dist :=
    let nextflag := (3 - Nat.b2n (ny =? 0)%nat)%nat in
    DerivativeSum_loop nx ny nz nx ny nz nextflag C dist;
  DerivativeSum_loop nx ny nz kx ky 0 5 C dist :=
    DerivativeSum_loop nx ny nz nx ny 0 4 C dist;
  DerivativeSum_loop nx ny nz kx ky 0 _ C dist := 0;
  DerivativeSum_loop nx ny nz kx ky (S kz') flag C dist :=
    let kz := S kz' in
    let nextflag := (5 - Nat.b2n ((kz <? nz)%nat || (kz =? 1)%nat))%nat in
    let dim := if (Z.of_nat kz =? Z.of_nat nz - 1)%Z then (-1)%Z else 2%Z in
    let n := (nx + ny + nz)%nat in
    DerivativeSum_loop nx ny nz nx ny kz' nextflag C dist
    + DerivativeTerm_kernel n nx ny kz' dim C dist.
Proof.
  all: unfold DS_measure.
  all: repeat match goal with x := _ |- _ => subst x end.
  all: try match goal with
         | |- context [Nat.b2n ?b] => destruct b
         end; simpl; lia.
Qed.

Equations? Terms_derivative (nx ny nz : nat) (C : Vec) (dist : point) (invR2 : R) : Vec
  by wf (slot nx ny nz) lt :=
  Terms_derivative 0 0 0 C dist invR2 := C;
  Terms_derivative (S nx) 0 0 C dist invR2 :=
    let n := S nx in
    let C1 := Terms_derivative 0 0 nx C dist invR2 in
    vset C1 (Index_I (S nx) 0 0)
         (DerivativeSum_loop (S nx) 0 0 (S nx) 0 0 5 C1 dist / INR n * invR2);
  Terms_derivative nx (S ny) 0 C dist invR2 :=
    let n := (nx + S ny)%nat in
    let C1 := Terms_derivative (S nx) 0 ny C dist invR2 in
    vset C1 (Index_I nx (S ny) 0)
         (DerivativeSum_loop nx (S ny) 0 nx (S ny) 0 5 C1 dist / INR n * invR2);
  Terms_derivative nx ny (S nz) C dist invR2 :=
    let n := (nx + ny + S nz)%nat in
    let C1 := Terms_derivative nx (S ny) nz C dist invR2 in
    vset C1 (Index_I nx ny (S nz))
         (DerivativeSum_loop nx ny (S nz) nx ny (S nz) 5 C1 dist / INR n * invR2).
Proof. all: slot_wf. Qed.

Equations? Terms_scale (nx ny nz : nat) (C : Vec) : Vec
  by wf (slot nx ny nz) lt :=
  Terms_scale 0 0 0 C := C;
  Terms_scale (S nx) 0 0 C :=
    let C1 := Terms_scale 0 0 nx C in
    vset C1 (Index_I (S nx) 0 0)
         (vget C1 (Index_I (S nx) 0 0) * Index_F (S nx) 0 0);
  Terms_scale nx (S ny) 0 C :=
    let C1 := Terms_scale (S nx) 0 ny C in
    vset C1 (Index_I nx (S ny) 0)
         (vget C1 (Index_I nx (S ny) 0) * Index_F nx (S ny) 0);
  Terms_scale nx ny (S nz) C :=
    let C1 := Terms_scale nx (S ny) nz C in
    vset C1 (Index_I nx ny (S nz))
         (vget C1 (Index_I nx ny (S nz)) * Index_F nx ny (S nz)).
Proof. all: slot_wf. Qed.

(** [getCoef<P>(C, dist, invR2, invR)]. *)
Definition getCoef (P : nat) (C : Vec) (dist : point) (invR2 invR : R) : Vec :=
  let C0 := vset C 0 invR in
  let C1 := Terms_derivative 0 0 P C0 dist invR2 in
  Terms_scale 0 0 P C1.

(** ** Convolution sums ([M2MSum], [M2LSum], [LocalSum]) *)

Equations? M2MSum_kernel (nx ny nz kx ky kz : nat) (C M : Vec) : R
  by wf (kz + S nz * (ky + S ny * kx))%nat lt :=
  M2MSum_kernel nx ny nz 0 0 0 C M := 0;
  M2MSum_kernel nx ny nz (S kx) 0 0 C M :=
    M2MSum_kernel nx ny nz kx ny nz C M
    + vget C (Index_I (nx - S kx) ny nz) * vget M (Index_I (S kx) 0 0);
  M2MSum_kernel nx ny nz kx (S ky) 0 C M :=
    M2MSum_kernel nx ny nz kx ky nz C M
    + vget C (Index_I (nx - kx) (ny - S ky) nz) * vget M (Index_I kx (S ky) 0);
  M2MSum_kernel nx ny nz kx ky (S kz) C M :=
    M2MSum_kernel nx ny nz kx ky kz C M
    + vget C (Index_I (nx - kx) (ny - ky) (nz - S kz)) * vget M (Index_I kx ky (S kz)).
Proof. all: nia. Qed.

(** [M2LSum<nx,ny,nz,kx,ky,kz>::kernel(L, M)]; its first argument, named
    [L] in the source, is the coefficient vector [C] at every call. *)
Equations? M2LSum_kernel (nx ny nz kx ky kz : nat) (L M : Vec) : R
  by wf (slot kx ky kz) lt :=
  M2LSum_kernel nx ny nz 0 0 0 L M := 0;
  M2LSum_kernel nx ny nz (S kx) 0 0 L M :=
    M2LSum_kernel nx ny nz 0 0 kx L M
    + vget M (Index_I (S kx) 0 0) * vget L (Index_I (nx + S kx) ny nz);
  M2LSum_kernel nx ny nz kx (S ky) 0 L M :=
    M2LSum_kernel nx ny nz (S kx) 0 ky L M
    + vget M (Index_I kx (S ky) 0) * vget L (Index_I (nx + kx) (ny + S ky) nz);
  M2LSum_kernel nx ny nz kx ky (S kz) L M :=
    M2LSum_kernel nx ny nz kx (S ky) kz L M
    + vget M (Index_I kx ky (S kz)) * vget L (Index_I (nx + kx) (ny + ky) (nz + S kz)).
Proof. all: slot_wf. Qed.

Equations? LocalSum_kernel (nx ny nz kx ky kz : nat) (C L : Vec) : R
  by wf (slot kx ky kz) lt :=
  LocalSum_kernel nx ny nz 0 0 0 C L := 0;
  LocalSum_kernel nx ny nz (S kx) 0 0 C L :=
    LocalSum_kernel nx ny nz 0 0 kx C L
    + vget C (Index_I (S kx) 0 0) * vget L (Index_I (nx + S kx) ny nz);
  LocalSum_kernel nx ny nz kx (S ky) 0 C L :=
    LocalSum_kernel nx ny nz (S kx) 0 ky C L
    + vget C (Index_I kx (S ky) 0) * vget L (Index_I (nx + kx) (ny + S ky) nz);
  LocalSum_kernel nx ny nz kx ky (S kz) C L :=
    LocalSum_kernel nx ny nz kx (S ky) kz C L
    + vget C (Index_I kx ky (S kz)) * vget L (Index_I (nx + kx) (ny + ky) (nz + S kz)).
Proof. all: slot_wf. Qed.

(** ** Sweeps over the output slots ([Upward], [Downward]) *)

Equations? Upward_M2M (nx ny nz : nat) (MI C MJ : Vec) : Vec
  by wf (slot nx ny nz) lt :=
  Upward_M2M 0 0 0 MI C MJ := MI;
  Upward_M2M (S nx) 0 0 MI C MJ :=
    let MI1 := Upward_M2M 0 0 nx MI C MJ in
    vinc MI1 (Index_I (S nx) 0 0) (M2MSum_kernel (S nx) 0 0 (S nx) 0 0 C MJ);
  Upward_M2M nx (S ny) 0 MI C MJ :=
    let MI1 := Upward_M2M (S nx) 0 ny MI C MJ in
    vinc MI1 (Index_I nx (S ny) 0) (M2MSum_kernel nx (S ny) 0 nx (S ny) 0 C MJ);
  Upward_M2M nx ny (S nz) MI C MJ :=
    let MI1 := Upward_M2M nx (S ny) nz MI C MJ in
    vinc MI1 (Index_I nx ny (S nz)) (M2MSum_kernel nx ny (S nz) nx ny (S nz) C MJ).
Proof. all: slot_wf. Qed.

Equations? Downward_M2L (P nx ny nz : nat) (L C M : Vec) : Vec
  by wf (slot nx ny nz) lt :=
  Downward_M2L P 0 0 0 L C M := L;
  Downward_M2L P (S nx) 0 0 L C M :=
    let L1 := Downward_M2L P 0 0 nx L C M in
    vinc L1 (Index_I (S nx) 0 0) (M2LSum_kernel (S nx) 0 0 0 0 (P - S nx) C M);
  Downward_M2L P nx (S ny) 0 L C M :=
    let L1 := Downward_M2L P (S nx) 0 ny L C M in
    vinc L1 (Index_I nx (S ny) 0) (M2LSum_kernel nx (S ny) 0 0 0 (P - nx - S ny) C M);
  Downward_M2L P nx ny (S nz) L C M :=
    let L1 := Downward_M2L P nx (S ny) nz L C M in
    vinc L1 (Index_I nx ny (S nz))
         (M2LSum_kernel nx ny (S nz) 0 0 (P - nx - ny - S nz) C M).
Proof. all: slot_wf. Qed.

Equations? Downward_M2P (P nx ny nz : nat) (B C M : Vec) : Vec
  by wf (slot nx ny nz) lt :=
  Downward_M2P P 0 0 0 B C M := B;
  Downward_M2P P (S nx) 0 0 B C M :=
    let B1 := Downward_M2P P 0 0 nx B C M in
    vinc B1 (Index_I (S nx) 0 0) (M2LSum_kernel (S nx) 0 0 0 0 (P - S nx) C M);
  Downward_M2P P nx (S ny) 0 B C M :=
    let B1 := Downward_M2P P (S nx) 0 ny B C M in
    vinc B1 (Index_I nx (S ny) 0) (M2LSum_kernel nx (S ny) 0 0 0 (P - nx - S ny) C M);
  Downward_M2P P nx ny (S nz) B C M :=
    let B1 := Downward_M2P P nx (S ny) nz B C M in
    vinc B1 (Index_I nx ny (S nz))
         (M2LSum_kernel nx ny (S nz) 0 0 (P - nx - ny - S nz) C M).
Proof. all: slot_wf. Qed.

Equations? Downward_L2L (P nx ny nz : nat) (LI C LJ : Vec) : Vec
  by wf (slot nx ny nz) lt :=
  Downward_L2L P 0 0 0 LI C LJ := LI;
  Downward_L2L P (S nx) 0 0 LI C LJ :=
    let LI1 := Downward_L2L P 0 0 nx LI C LJ in
    vinc LI1 (Index_I (S nx) 0 0) (LocalSum_kernel (S nx) 0 0 0 0 (P - S nx) C LJ);
  Downward_L2L P nx (S ny) 0 LI C LJ :=
    let LI1 := Downward_L2L P (S nx) 0 ny LI C LJ in
    vinc LI1 (Index_I nx (S ny) 0) (LocalSum_kernel nx (S ny) 0 0 0 (P - nx - S ny) C LJ);
  Downward_L2L P nx ny (S nz) LI C LJ :=
    let LI1 := Downward_L2L P nx (S ny) nz LI C LJ in
    vinc LI1 (Index_I nx ny (S nz))
         (LocalSum_kernel nx ny (S nz) 0 0 (P - nx - ny - S nz) C LJ).
Proof. all: slot_wf. Qed.

Equations? Downward_L2P (P nx ny nz : nat) (B C L : Vec) : Vec
  by wf (slot nx ny nz) lt :=
  Downward_L2P P 0 0 0 B C L := B;
  Downward_L2P P (S nx) 0 0 B C L :=
    let B1 := Downward_L2P P 0 0 nx B C L in
    vinc B1 (Index_I (S nx) 0 0) (LocalSum_kernel (S nx) 0 0 0 0 (P - S nx) C L);
  Downward_L2P P nx (S ny) 0 B C L :=
    let B1 := Downward_L2P P (S nx) 0 ny B C L in
    vinc B1 (Index_I nx (S ny) 0) (LocalSum_kernel nx (S ny) 0 0 0 (P - nx - S ny) C L);
  Downward_L2P P nx ny (S nz) B C L :=
    let B1 := Downward_L2P P nx (S ny) nz B C L in
    vinc B1 (Index_I nx ny (S nz))
         (LocalSum_kernel nx ny (S nz) 0 0 (P - nx - ny - S nz) C L).
Proof. all: slot_wf. Qed.

(** ** The operators of [LaplaceCartesian<P>] *)

(** [for (int i = lo; i < hi; ++i) v = body(v, i)]. *)
Definition for_loop (lo hi : nat) (body : Vec -> nat -> Vec) (v : Vec) : Vec :=
  fold_left body (seq lo (hi - lo)) v.

(** The bound [P*(P+1)*(P+2)/6] of the loops of [sumM2L] and [sumM2P],
    computed on the [int] template argument [P] (signed arithmetic, which
    does not wrap). *)
Definition int_MTERM (P : nat) : nat := (P * (P + 1) * (P + 2) / 6)%nat.

(** [sumM2L<P>(L, C, M)]. *)
Definition sumM2L (P : nat) (L C M : Vec) : Vec :=
  let L1 := vadd L C in
  let L2 := for_loop 1 (int_MTERM P)
              (fun L i => vinc L 0 (vget M i * vget C i)) L1 in
  Downward_M2L P 0 0 (P - 1) L2 C M.

(** [sumM2P<P>(B, C, M)]. *)
Definition sumM2P (P : nat) (B C M : Vec) : Vec :=
  let B1 := vinc B 0 (vget C 0) in
  let B2 := vinc B1 1 (vget C 1) in
  let B3 := vinc B2 2 (vget C 2) in
  let B4 := vinc B3 3 (vget C 3) in
  let B5 := for_loop 1 (int_MTERM P)
              (fun B i => vinc B 0 (vget M i * vget C i)) B4 in
  Downward_M2P P 0 0 1 B5 C M.

(** [operator()(t, s)]: the kernel value on [t] from [s]. *)
Definition kernel_eval (t s : point) : Vec :=
  let dist := pt_sub s t in
  let R2 := normSq dist in
  let invR2 := 1 / R2 in
  let invR2 := if Rlt_dec R2 1e-8 then 0 else invR2 in
  let invR := sqrt invR2 in
  let dist := pt_scale dist (invR2 * invR) in
  [invR; pt_at dist 0; pt_at dist 1; pt_at dist 2].

Definition P2M (P : nat) (source : point) (charge : R) (center : point) (M : Vec) : Vec :=
  let dist := pt_sub center source in
  let C := vzero (MTERM P) in
  let C := vset C 0 charge in
  let C := Terms_power 0 0 (P - 1) C dist in
  vadd M C.

Definition M2M (P : nat) (Msource Mtarget : Vec) (translation : point) : Vec :=
  let C := vzero (MTERM P) in
  let C := vset C 0 1 in
  let C := Terms_power 0 0 (P - 1) C translation in
  let Mtarget := for_loop 0 (MTERM P)
                   (fun Mt i => vinc Mt i (vget C i * vget Msource 0)) Mtarget in
  Upward_M2M 0 0 (P - 1) Mtarget C Msource.

Definition M2L (P : nat) (M L : Vec) (translation : point) : Vec :=
  let invR2 := 1 / normSq translation in
  let invR := vget M 0 * sqrt invR2 in
  let C := vzero (LTERM P) in
  let C := getCoef P C translation invR2 invR in
  sumM2L P L C M.

Definition M2P (P : nat) (M : Vec) (center target : point) (result : Vec) : Vec :=
  let dist := pt_sub target center in
  let invR2 := 1 / normSq dist in
  let invR := vget M 0 * sqrt invR2 in
  let C := vzero (LTERM P) in
  let C := getCoef P C dist invR2 invR in
  sumM2P P result C M.

Definition L2L (P : nat) (Lsource Ltarget : Vec) (translation : point) : Vec :=
  let C := vzero (LTERM P) in
  let C := vset C 0 1 in
  let C := Terms_power 0 0 P C translation in
  let Ltarget := vadd Ltarget Lsource in
  let Ltarget := for_loop 1 (LTERM P)
                   (fun Lt i => vinc Lt 0 (vget C i * vget Lsource i)) Ltarget in
  Downward_L2L P 0 0 (P - 1) Ltarget C Lsource.

Definition L2P (P : nat) (L : Vec) (center target : point) (result : Vec) : Vec :=
  let dist := pt_sub target center in
  let C := vzero (LTERM P) in
  let C := vset C 0 1 in
  let C := Terms_power 0 0 P C dist in
  let result := vinc result 0 (vget L 0) in
  let result := vinc result 1 (vget L 1) in
  let result := vinc result 2 (vget L 2) in
  let result := vinc result 3 (vget L 3) in
  let result := for_loop 1 (LTERM P)
                  (fun r i => vinc r 0 (vget C i * vget L i)) result in
  Downward_L2P P 0 0 1 result C L.

(** ** The sweep shared by [Terms], [Upward], [Downward], [M2LSum] and
    [LocalSum]: instantiate the predecessor, then act on [<nx,ny,nz>]. *)

Equations? sweep {A : Type} (f : nat -> nat -> nat -> A -> A) (nx ny nz : nat) (a : A) : A
  by wf (slot nx ny nz) lt :=
  sweep f 0 0 0 a := a;
  sweep f (S nx) 0 0 a := f (S nx) 0%nat 0%nat (sweep f 0 0 nx a);
  sweep f nx (S ny) 0 a := f nx (S ny) 0%nat (sweep f (S nx) 0 ny a);
  sweep f nx ny (S nz) a := f nx ny (S nz) (sweep f nx (S ny) nz a).
Proof. all: slot_wf. Qed.

(** The multi-indices of slots [1 .. k], in ascending order. *)
Definition slots_upto (k : nat) : list midx := map unrank (seq 1 k).

Definition act {A : Type} (f : nat -> nat -> nat -> A -> A) (a : A) (b : midx) : A :=
  let '(nx, ny, nz) := b in f nx ny nz a.

(** Sum of [g] over a list. *)
Definition Rsum {B : Type} (l : list B) (g : B -> R) : R :=
  fold_right (fun b acc => g b + acc) 0 l.

(** The axis a sweep step works along, the multi-index one step down that
    axis, and the component it divides by. *)
Definition axis_of (a : midx) : nat :=
  let '(nx, ny, nz) := a in
  match nz with
  | S _ => 2
  | 0 => match ny with S _ => 1 | 0 => 0 end
  end%nat.

Definition dec (a : midx) : midx :=
  let '(nx, ny, nz) := a in
  match nz with
  | S nz' => (nx, ny, nz')
  | 0 => match ny with
         | S ny' => (nx, ny', 0)
         | 0 => (Nat.pred nx, 0, 0)
         end
  end%nat.

Definition comp_of (a : midx) : nat :=
  let '(nx, ny, nz) := a in
  match nz with
  | S _ => nz
  | 0 => match ny with S _ => ny | 0 => nx end
  end%nat.

(** The multi-indices [(bx, by, bz)] of total degree at most [D], listed by
    their components. *)
Definition box_upto (D : nat) : list midx :=
  flat_map (fun bx =>
    flat_map (fun by_ =>
      map (fun bz => (bx, by_, bz)) (seq 0 (S (D - bx - by_))))
      (seq 0 (S (D - bx))))
    (seq 0 (S D)).

Definition nonzero (b : midx) : bool :=
  negb (deg b =? 0)%nat.

(** The multi-indices [b] with [1 <= |b| <= D]. *)
Definition midx_1_upto (D : nat) : list midx := filter nonzero (box_upto D).

(** The multi-indices [b <= a] componentwise. *)
Definition below (a : midx) : list midx :=
  let '(ax, ay, az) := a in
  flat_map (fun bx =>
    flat_map (fun by_ =>
      map (fun bz => (bx, by_, bz)) (seq 0 (S az)))
      (seq 0 (S ay)))
    (seq 0 (S ax)).

Definition madd (a b : midx) : midx :=
  let '(ax, ay, az) := a in
  let '(bx, by_, bz) := b in
  (ax + bx, ay + by_, az + bz)%nat.

Definition msub (a b : midx) : midx :=
  let '(ax, ay, az) := a in
  let '(bx, by_, bz) := b in
  (ax - bx, ay - by_, az - bz)%nat.

(** [d^a] and [a!]. *)
Definition mpow (d : point) (a : midx) : R :=
  let '(x, y, z) := d in
  let '(nx, ny, nz) := a in
  x ^ nx * y ^ ny * z ^ nz.

Definition mfact (a : midx) : R :=
  let '(nx, ny, nz) := a in INR (fact nx) * INR (fact ny) * INR (fact nz).

(** ** Facts on vectors *)

Lemma length_vset v i x : length (vset v i x) = length v.
Proof.
  revert i. induction v as [|h t IH]; intro i; [reflexivity |].
  destruct i; simpl; [reflexivity | now rewrite IH].
Qed.

Lemma vget_vset_eq v i x : (i < length v)%nat -> vget (vset v i x) i = x.
Proof.
  unfold vget. revert i. induction v as [|h t IH]; intros i Hi; simpl in Hi; [lia |].
  destruct i; simpl; [reflexivity | apply IH; lia].
Qed.

Lemma vget_vset_neq v i j x : i <> j -> vget (vset v i x) j = vget v j.
Proof.
  unfold vget. revert i j. induction v as [|h t IH]; intros i j Hij; [reflexivity |].
  destruct i, j; simpl; try reflexivity; [lia | apply IH; lia].
Qed.

Lemma length_vadd a b : length (vadd a b) = length a.
Proof.
  revert b. induction a as [|x a IH]; intro b; [reflexivity |].
  destruct b; simpl; [reflexivity | now rewrite IH].
Qed.

Lemma vget_vadd a b i :
  (i < length b)%nat -> vget (vadd a b) i = vget a i + (if (i <? length a)%nat then vget b i else 0).
Proof.
  unfold vget. revert b i. induction a as [|x a IH]; intros b i Hi.
  - simpl. destruct i; lra.
  - destruct b as [|y b]; [simpl in Hi; lia |].
    destruct i; simpl; [reflexivity |]. simpl in Hi.
    rewrite IH by lia. reflexivity.
Qed.

Lemma vget_vadd_same a b i :
  length a = length b -> vget (vadd a b) i = vget a i + vget b i.
Proof.
  intro Hl. destruct (Nat.lt_ge_cases i (length b)) as [Hi | Hi].
  - rewrite vget_vadd by assumption.
    destruct (Nat.ltb_spec i (length a)); [reflexivity | lia].
  - unfold vget. rewrite !nth_overflow; [lra | lia | lia | rewrite length_vadd; lia].
Qed.

Lemma vget_overflow v i : (length v <= i)%nat -> vget v i = 0.
Proof. intro H. unfold vget. now apply nth_overflow. Qed.

Lemma length_vinc v i x : length (vinc v i x) = length v.
Proof. apply length_vset. Qed.

Lemma vget_vinc_eq v i x : (i < length v)%nat -> vget (vinc v i x) i = vget v i + x.
Proof. intro H. unfold vinc. now rewrite vget_vset_eq. Qed.

Lemma vget_vinc_neq v i j x : i <> j -> vget (vinc v i x) j = vget v j.
Proof. intro H. unfold vinc. now rewrite vget_vset_neq. Qed.

Lemma length_vzero n : length (vzero n) = n.
Proof. apply repeat_length. Qed.

Lemma vget_vzero n i : vget (vzero n) i = 0.
Proof.
  unfold vget, vzero. revert i. induction n; intro i; destruct i; simpl; auto.
Qed.

(** ** Facts on the sweep *)

Lemma sweep_prev {A} (f : nat -> nat -> nat -> A -> A) nx ny nz a :
  (nx, ny, nz) <> (0, 0, 0)%nat ->
  sweep f nx ny nz a =
  f nx ny nz (let '(px, py, pz) := prev (nx, ny, nz) in sweep f px py pz a).
Proof.
  intro H. destruct nx, ny, nz; simp sweep; cbn [prev]; try reflexivity.
  now elim H.
Qed.

Lemma slots_upto_succ k : slots_upto (S k) = slots_upto k ++ [unrank (S k)].
Proof.
  unfold slots_upto. rewrite seq_S, map_app. reflexivity.
Qed.

Lemma prev_next a : prev (next a) = a.
Proof.
  destruct a as [[nx ny] nz]. destruct ny as [|ny]; [destruct nx as [|nx] |]; reflexivity.
Qed.

Lemma sweep_unrank {A} (f : nat -> nat -> nat -> A -> A) k a :
  (let '(nx, ny, nz) := unrank k in sweep f nx ny nz a) =
  fold_left (act f) (slots_upto k) a.
Proof.
  induction k as [|k IH].
  - simpl. simp sweep. reflexivity.
  - rewrite slots_upto_succ, fold_left_app.
    assert (Hne : unrank (S k) <> (0, 0, 0)%nat).
    { intro H. pose proof (slot_unrank (S k)) as Hs. rewrite H in Hs. discriminate. }
    assert (Hp : prev (unrank (S k)) = unrank k) by (simpl; apply prev_next).
    remember (unrank (S k)) as u eqn:E. clear E.
    cbn [fold_left]. rewrite <- IH. clear IH.
    destruct u as [[nx ny] nz].
    rewrite (sweep_prev f nx ny nz a Hne). rewrite Hp.
    unfold act. reflexivity.
Qed.

Lemma sweep_fold {A} (f : nat -> nat -> nat -> A -> A) nx ny nz a :
  sweep f nx ny nz a = fold_left (act f) (slots_upto (slot nx ny nz)) a.
Proof.
  rewrite <- sweep_unrank.
  change (slot nx ny nz) with (slot_of (nx, ny, nz)).
  rewrite unrank_slot. reflexivity.
Qed.

(** ** Sums *)

Lemma Rsum_app {B} (l1 l2 : list B) g : Rsum (l1 ++ l2) g = Rsum l1 g + Rsum l2 g.
Proof. induction l1 as [|b l1 IH]; simpl; [lra | rewrite IH; lra]. Qed.

Lemma Rsum_ext {B} (l : list B) g h :
  (forall b, In b l -> g b = h b) -> Rsum l g = Rsum l h.
Proof.
  induction l as [|b l IH]; intro H; simpl; [reflexivity |].
  rewrite (H b) by (left; reflexivity). rewrite IH; [reflexivity |].
  intros c Hc. apply H. now right.
Qed.

Lemma Rsum_perm {B} (l1 l2 : list B) g : Permutation l1 l2 -> Rsum l1 g = Rsum l2 g.
Proof. induction 1; simpl; lra. Qed.

Lemma Rsum_map {B D} (f : B -> D) (l : list B) g : Rsum (map f l) g = Rsum l (fun b => g (f b)).
Proof. induction l as [|b l IH]; simpl; [reflexivity | now rewrite IH]. Qed.

Lemma Rsum_zero {B} (l : list B) g : (forall b, In b l -> g b = 0) -> Rsum l g = 0.
Proof.
  induction l as [|b l IH]; intro H; simpl; [reflexivity |].
  rewrite (H b) by (left; reflexivity). rewrite IH; [lra |].
  intros c Hc. apply H. now right.
Qed.

Lemma Rsum_plus {B} (l : list B) g h : Rsum l (fun b => g b + h b) = Rsum l g + Rsum l h.
Proof. induction l as [|b l IH]; simpl; [lra | rewrite IH; lra]. Qed.

Lemma Rsum_scal {B} (l : list B) c g : Rsum l (fun b => c * g b) = c * Rsum l g.
Proof. induction l as [|b l IH]; simpl; [lra | rewrite IH; lra]. Qed.

Lemma fold_left_Rplus {B} (l : list B) g a :
  fold_left (fun acc b => acc + g b) l a = a + Rsum l g.
Proof.
  revert a. induction l as [|b l IH]; intro a; simpl; [lra |].
  rewrite IH. lra.
Qed.

Lemma filter_eq_seq lo n i :
  filter (fun j => j =? i)%nat (seq lo n) = if ((lo <=? i) && (i <? lo + n))%nat then [i] else [].
Proof.
  revert lo. induction n as [|n IH]; intro lo.
  - simpl. destruct (Nat.leb_spec lo i), (Nat.ltb_spec i (lo + 0)); simpl; try reflexivity; lia.
  - simpl. rewrite IH.
    destruct (Nat.eqb_spec lo i) as [-> | Hne].
    + destruct (Nat.leb_spec (S i) i); [lia |]. simpl.
      destruct (Nat.leb_spec i i), (Nat.ltb_spec i (i + S n)); simpl; try reflexivity; lia.
    + destruct (Nat.leb_spec (S lo) i), (Nat.ltb_spec i (S lo + n)),
        (Nat.leb_spec lo i), (Nat.ltb_spec i (lo + S n)); simpl; try reflexivity; lia.
Qed.

(** ** Accumulation into slots *)

(** A run of [v[ix b] += g b] over a list adds to each slot the sum of the
    [g b] addressed to it. *)
Lemma fold_vinc_length {B} (ix : B -> nat) (g : B -> R) l v :
  length (fold_left (fun v b => vinc v (ix b) (g b)) l v) = length v.
Proof.
  revert v. induction l as [|b l IH]; intro v; simpl; [reflexivity |].
  rewrite IH. apply length_vinc.
Qed.

Lemma fold_vinc_get {B} (ix : B -> nat) (g : B -> R) l v i :
  (i < length v)%nat ->
  vget (fold_left (fun v b => vinc v (ix b) (g b)) l v) i =
  vget v i + Rsum (filter (fun b => ix b =? i)%nat l) g.
Proof.
  revert v. induction l as [|b l IH]; intros v Hi; simpl; [lra |].
  rewrite IH by (rewrite length_vinc; assumption).
  destruct (Nat.eqb_spec (ix b) i) as [E | E].
  - subst i. rewrite vget_vinc_eq by assumption. simpl. lra.
  - rewrite vget_vinc_neq by assumption. reflexivity.
Qed.

Lemma fold_vinc_get_out {B} (ix : B -> nat) (g : B -> R) l v i :
  (length v <= i)%nat ->
  vget (fold_left (fun v b => vinc v (ix b) (g b)) l v) i = 0.
Proof.
  intro Hi. apply vget_overflow. now rewrite fold_vinc_length.
Qed.

(** ** The sweeps of the source as instances of [sweep] *)

Definition Upward_step (C MJ : Vec) (nx ny nz : nat) (MI : Vec) : Vec :=
  vinc MI (Index_I nx ny nz) (M2MSum_kernel nx ny nz nx ny nz C MJ).

Definition M2L_step (P : nat) (C M : Vec) (nx ny nz : nat) (L : Vec) : Vec :=
  vinc L (Index_I nx ny nz) (M2LSum_kernel nx ny nz 0 0 (P - nx - ny - nz) C M).

Definition L2L_step (P : nat) (C LJ : Vec) (nx ny nz : nat) (LI : Vec) : Vec :=
  vinc LI (Index_I nx ny nz) (LocalSum_kernel nx ny nz 0 0 (P - nx - ny - nz) C LJ).

Definition M2LSum_step (nx ny nz : nat) (L M : Vec) (kx ky kz : nat) (acc : R) : R :=
  acc + vget M (Index_I kx ky kz) * vget L (Index_I (nx + kx) (ny + ky) (nz + kz)).

Definition LocalSum_step (nx ny nz : nat) (C L : Vec) (kx ky kz : nat) (acc : R) : R :=
  acc + vget C (Index_I kx ky kz) * vget L (Index_I (nx + kx) (ny + ky) (nz + kz)).

Definition power_step (dist : point) (nx ny nz : nat) (C : Vec) : Vec :=
  let a := (nx, ny, nz) in
  vset C (index_of a)
       (vget C (index_of (dec a)) * pt_at dist (axis_of a) / INR (comp_of a)).

Definition derivative_step (dist : point) (invR2 : R) (nx ny nz : nat) (C : Vec) : Vec :=
  vset C (Index_I nx ny nz)
       (DerivativeSum_loop nx ny nz nx ny nz 5 C dist / INR (nx + ny + nz) * invR2).

Definition scale_step (nx ny nz : nat) (C : Vec) : Vec :=
  vset C (Index_I nx ny nz) (vget C (Index_I nx ny nz) * Index_F nx ny nz).

Lemma M2L_step_eq P C M nx ny nz L :
  M2L_step P C M nx ny nz L =
  vinc L (Index_I nx ny nz) (M2LSum_kernel nx ny nz 0 0 (P - nx - ny - nz) C M).
Proof. reflexivity. Qed.

Lemma L2L_step_eq P C LJ nx ny nz LI :
  L2L_step P C LJ nx ny nz LI =
  vinc LI (Index_I nx ny nz) (LocalSum_kernel nx ny nz 0 0 (P - nx - ny - nz) C LJ).
Proof. reflexivity. Qed.

Lemma M2LSum_step_eq nx ny nz L M kx ky kz acc :
  M2LSum_step nx ny nz L M kx ky kz acc =
  acc + vget M (Index_I kx ky kz) * vget L (Index_I (nx + kx) (ny + ky) (nz + kz)).
Proof. reflexivity. Qed.

Lemma LocalSum_step_eq nx ny nz C L kx ky kz acc :
  LocalSum_step nx ny nz C L kx ky kz acc =
  acc + vget C (Index_I kx ky kz) * vget L (Index_I (nx + kx) (ny + ky) (nz + kz)).
Proof. reflexivity. Qed.

Lemma derivative_step_eq dist invR2 nx ny nz C :
  derivative_step dist invR2 nx ny nz C =
  vset C (Index_I nx ny nz)
       (DerivativeSum_loop nx ny nz nx ny nz 5 C dist / INR (nx + ny + nz) * invR2).
Proof. reflexivity. Qed.

Ltac sweep_cases :=
  simp sweep; cbv zeta; try reflexivity;
  match goal with IH : _ = sweep _ _ _ _ _ |- _ => rewrite IH end;
  try reflexivity;
  rewrite ?M2L_step_eq, ?L2L_step_eq, ?M2LSum_step_eq, ?LocalSum_step_eq,
    ?derivative_step_eq;
  rewrite ?Nat.sub_0_r, ?Nat.add_0_r; try reflexivity.

Lemma Upward_M2M_sweep nx ny nz MI C MJ :
  Upward_M2M nx ny nz MI C MJ = sweep (Upward_step C MJ) nx ny nz MI.
Proof. funelim (Upward_M2M nx ny nz MI C MJ); sweep_cases. Qed.

Lemma Downward_M2L_sweep P nx ny nz L C M :
  Downward_M2L P nx ny nz L C M = sweep (M2L_step P C M) nx ny nz L.
Proof.
  funelim (Downward_M2L P nx ny nz L C M); sweep_cases.
Qed.

Lemma Downward_M2P_sweep P nx ny nz B C M :
  Downward_M2P P nx ny nz B C M = sweep (M2L_step P C M) nx ny nz B.
Proof.
  funelim (Downward_M2P P nx ny nz B C M); sweep_cases.
Qed.

Lemma Downward_L2L_sweep P nx ny nz LI C LJ :
  Downward_L2L P nx ny nz LI C LJ = sweep (L2L_step P C LJ) nx ny nz LI.
Proof.
  funelim (Downward_L2L P nx ny nz LI C LJ); sweep_cases.
Qed.

Lemma Downward_L2P_sweep P nx ny nz B C L :
  Downward_L2P P nx ny nz B C L = sweep (L2L_step P C L) nx ny nz B.
Proof.
  funelim (Downward_L2P P nx ny nz B C L); sweep_cases.
Qed.

Lemma M2LSum_kernel_sweep nx ny nz kx ky kz L M :
  M2LSum_kernel nx ny nz kx ky kz L M = sweep (M2LSum_step nx ny nz L M) kx ky kz 0.
Proof.
  funelim (M2LSum_kernel nx ny nz kx ky kz L M); sweep_cases.
Qed.

Lemma LocalSum_kernel_sweep nx ny nz kx ky kz C L :
  LocalSum_kernel nx ny nz kx ky kz C L = sweep (LocalSum_step nx ny nz C L) kx ky kz 0.
Proof.
  funelim (LocalSum_kernel nx ny nz kx ky kz C L); sweep_cases.
Qed.

Lemma Terms_power_sweep nx ny nz C dist :
  Terms_power nx ny nz C dist = sweep (power_step dist) nx ny nz C.
Proof. funelim (Terms_power nx ny nz C dist); sweep_cases. Qed.

Lemma Terms_derivative_sweep nx ny nz C dist invR2 :
  Terms_derivative nx ny nz C dist invR2 = sweep (derivative_step dist invR2) nx ny nz C.
Proof.
  funelim (Terms_derivative nx ny nz C dist invR2); sweep_cases.
Qed.

Lemma Terms_scale_sweep nx ny nz C :
  Terms_scale nx ny nz C = sweep scale_step nx ny nz C.
Proof. funelim (Terms_scale nx ny nz C); sweep_cases. Qed.

(** ** The multi-indices a sweep visits *)

Lemma unrank_inj j k : unrank j = unrank k -> j = k.
Proof. intro H. rewrite <- (slot_unrank j), <- (slot_unrank k). now f_equal. Qed.

Lemma NoDup_slots_upto k : NoDup (slots_upto k).
Proof.
  unfold slots_upto. apply Finite.Injective_map_NoDup; [| apply seq_NoDup].
  intros i j. apply unrank_inj.
Qed.

Lemma In_slots_upto b k : In b (slots_upto k) <-> (1 <= slot_of b <= k)%nat.
Proof.
  unfold slots_upto. rewrite in_map_iff. split.
  - intros [j [Hj Hin]]. apply in_seq in Hin. subst b. rewrite slot_unrank. lia.
  - intro H. exists (slot_of b). split; [apply unrank_slot | apply in_seq; lia].
Qed.

Lemma slot_zero_iff b : slot_of b = 0%nat <-> b = (0, 0, 0)%nat.
Proof.
  split; [| intros ->; reflexivity].
  intro H. apply slot_inj. rewrite H. reflexivity.
Qed.

Lemma deg_zero_iff b : deg b = 0%nat <-> b = (0, 0, 0)%nat.
Proof.
  destruct b as [[x y] z]. unfold deg. split.
  - intro H. repeat f_equal; lia.
  - intro H. inversion H. reflexivity.
Qed.

Lemma slot_last D : slot 0 0 D = (tet (S D) - 1)%nat.
Proof. unfold slot. rewrite tet_succ. simpl. lia. Qed.

Lemma slot_lt_tet_iff b n : (slot_of b < tet (S n))%nat <-> (deg b <= n)%nat.
Proof.
  split; [apply deg_slot_lt |].
  destruct b as [[x y] z]. unfold slot_of, deg. intro H.
  pose proof (slot_bounds x y z). pose proof (tet_mono (S (x + y + z)) (S n) ltac:(lia)). lia.
Qed.

Lemma In_slots_upto_last b D :
  In b (slots_upto (slot 0 0 D)) <-> (1 <= deg b <= D)%nat.
Proof.
  rewrite In_slots_upto, slot_last.
  pose proof (slot_lt_tet_iff b D). pose proof (slot_zero_iff b). pose proof (deg_zero_iff b).
  assert (0 < tet (S D))%nat by (rewrite tet_succ; lia).
  split; intro; split; try lia.
  - destruct (Nat.eq_dec (deg b) 0); [| lia]. intuition lia.
  - destruct (Nat.eq_dec (slot_of b) 0); [| lia]. intuition lia.
Qed.

Lemma NoDup_flat_map {A B} (f : A -> list B) l :
  NoDup l -> (forall a, In a l -> NoDup (f a)) ->
  (forall a a' x, In a l -> In a' l -> In x (f a) -> In x (f a') -> a = a') ->
  NoDup (flat_map f l).
Proof.
  induction l as [|a l IH]; intros Hl Hf Hd; simpl; [constructor |].
  inversion Hl as [|? ? Hna Hl']; subst.
  apply NoDup_app.
  - apply Hf. now left.
  - apply IH; [assumption | |].
    + intros b Hb. apply Hf. now right.
    + intros b b' x Hb Hb'. apply Hd; now right.
  - intros x Hx Hx'. apply in_flat_map in Hx'. destruct Hx' as [b [Hb Hxb]].
    assert (a = b) by (apply (Hd a b x); [now left | now right | assumption | assumption]).
    subst b. contradiction.
Qed.

Lemma In_box_upto b D : In b (box_upto D) <-> (deg b <= D)%nat.
Proof.
  destruct b as [[x y] z]. unfold box_upto, deg.
  rewrite in_flat_map. split.
  - intros [bx [Hbx H]]. apply in_flat_map in H. destruct H as [by_ [Hby H]].
    apply in_map_iff in H. destruct H as [bz [E Hbz]]. inversion E; subst.
    apply in_seq in Hbx, Hby, Hbz. lia.
  - intro H. exists x. split; [apply in_seq; lia |].
    apply in_flat_map. exists y. split; [apply in_seq; lia |].
    apply in_map_iff. exists z. split; [reflexivity | apply in_seq; lia].
Qed.

Lemma NoDup_box_upto D : NoDup (box_upto D).
Proof.
  unfold box_upto. apply NoDup_flat_map; [apply seq_NoDup | |].
  - intros bx _. apply NoDup_flat_map; [apply seq_NoDup | |].
    + intros by_ _. apply Finite.Injective_map_NoDup; [| apply seq_NoDup].
      intros i j E. now inversion E.
    + intros a a' x _ _ H H'. apply in_map_iff in H, H'.
      destruct H as [? [E _]], H' as [? [E' _]]. subst x. now inversion E'.
  - intros a a' x _ _ H H'. apply in_flat_map in H, H'.
    destruct H as [? [_ H]], H' as [? [_ H']]. apply in_map_iff in H, H'.
    destruct H as [? [E _]], H' as [? [E' _]]. subst x. now inversion E'.
Qed.

Lemma In_midx_1_upto b D : In b (midx_1_upto D) <-> (1 <= deg b <= D)%nat.
Proof.
  unfold midx_1_upto. rewrite filter_In, In_box_upto. unfold nonzero.
  destruct (Nat.eqb_spec (deg b) 0) as [E | E]; simpl; split; intro H.
  - destruct H; discriminate.
  - lia.
  - lia.
  - split; [lia | reflexivity].
Qed.

Lemma slots_upto_perm D : Permutation (slots_upto (slot 0 0 D)) (midx_1_upto D).
Proof.
  apply NoDup_Permutation.
  - apply NoDup_slots_upto.
  - apply NoDup_filter, NoDup_box_upto.
  - intro b. rewrite In_slots_upto_last, In_midx_1_upto. reflexivity.
Qed.

Lemma In_below b a :
  In b (below a) <->
  (let '(bx, by_, bz) := b in let '(ax, ay, az) := a in bx <= ax /\ by_ <= ay /\ bz <= az)%nat.
Proof.
  destruct b as [[x y] z], a as [[ax ay] az]. unfold below.
  rewrite in_flat_map. split.
  - intros [bx [Hbx H]]. apply in_flat_map in H. destruct H as [by_ [Hby H]].
    apply in_map_iff in H. destruct H as [bz [E Hbz]]. inversion E; subst.
    apply in_seq in Hbx, Hby, Hbz. lia.
  - intro H. exists x. split; [apply in_seq; lia |].
    apply in_flat_map. exists y. split; [apply in_seq; lia |].
    apply in_map_iff. exists z. split; [reflexivity | apply in_seq; lia].
Qed.

Lemma Rsum_flat_map {A B} (f : A -> list B) l g :
  Rsum (flat_map f l) g = Rsum l (fun a => Rsum (f a) g).
Proof.
  induction l as [|a l IH]; simpl; [reflexivity |].
  rewrite Rsum_app, IH. reflexivity.
Qed.

Lemma Rsum_filter {B} (p : B -> bool) l g :
  Rsum (filter p l) g = Rsum l (fun b => if p b then g b else 0).
Proof.
  induction l as [|b l IH]; simpl; [reflexivity |].
  destruct (p b); simpl; rewrite IH; lra.
Qed.

(** Filtering the visited multi-indices by the slot they address. *)
Lemma filter_slots_upto P k i :
  supported P -> (k < tet (S P))%nat ->
  filter (fun b => index_of b =? i)%nat (slots_upto k) =
  if ((1 <=? i) && (i <=? k))%nat then [unrank i] else [].
Proof.
  intros HP Hk. unfold slots_upto.
  assert (E : forall l, (forall j, In j l -> j <= k)%nat ->
              filter (fun b => index_of b =? i)%nat (map unrank l) =
              map unrank (filter (fun j => j =? i)%nat l)).
  { induction l as [|j l IH]; intro Hl; [reflexivity |]. simpl.
    rewrite (index_of_slot P) by
      (try assumption; apply deg_slot_lt; rewrite slot_unrank;
       specialize (Hl j (or_introl eq_refl)); lia).
    rewrite slot_unrank. rewrite IH by (intros; apply Hl; now right).
    destruct (j =? i)%nat; reflexivity. }
  rewrite E by (intros j Hj; apply in_seq in Hj; lia).
  rewrite filter_eq_seq.
  replace (i <? 1 + k)%nat with (i <=? k)%nat
    by (destruct (Nat.leb_spec i k), (Nat.ltb_spec i (1 + k)); lia || reflexivity).
  destruct ((1 <=? i)%nat && (i <=? k)%nat); reflexivity.
Qed.

(** ** Closed forms of the convolution sums *)

Lemma fold_left_ext {A B} (f h : A -> B -> A) l a :
  (forall a b, f a b = h a b) -> fold_left f l a = fold_left h l a.
Proof.
  intro E. revert a. induction l as [|b l IH]; intro a; simpl; [reflexivity |].
  rewrite E. apply IH.
Qed.

(** [M2LSum<nx,ny,nz,0,0,D>::kernel(C, M)] is the sum over [1 <= |b| <= D]
    of [M[I(b)] * C[I(a+b)]]. *)
Lemma M2LSum_kernel_sum nx ny nz D L M :
  M2LSum_kernel nx ny nz 0 0 D L M =
  Rsum (midx_1_upto D)
       (fun b => vget M (index_of b) * vget L (index_of (madd (nx, ny, nz) b))).
Proof.
  rewrite M2LSum_kernel_sweep, sweep_fold.
  rewrite (fold_left_ext _
             (fun acc b => acc + vget M (index_of b) * vget L (index_of (madd (nx, ny, nz) b))))
    by (intros acc [[kx ky] kz]; reflexivity).
  rewrite fold_left_Rplus, Rplus_0_l.
  apply Rsum_perm, slots_upto_perm.
Qed.

Lemma LocalSum_kernel_sum nx ny nz D C L :
  LocalSum_kernel nx ny nz 0 0 D C L =
  Rsum (midx_1_upto D)
       (fun b => vget C (index_of b) * vget L (index_of (madd (nx, ny, nz) b))).
Proof.
  rewrite LocalSum_kernel_sweep, sweep_fold.
  rewrite (fold_left_ext _
             (fun acc b => acc + vget C (index_of b) * vget L (index_of (madd (nx, ny, nz) b))))
    by (intros acc [[kx ky] kz]; reflexivity).
  rewrite fold_left_Rplus, Rplus_0_l.
  apply Rsum_perm, slots_upto_perm.
Qed.

Definition M2M_term (nx ny nz : nat) (C M : Vec) (kx ky kz : nat) : R :=
  vget C (Index_I (nx - kx) (ny - ky) (nz - kz)) * vget M (Index_I kx ky kz).

Lemma Rsum_seq_S lo n g : Rsum (seq lo (S n)) g = Rsum (seq lo n) g + g (lo + n)%nat.
Proof. rewrite seq_S, Rsum_app. simpl. lra. Qed.

Lemma Rsum_seq_0 lo g : Rsum (seq lo 0) g = 0.
Proof. reflexivity. Qed.

Lemma M2MSum_kernel_partial nx ny nz kx ky kz C M :
  M2MSum_kernel nx ny nz kx ky kz C M + M2M_term nx ny nz C M 0 0 0 =
  Rsum (seq 0 (S kz)) (fun j => M2M_term nx ny nz C M kx ky j)
  + Rsum (seq 0 ky) (fun i => Rsum (seq 0 (S nz)) (fun j => M2M_term nx ny nz C M kx i j))
  + Rsum (seq 0 kx) (fun h => Rsum (seq 0 (S ny)) (fun i =>
      Rsum (seq 0 (S nz)) (fun j => M2M_term nx ny nz C M h i j))).
Proof.
  funelim (M2MSum_kernel nx ny nz kx ky kz C M).
  all: match goal with Hc : _ = M2MSum_kernel _ _ _ _ _ _ _ _ |- _ => clear Hc end.
  all: unfold M2M_term in *.
  all: try match goal with IH : _ + _ = _ |- _ => rewrite ?Rsum_seq_S, ?Rsum_seq_0 in IH end.
  all: rewrite ?Rsum_seq_S, ?Rsum_seq_0.
  all: cbn [Nat.add] in *; rewrite ?Nat.sub_0_r in *.
  all: lra.
Qed.

Lemma Index_I_000 : Index_I 0 0 0 = 0%nat.
Proof. reflexivity. Qed.

(** [M2MSum<a,a>::kernel(C, M)], with the term of [b = 0] that the loop of
    [M2M] adds, is the sum over all [b <= a]. *)
Lemma M2MSum_kernel_sum nx ny nz C M :
  M2MSum_kernel nx ny nz nx ny nz C M + vget C (Index_I nx ny nz) * vget M 0 =
  Rsum (below (nx, ny, nz))
       (fun b => vget C (index_of (msub (nx, ny, nz) b)) * vget M (index_of b)).
Proof.
  pose proof (M2MSum_kernel_partial nx ny nz nx ny nz C M) as H.
  unfold M2M_term at 1 in H. rewrite !Nat.sub_0_r, Index_I_000 in H.
  rewrite H. clear H.
  unfold below. rewrite Rsum_flat_map.
  rewrite (Rsum_seq_S 0 nx). cbn [Nat.add].
  rewrite Rsum_flat_map. rewrite (Rsum_seq_S 0 ny). cbn [Nat.add].
  rewrite Rsum_map.
  assert (E1 : Rsum (seq 0 nx)
                 (fun h => Rsum (seq 0 (S ny)) (fun i =>
                    Rsum (seq 0 (S nz)) (fun j => M2M_term nx ny nz C M h i j))) =
               Rsum (seq 0 nx)
                 (fun a => Rsum (flat_map (fun by_ => map (fun bz => (a, by_, bz)) (seq 0 (S nz)))
                                          (seq 0 (S ny)))
                   (fun b => vget C (index_of (msub (nx, ny, nz) b)) * vget M (index_of b)))).
  { apply Rsum_ext. intros h _. rewrite Rsum_flat_map. apply Rsum_ext. intros i _.
    rewrite Rsum_map. reflexivity. }
  assert (E2 : Rsum (seq 0 ny)
                 (fun i => Rsum (seq 0 (S nz)) (fun j => M2M_term nx ny nz C M nx i j)) =
               Rsum (seq 0 ny)
                 (fun a => Rsum (map (fun bz => (nx, a, bz)) (seq 0 (S nz)))
                   (fun b => vget C (index_of (msub (nx, ny, nz) b)) * vget M (index_of b)))).
  { apply Rsum_ext. intros i _. rewrite Rsum_map. reflexivity. }
  rewrite E1, E2. unfold M2M_term. cbn [msub index_of].
  match goal with
  | |- ?a + ?b + ?c = ?c' + (?b' + ?a') =>
      change c' with c; change b' with b; change a' with a
  end.
  lra.
Qed.

(** ** Accumulating sweeps *)

Lemma sweep_vinc_length (g : midx -> R) k v :
  length (fold_left (fun v b => vinc v (index_of b) (g b)) (slots_upto k) v) = length v.
Proof. apply fold_vinc_length. Qed.

Lemma sweep_vinc_get P (g : midx -> R) k v i :
  supported P -> (k < tet (S P))%nat -> (i < length v)%nat ->
  vget (fold_left (fun v b => vinc v (index_of b) (g b)) (slots_upto k) v) i =
  vget v i + (if ((1 <=? i) && (i <=? k))%nat then g (unrank i) else 0).
Proof.
  intros HP Hk Hi. rewrite fold_vinc_get by assumption.
  rewrite (filter_slots_upto P) by assumption.
  destruct ((1 <=? i)%nat && (i <=? k)%nat); simpl; lra.
Qed.

Lemma for_loop_vinc_length lo hi (g : nat -> R) (ix : nat -> nat) v :
  length (for_loop lo hi (fun v i => vinc v (ix i) (g i)) v) = length v.
Proof. unfold for_loop. apply fold_vinc_length. Qed.

(** [for (i = lo; i < hi; ++i) v[i] += g i]. *)
Lemma for_loop_each_get lo hi (g : nat -> R) v i :
  (i < length v)%nat ->
  vget (for_loop lo hi (fun v i => vinc v i (g i)) v) i =
  vget v i + (if ((lo <=? i) && (i <? hi))%nat then g i else 0).
Proof.
  intro Hi. unfold for_loop.
  rewrite (fold_vinc_get (fun j => j) g) by assumption.
  rewrite filter_eq_seq.
  destruct (Nat.leb_spec lo i), (Nat.ltb_spec i (lo + (hi - lo))), (Nat.ltb_spec i hi);
    simpl; try lra; lia.
Qed.

(** [for (i = lo; i < hi; ++i) v[0] += g i]. *)
Lemma for_loop_slot0_get lo hi (g : nat -> R) v i :
  (0 < length v)%nat ->
  vget (for_loop lo hi (fun v j => vinc v 0 (g j)) v) i =
  vget v i + (if (i =? 0)%nat then Rsum (seq lo (hi - lo)) g else 0).
Proof.
  intro Hv. unfold for_loop.
  destruct (Nat.lt_ge_cases i (length v)) as [Hi | Hi].
  - rewrite (fold_vinc_get (fun _ => 0%nat) g) by assumption.
    destruct (Nat.eqb_spec i 0) as [-> | Hne].
    + f_equal. f_equal.
      generalize (seq lo (hi - lo)). intro l.
      induction l as [|b l IH]; [reflexivity |].
      simpl. f_equal. exact IH.
    + f_equal. rewrite Rsum_zero; [reflexivity |].
      intros b Hb. apply filter_In in Hb. destruct Hb as [_ Hb].
      apply Nat.eqb_eq in Hb. lia.
  - rewrite fold_vinc_get_out by assumption.
    rewrite vget_overflow by assumption.
    destruct (Nat.eqb_spec i 0); [lia | lra].
Qed.


Lemma dec_deg a : a <> (0, 0, 0)%nat -> S (deg (dec a)) = deg a.
Proof.
  destruct a as [[nx ny] nz]. intro H. unfold dec, deg.
  destruct nz; [destruct ny; [destruct nx |] |]; simpl; try lia. now elim H.
Qed.

Lemma dec_mpow d a :
  a <> (0, 0, 0)%nat -> mpow d a = mpow d (dec a) * pt_at d (axis_of a).
Proof.
  destruct a as [[nx ny] nz], d as [[x y] z]. intro H. unfold dec, mpow, axis_of, pt_at.
  destruct nz; [destruct ny; [destruct nx |] |]; simpl; try ring. now elim H.
Qed.

Lemma mfact_pos a : 0 < mfact a.
Proof.
  destruct a as [[nx ny] nz]. unfold mfact.
  pose proof (INR_fact_lt_0 nx). pose proof (INR_fact_lt_0 ny). pose proof (INR_fact_lt_0 nz).
  apply Rmult_lt_0_compat; [apply Rmult_lt_0_compat |]; assumption.
Qed.

Lemma dec_mfact a :
  a <> (0, 0, 0)%nat -> mfact a = mfact (dec a) * INR (comp_of a).
Proof.
  destruct a as [[nx ny] nz]. intro H. unfold dec, mfact, comp_of.
  destruct nz; [destruct ny; [destruct nx |] |]; try (now elim H).
  all: rewrite fact_simpl, mult_INR; simpl Nat.pred; ring.
Qed.

Lemma comp_of_pos a : a <> (0, 0, 0)%nat -> 0 < INR (comp_of a).
Proof.
  destruct a as [[nx ny] nz]. intro H. unfold comp_of.
  destruct nz; [destruct ny; [destruct nx |] |]; try (now elim H).
  all: apply lt_0_INR; lia.
Qed.

Lemma slot_lt_of_deg a b : (deg a < deg b)%nat -> (slot_of a < slot_of b)%nat.
Proof.
  destruct a as [[ax ay] az], b as [[bx by_] bz]. unfold deg, slot_of. intro H.
  pose proof (slot_bounds ax ay az). pose proof (slot_bounds bx by_ bz).
  pose proof (tet_mono (S (ax + ay + az)) (bx + by_ + bz) ltac:(lia)). lia.
Qed.

Lemma unrank_nonzero k : unrank (S k) <> (0, 0, 0)%nat.
Proof.
  intro H. pose proof (slot_unrank (S k)) as Hs. rewrite H in Hs. discriminate.
Qed.

Lemma deg_unrank_le P k : (k < tet (S P))%nat -> (deg (unrank k) <= P)%nat.
Proof. intro H. apply deg_slot_lt. now rewrite slot_unrank. Qed.

(** The power builder fills the slots [1 .. k] with [C[0] * d^a / a!]. *)
Lemma power_fold_spec P d C k :
  supported P -> (k < tet (S P))%nat -> (k < length C)%nat ->
  let Ck := fold_left (act (power_step d)) (slots_upto k) C in
  length Ck = length C /\
  (forall j, (j <= k)%nat -> vget Ck j = vget C 0 * mpow d (unrank j) / mfact (unrank j)) /\
  (forall j, (k < j)%nat -> vget Ck j = vget C j).
Proof.
  intros HP. induction k as [|k IH]; intros Hk Hl; cbv zeta.
  - simpl. split; [reflexivity |]. split; [| reflexivity].
    intros j Hj. replace j with 0%nat by lia. simpl.
    destruct d as [[x y] z]. simpl. field.
  - specialize (IH ltac:(lia) ltac:(lia)). cbv zeta in IH.
    destruct IH as [IHl [IHv IHo]].
    rewrite slots_upto_succ, fold_left_app.
    set (Ck := fold_left (act (power_step d)) (slots_upto k) C) in *.
    cbn [fold_left].
    pose proof (unrank_nonzero k) as Hne.
    pose proof (deg_unrank_le P (S k) Hk) as Hdeg.
    pose proof (slot_unrank (S k)) as Hslot.
    remember (unrank (S k)) as a eqn:Ea.
    assert (Hact : act (power_step d) Ck a =
                   vset Ck (S k) (vget Ck (slot_of (dec a)) * pt_at d (axis_of a) / INR (comp_of a))).
    { destruct a as [[nx ny] nz]. unfold act, power_step.
      rewrite (index_of_slot P) by assumption.
      rewrite (index_of_slot P (dec (nx, ny, nz))) by
        (try assumption; pose proof (dec_deg _ Hne); lia).
      rewrite Hslot. reflexivity. }
    rewrite Hact.
    assert (Hdl : (slot_of (dec a) <= k)%nat).
    { pose proof (slot_lt_of_deg (dec a) a ltac:(pose proof (dec_deg _ Hne); lia)). lia. }
    split; [rewrite length_vset; assumption |]. split.
    + intros j Hj. destruct (Nat.eq_dec j (S k)) as [-> | Hjk].
      * rewrite vget_vset_eq by lia.
        rewrite (IHv _ Hdl), unrank_slot, <- Ea.
        rewrite (dec_mpow d a Hne), (dec_mfact a Hne).
        pose proof (mfact_pos (dec a)). pose proof (comp_of_pos a Hne).
        field. split; lra.
      * rewrite vget_vset_neq by lia. apply IHv. lia.
    + intros j Hj. rewrite vget_vset_neq by lia. apply IHo. lia.
Qed.

Lemma Terms_power_spec P D d C :
  supported P -> (D <= P)%nat -> (tet (S D) <= length C)%nat ->
  let C' := Terms_power 0 0 D C d in
  length C' = length C /\
  (forall a, (deg a <= D)%nat ->
     vget C' (index_of a) = vget C 0 * mpow d a / mfact a) /\
  (forall j, (tet (S D) <= j)%nat -> vget C' j = vget C j).
Proof.
  intros HP HD Hl. cbv zeta.
  rewrite Terms_power_sweep, sweep_fold, slot_last.
  assert (0 < tet (S D))%nat by (rewrite tet_succ; lia).
  pose proof (tet_mono (S D) (S P) ltac:(lia)).
  destruct (power_fold_spec P d C (tet (S D) - 1) HP ltac:(lia) ltac:(lia)) as [H1 [H2 H3]].
  split; [assumption |]. split.
  - intros a Ha. rewrite (index_of_slot P) by (try assumption; lia).
    rewrite H2, unrank_slot; [reflexivity |].
    pose proof (proj2 (slot_lt_tet_iff a D) Ha). lia.
  - intros j Hj. apply H3. lia.
Qed.


(** ** Slots and multi-indices of an expansion *)

Lemma tet_pos n : (0 < tet (S n))%nat.
Proof. rewrite tet_succ. lia. Qed.

Lemma index_of_unrank P k : supported P -> (k < tet (S P))%nat -> index_of (unrank k) = k.
Proof.
  intros HP Hk. rewrite (index_of_slot P); [apply slot_unrank | assumption |].
  now apply deg_unrank_le.
Qed.

Lemma index_of_lt P D a :
  supported P -> (D <= P)%nat -> (deg a <= D)%nat -> (index_of a < tet (S D))%nat.
Proof.
  intros HP HD Ha. rewrite (index_of_slot P) by (try assumption; lia).
  now apply slot_lt_tet_iff.
Qed.

(** A slot that is the index of no multi-index of degree at most [D] lies
    beyond the [tet (S D)] slots of the expansion. *)
Lemma not_index_overflow P D i :
  supported P -> (D <= P)%nat ->
  (forall a, (deg a <= D)%nat -> index_of a <> i) -> (tet (S D) <= i)%nat.
Proof.
  intros HP HD H. destruct (Nat.le_gt_cases (tet (S D)) i) as [Hle | Hgt]; [assumption |].
  exfalso. apply (H (unrank i)).
  - now apply deg_unrank_le.
  - apply (index_of_unrank P); [assumption |].
    pose proof (tet_mono (S D) (S P) ltac:(lia)). lia.
Qed.

Lemma index_of_zero : index_of (0, 0, 0)%nat = 0%nat.
Proof. reflexivity. Qed.

Lemma index_of_pos P a :
  supported P -> (deg a <= P)%nat -> a <> (0, 0, 0)%nat -> (1 <= index_of a)%nat.
Proof.
  intros HP Ha Hne. rewrite (index_of_slot P) by assumption.
  destruct (Nat.eq_dec (slot_of a) 0) as [E | E]; [| lia].
  apply slot_zero_iff in E. contradiction.
Qed.

(** The tableau of the power builder seeded with [c0]. *)
Definition power_tableau (N D : nat) (c0 : R) (d : point) : Vec :=
  Terms_power 0 0 D (vset (vzero N) 0 c0) d.

Lemma power_tableau_spec P D N c0 d :
  supported P -> (D <= P)%nat -> (tet (S D) <= N)%nat ->
  length (power_tableau N D c0 d) = N /\
  (forall a, (deg a <= D)%nat ->
     vget (power_tableau N D c0 d) (index_of a) = c0 * mpow d a / mfact a).
Proof.
  intros HP HD HN. unfold power_tableau.
  pose proof (tet_pos D).
  destruct (Terms_power_spec P D d (vset (vzero N) 0 c0) HP HD) as [H1 [H2 _]].
  { rewrite length_vset, length_vzero. assumption. }
  cbv zeta in H1, H2. rewrite length_vset, length_vzero in H1.
  split; [assumption |]. intros a Ha. rewrite (H2 a Ha).
  rewrite vget_vset_eq by (rewrite length_vzero; lia). reflexivity.
Qed.

(** ** P2M *)

Lemma P2M_unfold P source charge center M :
  P2M P source charge center M =
  vadd M (power_tableau (MTERM P) (P - 1) charge (pt_sub center source)).
Proof. reflexivity. Qed.

Lemma P2M_get P source charge center M a :
  (1 <= P)%nat -> supported P -> length M = MTERM P -> (deg a <= P - 1)%nat ->
  vget (P2M P source charge center M) (index_of a) =
  vget M (index_of a) + charge * mpow (pt_sub center source) a / mfact a.
Proof.
  intros H1 HP HM Ha. rewrite P2M_unfold.
  rewrite (MTERM_tet P HP) in *.
  destruct (power_tableau_spec P (P - 1) (tet P) charge (pt_sub center source) HP)
    as [Hl Hv]; [lia | replace (S (P - 1)) with P by lia; lia |].
  rewrite vget_vadd_same by congruence.
  rewrite Hv by assumption. reflexivity.
Qed.

Lemma P2M_length P source charge center M :
  length (P2M P source charge center M) = length M.
Proof. rewrite P2M_unfold. apply length_vadd. Qed.

(** ** M2M *)

Definition Upward_term (C MJ : Vec) (b : midx) : R :=
  let '(nx, ny, nz) := b in M2MSum_kernel nx ny nz nx ny nz C MJ.

Lemma M2M_unfold P Msource Mtarget translation :
  M2M P Msource Mtarget translation =
  let C := power_tableau (MTERM P) (P - 1) 1 translation in
  fold_left (fun v b => vinc v (index_of b) (Upward_term C Msource b))
    (slots_upto (slot 0 0 (P - 1)))
    (for_loop 0 (MTERM P) (fun Mt i => vinc Mt i (vget C i * vget Msource 0)) Mtarget).
Proof.
  unfold M2M. cbv zeta. rewrite Upward_M2M_sweep, sweep_fold.
  apply fold_left_ext. intros v [[nx ny] nz]. reflexivity.
Qed.

Lemma M2M_length P Msource Mtarget translation :
  length (M2M P Msource Mtarget translation) = length Mtarget.
Proof.
  rewrite M2M_unfold. cbv zeta. rewrite fold_vinc_length.
  apply for_loop_vinc_length.
Qed.

Lemma M2M_get P Msource Mtarget translation a :
  (1 <= P)%nat -> supported P -> length Mtarget = MTERM P -> (deg a < P)%nat ->
  let C := power_tableau (MTERM P) (P - 1) 1 translation in
  vget (M2M P Msource Mtarget translation) (index_of a) =
  vget Mtarget (index_of a)
  + Rsum (below a) (fun b => vget C (index_of (msub a b)) * vget Msource (index_of b)).
Proof.
  intros H1 HP HM Ha. cbv zeta. rewrite M2M_unfold. cbv zeta.
  set (C := power_tableau (MTERM P) (P - 1) 1 translation).
  rewrite (MTERM_tet P HP) in *.
  pose proof (index_of_lt P (P - 1) a HP ltac:(lia) ltac:(lia)) as Hi.
  replace (S (P - 1)) with P in Hi by lia.
  pose proof (tet_mono P (S P) ltac:(lia)) as Hmono.
  rewrite (sweep_vinc_get P) by
    first [assumption
          | rewrite slot_last; replace (S (P - 1)) with P by lia; lia
          | rewrite for_loop_vinc_length; lia].
  rewrite for_loop_each_get by lia.
  rewrite slot_last. replace (S (P - 1)) with P by lia.
  destruct (Nat.leb_spec 0 (index_of a)); [| lia].
  destruct (Nat.ltb_spec (index_of a) (tet P)); [| lia]. cbn [andb].
  destruct a as [[nx ny] nz].
  rewrite <- M2MSum_kernel_sum. fold C. cbn [index_of].
  destruct (Nat.leb_spec 1 (Index_I nx ny nz)) as [Hpos | Hzero].
  - destruct (Nat.leb_spec (Index_I nx ny nz) (tet P - 1)); [| cbn [index_of] in Hi; lia].
    cbn [andb].
    pose proof (index_of_slot P (nx, ny, nz) HP ltac:(lia)) as Es. cbn [index_of slot_of] in Es.
    rewrite Es. change (slot nx ny nz) with (slot_of (nx, ny, nz)).
    rewrite unrank_slot. cbn [Upward_term]. lra.
  - cbn [andb].
    assert (E0 : (nx, ny, nz) = (0, 0, 0)%nat).
    { apply slot_zero_iff.
      pose proof (index_of_slot P (nx, ny, nz) HP ltac:(lia)) as Es. cbn [index_of] in Es.
      lia. }
    inversion E0; subst. simp M2MSum_kernel. lra.
Qed.


(** ** Multi-indices above a given one *)

Definition mgeq (b a : midx) : bool :=
  let '(bx, by_, bz) := b in
  let '(ax, ay, az) := a in
  ((ax <=? bx) && (ay <=? by_) && (az <=? bz))%nat.

Definition meqb (b a : midx) : bool :=
  let '(bx, by_, bz) := b in
  let '(ax, ay, az) := a in
  ((ax =? bx) && (ay =? by_) && (az =? bz))%nat.

(** The multi-indices [b] with [|b| <= P], [b >= a] componentwise and
    [b <> a]. *)
Definition above (P : nat) (a : midx) : list midx :=
  filter (fun b => mgeq b a && negb (meqb b a)) (box_upto P).

Lemma meqb_spec b a : meqb b a = true <-> b = a.
Proof.
  destruct b as [[bx by_] bz], a as [[ax ay] az]. unfold meqb.
  rewrite !andb_true_iff, !Nat.eqb_eq. split.
  - intros [[? ?] ?]. subst. reflexivity.
  - intro E. inversion E. auto.
Qed.

Lemma In_above P a b :
  In b (above P a) <-> (deg b <= P)%nat /\ mgeq b a = true /\ b <> a.
Proof.
  unfold above. rewrite filter_In, In_box_upto, andb_true_iff, negb_true_iff.
  pose proof (meqb_spec b a). destruct (meqb b a); intuition congruence.
Qed.

Lemma madd_msub a b : mgeq b a = true -> madd a (msub b a) = b.
Proof.
  destruct b as [[bx by_] bz], a as [[ax ay] az]. unfold mgeq, madd, msub.
  rewrite !andb_true_iff, !Nat.leb_le. intros [[? ?] ?]. repeat f_equal; lia.
Qed.

Lemma msub_madd a c : msub (madd a c) a = c.
Proof.
  destruct c as [[cx cy] cz], a as [[ax ay] az]. unfold madd, msub.
  repeat f_equal; lia.
Qed.

Lemma deg_madd a c : deg (madd a c) = (deg a + deg c)%nat.
Proof.
  destruct c as [[cx cy] cz], a as [[ax ay] az]. unfold madd, deg. lia.
Qed.

Lemma mgeq_madd a c : mgeq (madd a c) a = true.
Proof.
  destruct c as [[cx cy] cz], a as [[ax ay] az]. unfold madd, mgeq.
  rewrite !andb_true_iff, !Nat.leb_le. lia.
Qed.

Lemma above_perm P a :
  (deg a <= P)%nat ->
  Permutation (map (madd a) (midx_1_upto (P - deg a))) (above P a).
Proof.
  intro Ha. apply NoDup_Permutation.
  - apply Finite.Injective_map_NoDup.
    + intros c c' E. rewrite <- (msub_madd a c), <- (msub_madd a c'). now f_equal.
    + apply NoDup_filter, NoDup_box_upto.
  - apply NoDup_filter, NoDup_box_upto.
  - intro b. rewrite in_map_iff, In_above. split.
    + intros [c [E Hc]]. apply In_midx_1_upto in Hc. subst b.
      rewrite deg_madd, mgeq_madd. split; [lia |]. split; [reflexivity |].
      intro E. assert (Hd : deg (madd a c) = deg a) by now rewrite E.
      rewrite deg_madd in Hd. lia.
    + intros [Hb [Hg Hne]]. exists (msub b a). split; [now apply madd_msub |].
      apply In_midx_1_upto.
      pose proof (madd_msub a b Hg) as E.
      assert (Hd : deg b = (deg a + deg (msub b a))%nat) by (rewrite <- deg_madd; now f_equal).
      split; [| lia].
      destruct (Nat.eq_dec (deg (msub b a)) 0) as [E0 | E0]; [| lia].
      apply deg_zero_iff in E0. rewrite E0 in E.
      exfalso. apply Hne. rewrite <- E.
      destruct a as [[ax ay] az]. unfold madd. repeat f_equal; lia.
Qed.

Lemma Rsum_above P a (f : midx -> midx -> R) :
  (deg a <= P)%nat ->
  Rsum (above P a) (fun b => f (msub b a) b) =
  Rsum (midx_1_upto (P - deg a)) (fun c => f c (madd a c)).
Proof.
  intro Ha. rewrite <- (Rsum_perm _ _ _ (above_perm P a Ha)).
  rewrite Rsum_map. apply Rsum_ext. intros c _. now rewrite msub_madd.
Qed.

(** The loop over the slots [1 .. N-1] as a sum over multi-indices. *)
Lemma Rsum_slots P D (g : nat -> R) :
  supported P -> (D <= P)%nat ->
  Rsum (seq 1 (tet (S D) - 1)) g = Rsum (midx_1_upto D) (fun b => g (index_of b)).
Proof.
  intros HP HD. rewrite <- (Rsum_perm _ _ _ (slots_upto_perm D)).
  unfold slots_upto. rewrite Rsum_map, slot_last.
  apply Rsum_ext. intros j Hj. apply in_seq in Hj.
  rewrite (index_of_unrank P); [reflexivity | assumption |].
  pose proof (tet_mono (S D) (S P) ltac:(lia)). lia.
Qed.

(** ** L2L *)

Definition Local_term (P : nat) (C LJ : Vec) (b : midx) : R :=
  let '(nx, ny, nz) := b in LocalSum_kernel nx ny nz 0 0 (P - nx - ny - nz) C LJ.

Lemma Local_term_sum P C LJ b :
  Local_term P C LJ b =
  Rsum (midx_1_upto (P - deg b))
       (fun c => vget C (index_of c) * vget LJ (index_of (madd b c))).
Proof.
  destruct b as [[nx ny] nz]. unfold Local_term. rewrite LocalSum_kernel_sum.
  unfold deg. replace (P - nx - ny - nz)%nat with (P - (nx + ny + nz))%nat by lia.
  reflexivity.
Qed.

Lemma L2L_unfold P Lsource Ltarget translation :
  L2L P Lsource Ltarget translation =
  let C := power_tableau (LTERM P) P 1 translation in
  fold_left (fun v b => vinc v (index_of b) (Local_term P C Lsource b))
    (slots_upto (slot 0 0 (P - 1)))
    (for_loop 1 (LTERM P) (fun Lt i => vinc Lt 0 (vget C i * vget Lsource i))
       (vadd Ltarget Lsource)).
Proof.
  unfold L2L. cbv zeta. rewrite Downward_L2L_sweep, sweep_fold.
  apply fold_left_ext. intros v [[nx ny] nz]. reflexivity.
Qed.

Lemma L2L_length P Lsource Ltarget translation :
  length (L2L P Lsource Ltarget translation) = length Ltarget.
Proof.
  rewrite L2L_unfold. cbv zeta. rewrite fold_vinc_length, for_loop_vinc_length.
  apply length_vadd.
Qed.

Lemma midx_1_upto_0 : midx_1_upto 0 = [].
Proof. reflexivity. Qed.

Lemma L2L_get P Lsource Ltarget translation a :
  (1 <= P)%nat -> supported P ->
  length Ltarget = LTERM P -> length Lsource = LTERM P -> (deg a <= P)%nat ->
  let C := power_tableau (LTERM P) P 1 translation in
  vget (L2L P Lsource Ltarget translation) (index_of a) =
  vget Ltarget (index_of a) + vget Lsource (index_of a)
  + Rsum (midx_1_upto (P - deg a))
         (fun c => vget C (index_of c) * vget Lsource (index_of (madd a c))).
Proof.
  intros H1 HP HLt HLs Ha. cbv zeta. rewrite L2L_unfold. cbv zeta.
  set (C := power_tableau (LTERM P) P 1 translation).
  rewrite (LTERM_tet P HP) in *.
  pose proof (index_of_lt P P a HP ltac:(lia) Ha) as Hi.
  pose proof (tet_pos P) as Hpos.
  pose proof (tet_mono P (S P) ltac:(lia)) as Hmono.
  assert (HP1 : S (P - 1) = P) by lia.
  rewrite (sweep_vinc_get P) by
    first [assumption
          | rewrite slot_last, HP1; lia
          | rewrite for_loop_vinc_length, length_vadd; lia].
  rewrite for_loop_slot0_get by (rewrite length_vadd; lia).
  rewrite vget_vadd_same by congruence.
  rewrite slot_last, HP1.
  destruct (Nat.eqb_spec (index_of a) 0) as [E0 | E0].
  - assert (Ea : a = (0, 0, 0)%nat).
    { apply slot_zero_iff. rewrite <- (index_of_slot P a HP Ha). assumption. }
    subst a. rewrite E0. cbn [Nat.leb andb deg Nat.add].
    rewrite Nat.sub_0_r.
    rewrite (Rsum_slots P P) by (try assumption; lia).
    rewrite Rplus_0_r. f_equal. apply Rsum_ext. intros c _.
    destruct c as [[cx cy] cz]. reflexivity.
  - destruct (Nat.leb_spec 1 (index_of a)); [| lia]. cbn [andb].
    rewrite Rplus_0_r.
    destruct (Nat.leb_spec (index_of a) (tet P - 1)) as [Hin | Hout].
    + rewrite (index_of_slot P a HP Ha), unrank_slot, Local_term_sum. reflexivity.
    + assert (Hd : deg a = P).
      { destruct (Nat.eq_dec (deg a) P) as [E | E]; [assumption |].
        pose proof (index_of_lt P (P - 1) a HP ltac:(lia) ltac:(lia)) as Hlt.
        rewrite HP1 in Hlt. lia. }
      rewrite Hd, Nat.sub_diag, midx_1_upto_0. reflexivity.
Qed.


(** ** Closed form of [DerivativeSum] *)

(** The defining equations of [DerivativeSum_loop], one per specialisation
    of the source. *)
Lemma DerivativeSum_loop_0 nx ny nz kx ky kz C dist :
  DerivativeSum_loop nx ny nz kx ky kz 0 C dist = 0.
Proof. destruct kx, ky, kz; simp DerivativeSum_loop; reflexivity. Qed.

Lemma DerivativeSum_loop_1 nx ny nz kx' ky kz C dist :
  DerivativeSum_loop nx ny nz (S kx') ky kz 1 C dist =
  DerivativeSum_loop nx ny nz kx' ny nz
    (1 - Nat.b2n ((S kx' <? nx)%nat || (S kx' =? 1)%nat)) C dist
  + DerivativeTerm_kernel (nx + ny + nz) kx' ny nz
      (if (Z.of_nat (S kx') =? Z.of_nat nx - 1)%Z then (-1)%Z else 0%Z) C dist.
Proof. destruct ky, kz; simp DerivativeSum_loop; reflexivity. Qed.

Lemma DerivativeSum_loop_2 nx ny nz kx ky kz C dist :
  DerivativeSum_loop nx ny nz kx ky kz 2 C dist =
  DerivativeSum_loop nx ny nz nx ny nz (1 - Nat.b2n (nx =? 0)%nat) C dist.
Proof. destruct kx, ky, kz; simp DerivativeSum_loop; reflexivity. Qed.

Lemma DerivativeSum_loop_3 nx ny nz kx ky' kz C dist :
  DerivativeSum_loop nx ny nz kx (S ky') kz 3 C dist =
  DerivativeSum_loop nx ny nz nx ky' nz
    (3 - Nat.b2n ((S ky' <? ny)%nat || (S ky' =? 1)%nat)) C dist
  + DerivativeTerm_kernel (nx + ny + nz) nx ky' nz
      (if (Z.of_nat (S ky') =? Z.of_nat ny - 1)%Z then (-1)%Z else 1%Z) C dist.
Proof. destruct kx, kz; simp DerivativeSum_loop; reflexivity. Qed.

Lemma DerivativeSum_loop_4 nx ny nz kx ky kz C dist :
  DerivativeSum_loop nx ny nz kx ky kz 4 C dist =
  DerivativeSum_loop nx ny nz nx ny nz (3 - Nat.b2n (ny =? 0)%nat) C dist.
Proof. destruct kx, ky, kz; simp DerivativeSum_loop; reflexivity. Qed.

Lemma DerivativeSum_loop_5_0 nx ny nz kx ky C dist :
  DerivativeSum_loop nx ny nz kx ky 0 5 C dist =
  DerivativeSum_loop nx ny nz nx ny 0 4 C dist.
Proof. destruct kx, ky; simp DerivativeSum_loop; reflexivity. Qed.

Lemma DerivativeSum_loop_5_S nx ny nz kx ky kz' C dist :
  DerivativeSum_loop nx ny nz kx ky (S kz') 5 C dist =
  DerivativeSum_loop nx ny nz nx ny kz'
    (5 - Nat.b2n ((S kz' <? nz)%nat || (S kz' =? 1)%nat)) C dist
  + DerivativeTerm_kernel (nx + ny + nz) nx ny kz'
      (if (Z.of_nat (S kz') =? Z.of_nat nz - 1)%Z then (-1)%Z else 2%Z) C dist.
Proof. destruct kx, ky; simp DerivativeSum_loop; reflexivity. Qed.

(** The contribution of one axis with component [k]: the far term
    [(1 - 2n) * d_a * C[a - e_a]] when [k >= 1] and the near term
    [(1 - n) * C[a - 2 e_a]] when [k >= 2]. *)
Definition axis_part (n k : nat) (da far near : R) : R :=
  match k with
  | 0%nat => 0
  | 1%nat => IZR (1 - 2 * Z.of_nat n) * da * far
  | _ => IZR (1 - Z.of_nat n) * near + IZR (1 - 2 * Z.of_nat n) * da * far
  end.

Ltac kill_tests :=
  repeat match goal with
    | |- context [(?a <? ?b)%nat] =>
        destruct (Nat.ltb_spec a b); try (exfalso; lia)
    | |- context [(?a =? ?b)%nat] =>
        destruct (Nat.eqb_spec a b); try (exfalso; lia)
    | |- context [(?a =? ?b)%Z] =>
        destruct (Z.eqb_spec a b); try (exfalso; lia)
    end.

Ltac ds_step :=
  rewrite ?DerivativeSum_loop_0, ?DerivativeSum_loop_1, ?DerivativeSum_loop_2,
    ?DerivativeSum_loop_3, ?DerivativeSum_loop_4, ?DerivativeSum_loop_5_0,
    ?DerivativeSum_loop_5_S;
  kill_tests; cbn [Nat.b2n orb Nat.sub].

Lemma DerivativeSum_flag2 nx ny nz kx ky kz C dist :
  DerivativeSum_loop nx ny nz kx ky kz 2 C dist =
  axis_part (nx + ny + nz) nx (pt_at dist 0)
    (vget C (Index_I (nx - 1) ny nz)) (vget C (Index_I (nx - 2) ny nz)).
Proof.
  destruct nx as [|[|nx]]; repeat ds_step; unfold DerivativeTerm_kernel; kill_tests;
    change (Z.to_nat 0) with 0%nat; change (Z.to_nat 1) with 1%nat;
    change (Z.to_nat 2) with 2%nat;
    cbn [axis_part Nat.sub]; rewrite ?Nat.sub_0_r; ring.
Qed.

Lemma DerivativeSum_flag4 nx ny nz kx ky kz C dist :
  DerivativeSum_loop nx ny nz kx ky kz 4 C dist =
  axis_part (nx + ny + nz) ny (pt_at dist 1)
    (vget C (Index_I nx (ny - 1) nz)) (vget C (Index_I nx (ny - 2) nz))
  + axis_part (nx + ny + nz) nx (pt_at dist 0)
      (vget C (Index_I (nx - 1) ny nz)) (vget C (Index_I (nx - 2) ny nz)).
Proof.
  rewrite DerivativeSum_loop_4.
  destruct ny as [|[|ny]]; kill_tests; cbn [Nat.b2n Nat.sub];
    rewrite ?DerivativeSum_loop_3; kill_tests; cbn [Nat.b2n orb Nat.sub];
    rewrite ?DerivativeSum_loop_3; kill_tests; cbn [Nat.b2n orb Nat.sub];
    rewrite DerivativeSum_flag2;
    unfold DerivativeTerm_kernel; kill_tests;
    change (Z.to_nat 0) with 0%nat; change (Z.to_nat 1) with 1%nat;
    change (Z.to_nat 2) with 2%nat;
    cbn [axis_part Nat.sub]; rewrite ?Nat.sub_0_r; ring.
Qed.

(** [DerivativeSum<nx,ny,nz>::loop(C, dist)]. *)
Lemma DerivativeSum_loop_closed nx ny nz C dist :
  DerivativeSum_loop nx ny nz nx ny nz 5 C dist =
  axis_part (nx + ny + nz) nz (pt_at dist 2)
    (vget C (Index_I nx ny (nz - 1))) (vget C (Index_I nx ny (nz - 2)))
  + axis_part (nx + ny + nz) ny (pt_at dist 1)
      (vget C (Index_I nx (ny - 1) nz)) (vget C (Index_I nx (ny - 2) nz))
  + axis_part (nx + ny + nz) nx (pt_at dist 0)
      (vget C (Index_I (nx - 1) ny nz)) (vget C (Index_I (nx - 2) ny nz)).
Proof.
  destruct nz as [|[|nz]];
    rewrite ?DerivativeSum_loop_5_0, ?DerivativeSum_loop_5_S;
    kill_tests; cbn [Nat.b2n orb Nat.sub];
    rewrite ?DerivativeSum_loop_5_0, ?DerivativeSum_loop_5_S;
    kill_tests; cbn [Nat.b2n orb Nat.sub];
    rewrite DerivativeSum_flag4;
    unfold DerivativeTerm_kernel; kill_tests;
    change (Z.to_nat 0) with 0%nat; change (Z.to_nat 1) with 1%nat;
    change (Z.to_nat 2) with 2%nat;
    cbn [axis_part Nat.sub]; rewrite ?Nat.sub_0_r; ring.
Qed.


(** ** Sweeps that write each slot once *)

(** A sweep that writes [F b v] into slot [I(b)], where [F b v] reads only
    slots below [I(b)]: every slot written keeps the value computed for it,
    and that value is [F b] of the final vector. *)
Lemma triangular_fold P (F : midx -> Vec -> R) C k :
  supported P -> (k < tet (S P))%nat -> (k < length C)%nat ->
  (forall b C1 C2, (1 <= deg b <= P)%nat ->
     (forall j, (j < slot_of b)%nat -> vget C1 j = vget C2 j) -> F b C1 = F b C2) ->
  let Ck := fold_left (fun v b => vset v (index_of b) (F b v)) (slots_upto k) C in
  length Ck = length C /\
  vget Ck 0 = vget C 0 /\
  (forall j, (1 <= j <= k)%nat -> vget Ck j = F (unrank j) Ck) /\
  (forall j, (k < j)%nat -> vget Ck j = vget C j).
Proof.
  intros HP. induction k as [|k IH]; intros Hk Hl Hloc; cbv zeta.
  - simpl. repeat split; try reflexivity. intros j Hj. lia.
  - specialize (IH ltac:(lia) ltac:(lia) Hloc). cbv zeta in IH.
    destruct IH as [IHl [IH0 [IHv IHo]]].
    rewrite slots_upto_succ, fold_left_app.
    set (Ck := fold_left (fun v b => vset v (index_of b) (F b v)) (slots_upto k) C) in *.
    cbn [fold_left].
    rewrite (index_of_unrank P (S k) HP Hk).
    assert (Hd : forall j, (1 <= j <= S k)%nat -> (1 <= deg (unrank j) <= P)%nat).
    { intros j Hj. split.
      - destruct (Nat.eq_dec (deg (unrank j)) 0) as [E | E]; [| lia].
        apply deg_zero_iff in E. pose proof (slot_unrank j) as Hs. rewrite E in Hs.
        compute in Hs. lia.
      - apply deg_unrank_le. lia. }
    split; [rewrite length_vset; assumption |].
    split; [rewrite vget_vset_neq by lia; assumption |].
    split.
    + intros j Hj.
      assert (Hsame : F (unrank j) (vset Ck (S k) (F (unrank (S k)) Ck)) = F (unrank j) Ck).
      { apply Hloc; [apply Hd; lia |]. intros i Hi. rewrite slot_unrank in Hi.
        apply vget_vset_neq. lia. }
      rewrite Hsame.
      destruct (Nat.eq_dec j (S k)) as [-> | Hjk].
      * apply vget_vset_eq. lia.
      * rewrite vget_vset_neq by lia. apply IHv. lia.
    + intros j Hj. rewrite vget_vset_neq by lia. apply IHo. lia.
Qed.

(** A sweep that rewrites slot [I(b)] from its own value. *)
Lemma pointwise_fold P (h : midx -> R -> R) C k :
  supported P -> (k < tet (S P))%nat -> (k < length C)%nat ->
  let Ck := fold_left (fun v b => vset v (index_of b) (h b (vget v (index_of b))))
              (slots_upto k) C in
  length Ck = length C /\
  (forall j, (1 <= j <= k)%nat -> vget Ck j = h (unrank j) (vget C j)) /\
  (forall j, (j = 0 \/ k < j)%nat -> vget Ck j = vget C j).
Proof.
  intros HP. induction k as [|k IH]; intros Hk Hl; cbv zeta.
  - simpl. repeat split; try reflexivity. intros j Hj. lia.
  - specialize (IH ltac:(lia) ltac:(lia)). cbv zeta in IH.
    destruct IH as [IHl [IHv IHo]].
    rewrite slots_upto_succ, fold_left_app.
    set (Ck := fold_left (fun v b => vset v (index_of b) (h b (vget v (index_of b))))
                 (slots_upto k) C) in *.
    cbn [fold_left].
    rewrite (index_of_unrank P (S k) HP Hk).
    split; [rewrite length_vset; assumption |].
    split.
    + intros j Hj. destruct (Nat.eq_dec j (S k)) as [-> | Hjk].
      * rewrite vget_vset_eq by lia. rewrite IHo by lia. reflexivity.
      * rewrite vget_vset_neq by lia. apply IHv. lia.
    + intros j Hj. rewrite vget_vset_neq by lia. apply IHo. lia.
Qed.

(** ** The derivative builder *)

(** The chain recursion of Phase A, read on a vector [C]: the value of
    slot [I(a)] from the slots one and two steps down each axis. *)
Definition chain_rhs (C : Vec) (dist : point) (invR2 : R) (a : midx) : R :=
  let '(nx, ny, nz) := a in
  let n := (nx + ny + nz)%nat in
  (axis_part n nz (pt_at dist 2)
     (vget C (Index_I nx ny (nz - 1))) (vget C (Index_I nx ny (nz - 2)))
   + axis_part n ny (pt_at dist 1)
       (vget C (Index_I nx (ny - 1) nz)) (vget C (Index_I nx (ny - 2) nz))
   + axis_part n nx (pt_at dist 0)
       (vget C (Index_I (nx - 1) ny nz)) (vget C (Index_I (nx - 2) ny nz)))
  / INR n * invR2.

Lemma axis_part_local n k da far near far' near' :
  ((1 <= k)%nat -> far = far') -> ((2 <= k)%nat -> near = near') ->
  axis_part n k da far near = axis_part n k da far' near'.
Proof.
  intros Hf Hn. destruct k as [|[|k]]; simpl; [reflexivity | |].
  - rewrite Hf by lia. reflexivity.
  - rewrite Hf, Hn by lia. reflexivity.
Qed.

Lemma chain_rhs_local P C1 C2 dist invR2 b :
  supported P -> (1 <= deg b <= P)%nat ->
  (forall j, (j < slot_of b)%nat -> vget C1 j = vget C2 j) ->
  chain_rhs C1 dist invR2 b = chain_rhs C2 dist invR2 b.
Proof.
  intros HP Hb H. destruct b as [[nx ny] nz]. unfold chain_rhs. cbn [deg] in Hb.
  assert (Hlow : forall x y z, (x + y + z < nx + ny + nz)%nat ->
             vget C1 (Index_I x y z) = vget C2 (Index_I x y z)).
  { intros x y z Hd. rewrite (Index_I_slot P) by (try assumption; lia).
    apply H. apply (slot_lt_of_deg (x, y, z) (nx, ny, nz)). exact Hd. }
  f_equal. f_equal. f_equal; [f_equal |].
  all: apply axis_part_local; intro; apply Hlow; lia.
Qed.

Lemma Terms_derivative_spec P C dist invR2 :
  supported P -> (tet (S P) <= length C)%nat ->
  let C' := Terms_derivative 0 0 P C dist invR2 in
  length C' = length C /\
  vget C' 0 = vget C 0 /\
  (forall a, (1 <= deg a <= P)%nat -> vget C' (index_of a) = chain_rhs C' dist invR2 a) /\
  (forall j, (tet (S P) <= j)%nat -> vget C' j = vget C j).
Proof.
  intros HP Hl. cbv zeta.
  rewrite Terms_derivative_sweep, sweep_fold, slot_last.
  rewrite (fold_left_ext _ (fun v b => vset v (index_of b) (chain_rhs v dist invR2 b)))
    by (intros v [[nx ny] nz]; unfold act; rewrite derivative_step_eq,
          DerivativeSum_loop_closed; reflexivity).
  pose proof (tet_pos P).
  destruct (triangular_fold P (fun b v => chain_rhs v dist invR2 b) C (tet (S P) - 1) HP
              ltac:(lia) ltac:(lia)) as [H1 [H2 [H3 H4]]].
  { intros b C1 C2 Hb Hj. now apply (chain_rhs_local P). }
  split; [assumption |]. split; [assumption |]. split.
  - intros a Ha. rewrite (index_of_slot P) by (try assumption; lia).
    rewrite H3, unrank_slot; [reflexivity |].
    pose proof (proj2 (slot_lt_tet_iff a P) ltac:(lia)).
    destruct (Nat.eq_dec (slot_of a) 0) as [E | E]; [| lia].
    apply slot_zero_iff in E. subst a. simpl in Ha. lia.
  - intros j Hj. apply H4. lia.
Qed.

Lemma Terms_scale_spec P C :
  supported P -> (tet (S P) <= length C)%nat ->
  let C' := Terms_scale 0 0 P C in
  length C' = length C /\
  vget C' 0 = vget C 0 /\
  (forall a, (1 <= deg a <= P)%nat ->
     vget C' (index_of a) =
     vget C (index_of a) * (let '(nx, ny, nz) := a in Index_F nx ny nz)) /\
  (forall j, (tet (S P) <= j)%nat -> vget C' j = vget C j).
Proof.
  intros HP Hl. cbv zeta.
  rewrite Terms_scale_sweep, sweep_fold, slot_last.
  rewrite (fold_left_ext _
             (fun v b => vset v (index_of b)
                (vget v (index_of b) * (let '(nx, ny, nz) := b in Index_F nx ny nz))))
    by (intros v [[nx ny] nz]; reflexivity).
  pose proof (tet_pos P).
  destruct (pointwise_fold P (fun b x => x * (let '(nx, ny, nz) := b in Index_F nx ny nz))
              C (tet (S P) - 1) HP ltac:(lia) ltac:(lia)) as [H1 [H2 H3]].
  split; [assumption |]. split; [apply H3; now left |]. split.
  - intros a Ha. rewrite (index_of_slot P) by (try assumption; lia).
    rewrite H2, unrank_slot; [reflexivity |].
    pose proof (proj2 (slot_lt_tet_iff a P) ltac:(lia)).
    destruct (Nat.eq_dec (slot_of a) 0) as [E | E]; [| lia].
    apply slot_zero_iff in E. subst a. simpl in Ha. lia.
  - intros j Hj. apply H3. right. lia.
Qed.


(** ** [getCoef] *)

Definition Index_F_of (a : midx) : R :=
  let '(nx, ny, nz) := a in Index_F nx ny nz.

(** The vector after Phase A of [getCoef]. *)
Definition phaseA (P : nat) (C : Vec) (dist : point) (invR2 invR : R) : Vec :=
  Terms_derivative 0 0 P (vset C 0 invR) dist invR2.

Lemma getCoef_phases P C dist invR2 invR :
  getCoef P C dist invR2 invR = Terms_scale 0 0 P (phaseA P C dist invR2 invR).
Proof. reflexivity. Qed.

Lemma phaseA_spec P C dist invR2 invR :
  supported P -> (tet (S P) <= length C)%nat ->
  let A := phaseA P C dist invR2 invR in
  length A = length C /\
  vget A 0 = invR /\
  (forall a, (1 <= deg a <= P)%nat -> vget A (index_of a) = chain_rhs A dist invR2 a) /\
  (forall j, (tet (S P) <= j)%nat -> vget A j = vget C j).
Proof.
  intros HP Hl. cbv zeta. unfold phaseA.
  pose proof (tet_pos P).
  destruct (Terms_derivative_spec P (vset C 0 invR) dist invR2 HP) as [H1 [H2 [H3 H4]]].
  { rewrite length_vset. assumption. }
  cbv zeta in *. rewrite length_vset in H1.
  split; [assumption |].
  split; [rewrite H2; apply vget_vset_eq; lia |].
  split; [assumption |].
  intros j Hj. rewrite H4 by assumption. apply vget_vset_neq. lia.
Qed.

Lemma getCoef_spec P C dist invR2 invR :
  supported P -> (tet (S P) <= length C)%nat ->
  let A := phaseA P C dist invR2 invR in
  let C' := getCoef P C dist invR2 invR in
  length C' = length C /\
  vget C' 0 = invR /\
  (forall a, (1 <= deg a <= P)%nat ->
     vget C' (index_of a) = vget A (index_of a) * Index_F_of a) /\
  (forall j, (tet (S P) <= j)%nat -> vget C' j = vget C j).
Proof.
  intros HP Hl. cbv zeta. rewrite getCoef_phases.
  destruct (phaseA_spec P C dist invR2 invR HP Hl) as [A1 [A2 [A3 A4]]]. cbv zeta in *.
  destruct (Terms_scale_spec P (phaseA P C dist invR2 invR) HP) as [H1 [H2 [H3 H4]]].
  { rewrite A1. assumption. }
  cbv zeta in *.
  split; [congruence |]. split; [congruence |]. split; [exact H3 |].
  intros j Hj. rewrite H4, A4 by assumption. reflexivity.
Qed.

Lemma axis_part_zero n k da : axis_part n k da 0 0 = 0.
Proof. destruct k as [|[|k]]; simpl; ring. Qed.

(** Phase A is linear in its seed: a zero seed gives a zero vector. *)
Lemma phaseA_zero P C dist invR2 :
  supported P -> (tet (S P) <= length C)%nat ->
  forall a, (deg a <= P)%nat -> vget (phaseA P C dist invR2 0) (index_of a) = 0.
Proof.
  intros HP Hl.
  destruct (phaseA_spec P C dist invR2 0 HP Hl) as [A1 [A2 [A3 A4]]]. cbv zeta in *.
  set (A := phaseA P C dist invR2 0) in *.
  assert (Hn : forall n a, (deg a <= n)%nat -> (deg a <= P)%nat -> vget A (index_of a) = 0).
  { induction n as [|n IH]; intros a Hn Ha.
    - assert (E : a = (0, 0, 0)%nat) by (apply deg_zero_iff; lia). subst a. exact A2.
    - destruct (Nat.eq_dec (deg a) 0) as [E | E].
      + apply deg_zero_iff in E. subst a. exact A2.
      + rewrite A3 by lia. destruct a as [[nx ny] nz]. cbn [deg] in *.
        unfold chain_rhs.
        assert (Hlow : forall x y z, (x + y + z < nx + ny + nz)%nat ->
                   vget A (Index_I x y z) = 0).
        { intros x y z Hd. apply (IH (x, y, z)); cbn [deg]; lia. }
        rewrite (axis_part_local _ nz _ _ _ 0 0) by (intro; apply Hlow; lia).
        rewrite (axis_part_local _ ny _ _ _ 0 0) by (intro; apply Hlow; lia).
        rewrite (axis_part_local _ nx _ _ _ 0 0) by (intro; apply Hlow; lia).
        rewrite !axis_part_zero. unfold Rdiv. ring. }
  intros a Ha. now apply (Hn (deg a)).
Qed.

Lemma vget_zero_all (v : Vec) :
  (forall i, (i < length v)%nat -> vget v i = 0) -> forall i, vget v i = 0.
Proof.
  intros H i. destruct (Nat.lt_ge_cases i (length v)); [now apply H |].
  now apply vget_overflow.
Qed.

Lemma getCoef_zero P dist invR2 :
  supported P -> forall i, vget (getCoef P (vzero (LTERM P)) dist invR2 0) i = 0.
Proof.
  intros HP. rewrite (LTERM_tet P HP).
  destruct (getCoef_spec P (vzero (tet (S P))) dist invR2 0 HP) as [H1 [H2 [H3 H4]]].
  { rewrite length_vzero. lia. }
  cbv zeta in *. rewrite length_vzero in H1.
  apply vget_zero_all. rewrite H1. intros i Hi.
  destruct (Nat.eq_dec i 0) as [-> | Hne]; [assumption |].
  rewrite <- (index_of_unrank P i HP Hi).
  assert (Hd : (1 <= deg (unrank i) <= P)%nat).
  { split; [| now apply deg_unrank_le].
    destruct (Nat.eq_dec (deg (unrank i)) 0) as [E | E]; [| lia].
    apply deg_zero_iff in E. pose proof (slot_unrank i) as Hs. rewrite E in Hs.
    compute in Hs. lia. }
  rewrite H3 by assumption.
  rewrite phaseA_zero; [ring | assumption | rewrite length_vzero; lia | lia].
Qed.

(** ** M2L *)

Lemma int_MTERM_tet P : int_MTERM P = tet P.
Proof.
  unfold int_MTERM. symmetry. apply Nat.div_unique_exact; [lia |].
  symmetry. apply tet_sixfold.
Qed.

Definition M2L_term (P : nat) (C M : Vec) (b : midx) : R :=
  let '(nx, ny, nz) := b in M2LSum_kernel nx ny nz 0 0 (P - nx - ny - nz) C M.

Lemma M2L_term_sum P C M b :
  M2L_term P C M b =
  Rsum (midx_1_upto (P - deg b))
       (fun c => vget M (index_of c) * vget C (index_of (madd b c))).
Proof.
  destruct b as [[nx ny] nz]. unfold M2L_term. rewrite M2LSum_kernel_sum.
  unfold deg. replace (P - nx - ny - nz)%nat with (P - (nx + ny + nz))%nat by lia.
  reflexivity.
Qed.

Lemma sumM2L_unfold P L C M :
  sumM2L P L C M =
  fold_left (fun v b => vinc v (index_of b) (M2L_term P C M b))
    (slots_upto (slot 0 0 (P - 1)))
    (for_loop 1 (int_MTERM P) (fun L i => vinc L 0 (vget M i * vget C i)) (vadd L C)).
Proof.
  unfold sumM2L. cbv zeta. rewrite Downward_M2L_sweep, sweep_fold.
  apply fold_left_ext. intros v [[nx ny] nz]. reflexivity.
Qed.

Lemma sumM2L_length P L C M : length (sumM2L P L C M) = length L.
Proof.
  rewrite sumM2L_unfold, fold_vinc_length, for_loop_vinc_length. apply length_vadd.
Qed.

Lemma sumM2L_get P L C M i :
  (1 <= P)%nat -> supported P ->
  length L = tet (S P) -> length C = tet (S P) -> (i < tet (S P))%nat ->
  vget (sumM2L P L C M) i =
  vget L i + vget C i
  + (if (i =? 0)%nat then Rsum (seq 1 (tet P - 1)) (fun j => vget M j * vget C j) else 0)
  + (if ((1 <=? i) && (i <=? tet P - 1))%nat then M2L_term P C M (unrank i) else 0).
Proof.
  intros H1 HP HL HC Hi. rewrite sumM2L_unfold.
  pose proof (tet_mono P (S P) ltac:(lia)) as Hmono.
  pose proof (tet_pos (P - 1)) as Hpos.
  assert (HP1 : S (P - 1) = P) by lia. rewrite HP1 in Hpos.
  rewrite (sweep_vinc_get P) by
    first [assumption
          | rewrite slot_last, HP1; lia
          | rewrite for_loop_vinc_length, length_vadd; lia].
  rewrite for_loop_slot0_get by (rewrite length_vadd; lia).
  rewrite vget_vadd_same by congruence.
  rewrite slot_last, HP1, int_MTERM_tet. reflexivity.
Qed.

Lemma M2L_unfold P M L translation :
  M2L P M L translation =
  sumM2L P L
    (getCoef P (vzero (LTERM P)) translation (1 / normSq translation)
       (vget M 0 * sqrt (1 / normSq translation))) M.
Proof. reflexivity. Qed.

(** The coefficient vector [M2L] and [M2P] build. *)
Definition M2L_coef (P : nat) (M : Vec) (d : point) : Vec :=
  getCoef P (vzero (LTERM P)) d (1 / normSq d) (vget M 0 * sqrt (1 / normSq d)).

Lemma M2L_coef_length P M d : supported P -> length (M2L_coef P M d) = LTERM P.
Proof.
  intro HP. unfold M2L_coef.
  destruct (getCoef_spec P (vzero (LTERM P)) d (1 / normSq d)
              (vget M 0 * sqrt (1 / normSq d)) HP) as [H1 _].
  { rewrite length_vzero, (LTERM_tet P HP). lia. }
  cbv zeta in H1. now rewrite H1, length_vzero.
Qed.

Lemma M2L_get_0 P M L translation :
  (1 <= P)%nat -> supported P -> length L = LTERM P ->
  let C := M2L_coef P M translation in
  vget (M2L P M L translation) 0 =
  vget L 0 + vget C 0 + Rsum (seq 1 (MTERM P - 1)) (fun i => vget M i * vget C i).
Proof.
  intros H1 HP HL. cbv zeta. rewrite M2L_unfold. fold (M2L_coef P M translation).
  pose proof (M2L_coef_length P M translation HP) as HC.
  rewrite (LTERM_tet P HP) in *. rewrite (MTERM_tet P HP).
  rewrite sumM2L_get by (try assumption; apply tet_pos).
  cbn [Nat.eqb Nat.leb andb]. ring.
Qed.

Lemma M2L_get P M L translation a :
  (1 <= P)%nat -> supported P -> length L = LTERM P -> (1 <= deg a <= P)%nat ->
  let C := M2L_coef P M translation in
  vget (M2L P M L translation) (index_of a) =
  vget L (index_of a) + vget C (index_of a)
  + Rsum (midx_1_upto (P - deg a))
         (fun b => vget M (index_of b) * vget C (index_of (madd a b))).
Proof.
  intros H1 HP HL Ha. cbv zeta. rewrite M2L_unfold. fold (M2L_coef P M translation).
  pose proof (M2L_coef_length P M translation HP) as HC.
  rewrite (LTERM_tet P HP) in *.
  pose proof (index_of_lt P P a HP ltac:(lia) ltac:(lia)) as Hi.
  pose proof (index_of_pos P a HP ltac:(lia)) as Hpos.
  assert (Hne : a <> (0, 0, 0)%nat) by (intro E; subst a; simpl in Ha; lia).
  specialize (Hpos Hne).
  rewrite sumM2L_get by assumption.
  destruct (Nat.eqb_spec (index_of a) 0); [lia |].
  destruct (Nat.leb_spec 1 (index_of a)); [| lia]. cbn [andb].
  destruct (Nat.leb_spec (index_of a) (tet P - 1)) as [Hin | Hout].
  - rewrite (index_of_slot P a HP ltac:(lia)), unrank_slot, M2L_term_sum. ring.
  - assert (Hd : deg a = P).
    { destruct (Nat.eq_dec (deg a) P) as [E | E]; [assumption |].
      pose proof (index_of_lt P (P - 1) a HP ltac:(lia) ltac:(lia)) as Hlt.
      replace (S (P - 1)) with P in Hlt by lia. lia. }
    rewrite Hd, Nat.sub_diag, midx_1_upto_0. simpl. ring.
Qed.


(** ** Accumulators *)

(** [F] adds to every slot of its argument an amount [delta] that does not
    depend on the argument. *)
Definition accumulates (F : Vec -> Vec) (delta : nat -> R) : Prop :=
  forall v, length (F v) = length v /\
            forall i, (i < length v)%nat -> vget (F v) i = vget v i + delta i.

Lemma vget_vadd_lt a b i :
  (i < length a)%nat -> vget (vadd a b) i = vget a i + vget b i.
Proof.
  unfold vget. revert b i. induction a as [|x a IH]; intros b i Hi; simpl in Hi; [lia |].
  destruct b as [|y b].
  - simpl. destruct i; lra.
  - destruct i; simpl; [reflexivity | apply IH; lia].
Qed.

Lemma accumulates_vadd C : accumulates (fun v => vadd v C) (vget C).
Proof.
  intro v. split; [apply length_vadd |]. intros i Hi. now apply vget_vadd_lt.
Qed.

Lemma accumulates_vinc k x :
  accumulates (fun v => vinc v k x) (fun i => if (k =? i)%nat then x else 0).
Proof.
  intro v. split; [apply length_vinc |]. intros i Hi.
  destruct (Nat.eqb_spec k i) as [-> | Hne].
  - now apply vget_vinc_eq.
  - rewrite vget_vinc_neq by assumption. lra.
Qed.

Lemma accumulates_fold {B} (ix : B -> nat) (g : B -> R) l :
  accumulates (fold_left (fun v b => vinc v (ix b) (g b)) l)
              (fun i => Rsum (filter (fun b => ix b =? i)%nat l) g).
Proof.
  intro v. split; [apply fold_vinc_length |]. intros i Hi. now apply fold_vinc_get.
Qed.

Lemma accumulates_comp F G dF dG :
  accumulates F dF -> accumulates G dG ->
  accumulates (fun v => G (F v)) (fun i => dF i + dG i).
Proof.
  intros HF HG v. destruct (HF v) as [F1 F2]. destruct (HG (F v)) as [G1 G2].
  split; [congruence |]. intros i Hi.
  rewrite G2 by (rewrite F1; assumption). rewrite F2 by assumption. lra.
Qed.

Lemma accumulates_ext F G d : (forall v, F v = G v) -> accumulates G d -> accumulates F d.
Proof. intros E H v. rewrite E. apply H. Qed.

Lemma accumulates_for_loop lo hi (ix : nat -> nat) (g : nat -> R) :
  accumulates (for_loop lo hi (fun v i => vinc v (ix i) (g i)))
              (fun i => Rsum (filter (fun j => ix j =? i)%nat (seq lo (hi - lo))) g).
Proof. unfold for_loop. apply accumulates_fold. Qed.

Lemma sumM2P_unfold P B C M :
  sumM2P P B C M =
  fold_left (fun v b => vinc v (index_of b) (M2L_term P C M b))
    (slots_upto (slot 0 0 1))
    (for_loop 1 (int_MTERM P) (fun B i => vinc B 0 (vget M i * vget C i))
       (vinc (vinc (vinc (vinc B 0 (vget C 0)) 1 (vget C 1)) 2 (vget C 2)) 3 (vget C 3))).
Proof.
  unfold sumM2P. cbv zeta. rewrite Downward_M2P_sweep, sweep_fold.
  apply fold_left_ext. intros v [[nx ny] nz]. reflexivity.
Qed.

Lemma L2P_unfold P L center target result :
  L2P P L center target result =
  let C := power_tableau (LTERM P) P 1 (pt_sub target center) in
  fold_left (fun v b => vinc v (index_of b) (Local_term P C L b))
    (slots_upto (slot 0 0 1))
    (for_loop 1 (LTERM P) (fun r i => vinc r 0 (vget C i * vget L i))
       (vinc (vinc (vinc (vinc result 0 (vget L 0)) 1 (vget L 1)) 2 (vget L 2)) 3 (vget L 3))).
Proof.
  unfold L2P. cbv zeta. rewrite Downward_L2P_sweep, sweep_fold.
  apply fold_left_ext. intros v [[nx ny] nz]. reflexivity.
Qed.

Lemma M2P_unfold P M center target result :
  M2P P M center target result =
  sumM2P P result (M2L_coef P M (pt_sub target center)) M.
Proof. reflexivity. Qed.

Lemma P2M_accumulates P source charge center :
  exists delta, accumulates (P2M P source charge center) delta.
Proof.
  eexists. eapply accumulates_ext; [intro v; apply P2M_unfold |].
  apply accumulates_vadd.
Qed.

Lemma M2M_accumulates P Msource translation :
  exists delta, accumulates (fun Mt => M2M P Msource Mt translation) delta.
Proof.
  eexists. eapply accumulates_ext; [intro v; apply M2M_unfold |]. cbv zeta.
  apply (accumulates_comp (for_loop _ _ _) (fold_left _ _)).
  - apply accumulates_for_loop.
  - apply accumulates_fold.
Qed.

Lemma sumM2L_accumulates P C M :
  exists delta, accumulates (fun L => sumM2L P L C M) delta.
Proof.
  eexists. eapply accumulates_ext; [intro v; apply sumM2L_unfold |].
  apply (accumulates_comp (fun v => for_loop _ _ _ (vadd v C)) (fold_left _ _)).
  - apply (accumulates_comp (fun v => vadd v C) (for_loop _ _ _)).
    + apply accumulates_vadd.
    + apply (accumulates_for_loop 1 (int_MTERM P) (fun _ => 0%nat)).
  - apply accumulates_fold.
Qed.

Lemma M2L_accumulates P M translation :
  exists delta, accumulates (fun L => M2L P M L translation) delta.
Proof. apply sumM2L_accumulates. Qed.

Lemma four_vinc_accumulates (x0 x1 x2 x3 : R) :
  exists delta,
    accumulates (fun v => vinc (vinc (vinc (vinc v 0 x0) 1 x1) 2 x2) 3 x3) delta.
Proof.
  eexists.
  apply (accumulates_comp (fun v => vinc (vinc (vinc v 0 x0) 1 x1) 2 x2) (fun v => vinc v 3 x3)).
  - apply (accumulates_comp (fun v => vinc (vinc v 0 x0) 1 x1) (fun v => vinc v 2 x2)).
    + apply (accumulates_comp (fun v => vinc v 0 x0) (fun v => vinc v 1 x1));
        apply accumulates_vinc.
    + apply accumulates_vinc.
  - apply accumulates_vinc.
Qed.

Lemma sumM2P_accumulates P C M :
  exists delta, accumulates (fun B => sumM2P P B C M) delta.
Proof.
  destruct (four_vinc_accumulates (vget C 0) (vget C 1) (vget C 2) (vget C 3)) as [d4 H4].
  eexists. eapply accumulates_ext; [intro v; apply sumM2P_unfold |].
  apply (accumulates_comp
           (fun v => for_loop _ _ _
                       (vinc (vinc (vinc (vinc v 0 (vget C 0)) 1 (vget C 1)) 2 (vget C 2))
                             3 (vget C 3)))
           (fold_left _ _)).
  - apply (accumulates_comp
             (fun v => vinc (vinc (vinc (vinc v 0 (vget C 0)) 1 (vget C 1)) 2 (vget C 2))
                            3 (vget C 3))
             (for_loop _ _ _)).
    + exact H4.
    + apply (accumulates_for_loop 1 (int_MTERM P) (fun _ => 0%nat)).
  - apply accumulates_fold.
Qed.

Lemma M2P_accumulates P M center target :
  exists delta, accumulates (M2P P M center target) delta.
Proof. apply sumM2P_accumulates. Qed.

Lemma L2L_accumulates P Lsource translation :
  exists delta, accumulates (fun Lt => L2L P Lsource Lt translation) delta.
Proof.
  eexists. eapply accumulates_ext; [intro v; apply L2L_unfold |]. cbv zeta.
  apply (accumulates_comp (fun v => for_loop _ _ _ (vadd v Lsource)) (fold_left _ _)).
  - apply (accumulates_comp (fun v => vadd v Lsource) (for_loop _ _ _)).
    + apply accumulates_vadd.
    + apply (accumulates_for_loop 1 (LTERM P) (fun _ => 0%nat)).
  - apply accumulates_fold.
Qed.

Lemma L2P_accumulates P L center target :
  exists delta, accumulates (L2P P L center target) delta.
Proof.
  set (C := power_tableau (LTERM P) P 1 (pt_sub target center)).
  destruct (four_vinc_accumulates (vget L 0) (vget L 1) (vget L 2) (vget L 3)) as [d4 H4].
  eexists. eapply accumulates_ext; [intro v; apply L2P_unfold |]. cbv zeta. fold C.
  apply (accumulates_comp
           (fun v => for_loop _ _ _
                       (vinc (vinc (vinc (vinc v 0 (vget L 0)) 1 (vget L 1)) 2 (vget L 2))
                             3 (vget L 3)))
           (fold_left _ _)).
  - apply (accumulates_comp
             (fun v => vinc (vinc (vinc (vinc v 0 (vget L 0)) 1 (vget L 1)) 2 (vget L 2))
                            3 (vget L 3))
             (for_loop _ _ _)).
    + exact H4.
    + apply (accumulates_for_loop 1 (LTERM P) (fun _ => 0%nat)).
  - apply accumulates_fold.
Qed.

(** What being an accumulator gives: the same delta from any two initial
    contents, and twice the delta from two invocations. *)
Lemma accumulates_same_delta F delta O O' i :
  accumulates F delta -> (i < length O)%nat -> (i < length O')%nat ->
  vget (F O) i - vget O i = vget (F O') i - vget O' i.
Proof.
  intros H Hi Hi'. destruct (H O) as [_ H1]. destruct (H O') as [_ H2].
  rewrite H1, H2 by assumption. lra.
Qed.

Lemma accumulates_twice F delta O i :
  accumulates F delta -> (i < length O)%nat ->
  vget (F (F O)) i - vget O i = 2 * (vget (F O) i - vget O i).
Proof.
  intros H Hi. destruct (H O) as [L1 H1]. destruct (H (F O)) as [_ H2].
  rewrite H2 by (rewrite L1; assumption). rewrite H1 by assumption. lra.
Qed.

(** ** Partial derivatives of [1/R] *)

Inductive axis : Type := Ax | Ay | Az.

Definition axis_ix (a : axis) : nat :=
  match a with Ax => 0 | Ay => 1 | Az => 2 end%nat.

Definition pt_get (p : point) (a : axis) : R := pt_at p (axis_ix a).

Definition pt_set (p : point) (a : axis) (t : R) : point :=
  let '(x, y, z) := p in
  match a with
  | Ax => (t, y, z)
  | Ay => (x, t, z)
  | Az => (x, y, t)
  end.

(** The potential [1/R] at displacement [p]. *)
Definition inv_dist (p : point) : R := / sqrt (normSq p).

(** [g] is the partial derivative of [f] along [a] at every point but the
    origin. *)
Definition is_partial (a : axis) (f g : point -> R) : Prop :=
  forall p, p <> (0, 0, 0) ->
            derivable_pt_lim (fun t => f (pt_set p a t)) (pt_get p a) (g p).

Definition inc (a : axis) (b : midx) : midx :=
  let '(nx, ny, nz) := b in
  match a with
  | Ax => (S nx, ny, nz)
  | Ay => (nx, S ny, nz)
  | Az => (nx, ny, S nz)
  end.

(** [g] is a partial derivative of order [b] of [1/R] away from the origin,
    the derivatives taken in any order. *)
Inductive is_deriv : midx -> (point -> R) -> Prop :=
| is_deriv_0 : is_deriv (0, 0, 0)%nat inv_dist
| is_deriv_S a b f g : is_deriv b f -> is_partial a f g -> is_deriv (inc a b) g.

(** Functions that are polynomials in the coordinates and in [1/R], with
    their formal partial derivatives. *)
Inductive expr : Type :=
| Const (c : R)
| Coord (a : axis)
| Rho
| Add (e1 e2 : expr)
| Mul (e1 e2 : expr).

Fixpoint eval (e : expr) (p : point) : R :=
  match e with
  | Const c => c
  | Coord a => pt_get p a
  | Rho => inv_dist p
  | Add e1 e2 => eval e1 p + eval e2 p
  | Mul e1 e2 => eval e1 p * eval e2 p
  end.

Definition axis_eqb (a b : axis) : bool :=
  match a, b with
  | Ax, Ax | Ay, Ay | Az, Az => true
  | _, _ => false
  end.

Fixpoint D (a : axis) (e : expr) : expr :=
  match e with
  | Const _ => Const 0
  | Coord b => Const (if axis_eqb a b then 1 else 0)
  | Rho => Mul (Const (-1)) (Mul (Coord a) (Mul Rho (Mul Rho Rho)))
  | Add e1 e2 => Add (D a e1) (D a e2)
  | Mul e1 e2 => Add (Mul (D a e1) e2) (Mul e1 (D a e2))
  end.

Fixpoint Dn (a : axis) (k : nat) (e : expr) : expr :=
  match k with
  | 0%nat => e
  | S k' => D a (Dn a k' e)
  end.

(** The formal derivative of order [b] of [1/R]. *)
Definition dexpr (b : midx) : expr :=
  let '(nx, ny, nz) := b in Dn Ax nx (Dn Ay ny (Dn Az nz Rho)).

Definition partial_inv_dist (b : midx) (p : point) : R := eval (dexpr b) p.

(** *** Soundness of the formal derivative *)

Lemma pt_set_get p a : pt_set p a (pt_get p a) = p.
Proof. destruct p as [[x y] z], a; reflexivity. Qed.

Lemma pt_get_set p a t : pt_get (pt_set p a t) a = t.
Proof. destruct p as [[x y] z], a; reflexivity. Qed.

Lemma pt_get_set_other p a b t : a <> b -> pt_get (pt_set p a t) b = pt_get p b.
Proof. destruct p as [[x y] z], a, b; intro H; try reflexivity; now elim H. Qed.

Lemma axis_eqb_spec a b : axis_eqb a b = true <-> a = b.
Proof. destruct a, b; simpl; split; intro H; try reflexivity; discriminate. Qed.

Lemma normSq_pos p : p <> (0, 0, 0) -> 0 < normSq p.
Proof.
  destruct p as [[x y] z]. intro H. simpl.
  destruct (Req_dec x 0) as [-> | Hx]; [| nra].
  destruct (Req_dec y 0) as [-> | Hy]; [| nra].
  destruct (Req_dec z 0) as [-> | Hz]; [| nra].
  now elim H.
Qed.

Lemma normSq_set p a t :
  normSq (pt_set p a t) = t * t + (normSq p - pt_get p a * pt_get p a).
Proof. destruct p as [[x y] z], a; unfold pt_get; simpl; ring. Qed.

Lemma inv_dist_sq p : p <> (0, 0, 0) -> inv_dist p * inv_dist p * normSq p = 1.
Proof.
  intro H. pose proof (normSq_pos p H) as Hpos. unfold inv_dist.
  pose proof (sqrt_lt_R0 _ Hpos) as Hr.
  pose proof (sqrt_sqrt _ (Rlt_le _ _ Hpos)) as Hrr.
  rewrite <- Hrr at 3. field. lra.
Qed.

Lemma derivable_inv_dist a p :
  p <> (0, 0, 0) ->
  derivable_pt_lim (fun t => inv_dist (pt_set p a t)) (pt_get p a)
    (- 1 * (pt_get p a * (inv_dist p * (inv_dist p * inv_dist p)))).
Proof.
  intro H. pose proof (normSq_pos p H) as Hpos.
  pose proof (sqrt_lt_R0 _ Hpos) as Hr.
  pose proof (sqrt_sqrt _ (Rlt_le _ _ Hpos)) as Hrr.
  set (x := pt_get p a). set (c := normSq p - x * x).
  assert (Hc : x * x + c = normSq p) by (unfold c; ring).
  (* the squared distance along the line *)
  assert (Hq : derivable_pt_lim (fun t => t * t + c) x (2 * x)).
  { replace (2 * x) with (1 * x + x * 1 + 0) by ring.
    apply (derivable_pt_lim_plus (fun t => t * t) (fun _ => c)).
    - apply (derivable_pt_lim_mult id id); apply derivable_pt_lim_id.
    - apply derivable_pt_lim_const. }
  assert (Hs : derivable_pt_lim (fun t => sqrt (t * t + c)) x
                 (/ (2 * sqrt (normSq p)) * (2 * x))).
  { apply (derivable_pt_lim_comp (fun t => t * t + c) sqrt); [exact Hq |].
    rewrite Hc. now apply derivable_pt_lim_sqrt. }
  assert (Hi : derivable_pt_lim (fun t => 1 / sqrt (t * t + c)) x
                 ((0 * sqrt (x * x + c) - / (2 * sqrt (normSq p)) * (2 * x) * 1)
                  / Rsqr (sqrt (x * x + c)))).
  { apply (derivable_pt_lim_div (fun _ => 1) (fun t => sqrt (t * t + c))).
    - apply derivable_pt_lim_const.
    - exact Hs.
    - rewrite Hc. lra. }
  rewrite Hc in Hi.
  apply (derivable_pt_lim_ext (fun t => 1 / sqrt (t * t + c))).
  { intro t. unfold inv_dist. rewrite normSq_set. fold x. fold c.
    unfold Rdiv. now rewrite Rmult_1_l. }
  replace (- 1 * (x * (inv_dist p * (inv_dist p * inv_dist p))))
    with ((0 * sqrt (normSq p) - / (2 * sqrt (normSq p)) * (2 * x) * 1)
          / Rsqr (sqrt (normSq p))); [exact Hi |].
  unfold inv_dist, Rsqr. field. lra.
Qed.

Lemma D_sound a e : is_partial a (eval e) (eval (D a e)).
Proof.
  intros p Hp. induction e as [c | b | | e1 IH1 e2 IH2 | e1 IH1 e2 IH2]; simpl.
  - apply derivable_pt_lim_const.
  - destruct (axis_eqb a b) eqn:E.
    + apply axis_eqb_spec in E. subst b.
      apply (derivable_pt_lim_ext id); [| apply derivable_pt_lim_id].
      intro t. now rewrite pt_get_set.
    + apply (derivable_pt_lim_ext (fun _ => pt_get p b)); [| apply derivable_pt_lim_const].
      intro t. rewrite pt_get_set_other; [reflexivity |].
      intro Eab. subst b. destruct a; discriminate.
  - now apply derivable_inv_dist.
  - apply (derivable_pt_lim_plus (fun t => eval e1 (pt_set p a t))
                                 (fun t => eval e2 (pt_set p a t))); assumption.
  - pose proof (derivable_pt_lim_mult (fun t => eval e1 (pt_set p a t))
                  (fun t => eval e2 (pt_set p a t)) _ _ _ IH1 IH2) as H.
    cbv beta in H. rewrite pt_set_get in H. exact H.
Qed.

(** *** Uniqueness of the partial derivatives *)

Lemma derivable_pt_lim_local f1 f2 x l (delta : R) :
  0 < delta -> (forall h, Rabs h < delta -> f1 (x + h) = f2 (x + h)) ->
  derivable_pt_lim f1 x l -> derivable_pt_lim f2 x l.
Proof.
  intros Hd Heq H eps Heps. destruct (H eps Heps) as [d1 Hd1].
  assert (Hm : 0 < Rmin d1 delta) by (apply Rmin_pos; [apply cond_pos | assumption]).
  exists (mkposreal _ Hm). intros h Hh Hlt. simpl in Hlt.
  assert (Hh1 : Rabs h < d1) by (eapply Rlt_le_trans; [exact Hlt | apply Rmin_l]).
  assert (Hh2 : Rabs h < delta) by (eapply Rlt_le_trans; [exact Hlt | apply Rmin_r]).
  rewrite <- (Heq h Hh2).
  assert (H0 : f2 x = f1 x).
  { specialize (Heq 0). rewrite Rplus_0_r in Heq. symmetry. apply Heq.
    rewrite Rabs_R0. assumption. }
  rewrite H0. now apply Hd1.
Qed.

(** Around a point other than the origin, a line along an axis stays away
    from the origin. *)
Lemma pt_set_near p a :
  p <> (0, 0, 0) ->
  exists delta, 0 < delta /\
    forall h, Rabs h < delta -> pt_set p a (pt_get p a + h) <> (0, 0, 0).
Proof.
  intro Hp. destruct (Req_dec (pt_get p a) 0) as [E0 | E0].
  - exists 1. split; [lra |]. intros h _ E.
    apply Hp. destruct p as [[x y] z], a; unfold pt_get in E0; simpl in *;
      injection E as E1 E2 E3; repeat f_equal; assumption.
  - exists (Rabs (pt_get p a)). split; [now apply Rabs_pos_lt |].
    intros h Hh E.
    assert (Ez : pt_get p a + h = 0).
    { rewrite <- (pt_get_set p a (pt_get p a + h)), E. destruct a; reflexivity. }
    assert (Eh : h = - pt_get p a) by lra.
    rewrite Eh, Rabs_Ropp in Hh. lra.
Qed.

(** Two functions that agree away from the origin have the same partial
    derivatives there. *)
Lemma is_partial_unique a f1 f2 g1 g2 :
  (forall p, p <> (0, 0, 0) -> f1 p = f2 p) ->
  is_partial a f1 g1 -> is_partial a f2 g2 ->
  forall p, p <> (0, 0, 0) -> g1 p = g2 p.
Proof.
  intros Hf H1 H2 p Hp.
  destruct (pt_set_near p a Hp) as [delta [Hd Hnear]].
  apply (uniqueness_limite (fun t => f2 (pt_set p a t)) (pt_get p a)); [| now apply H2].
  apply (derivable_pt_lim_local (fun t => f1 (pt_set p a t)) _ _ _ delta Hd);
    [| now apply H1].
  intros h Hh. apply Hf. now apply Hnear.
Qed.

Lemma D_ext a e1 e2 :
  (forall p, p <> (0, 0, 0) -> eval e1 p = eval e2 p) ->
  forall p, p <> (0, 0, 0) -> eval (D a e1) p = eval (D a e2) p.
Proof.
  intro H. apply (is_partial_unique a (eval e1) (eval e2)); [exact H | |]; apply D_sound.
Qed.

Lemma Dn_ext a k e1 e2 :
  (forall p, p <> (0, 0, 0) -> eval e1 p = eval e2 p) ->
  forall p, p <> (0, 0, 0) -> eval (Dn a k e1) p = eval (Dn a k e2) p.
Proof.
  intro H. induction k as [|k IH]; simpl; [exact H |]. now apply D_ext.
Qed.

(** Formal derivatives along two axes commute. *)
Lemma D_comm a b e p : eval (D a (D b e)) p = eval (D b (D a e)) p.
Proof.
  induction e as [c | c | | e1 IH1 e2 IH2 | e1 IH1 e2 IH2]; simpl.
  - reflexivity.
  - reflexivity.
  - destruct a, b; simpl; ring.
  - now rewrite IH1, IH2.
  - rewrite IH1, IH2. ring.
Qed.

Lemma D_Dn_comm a b k e :
  forall p, p <> (0, 0, 0) -> eval (D a (Dn b k e)) p = eval (Dn b k (D a e)) p.
Proof.
  induction k as [|k IH]; intros p Hp; simpl; [reflexivity |].
  rewrite D_comm. now apply D_ext.
Qed.

(** The formal derivative of the derivative of order [b] is the derivative
    of order [b + e_a]. *)
Lemma D_dexpr a b :
  forall p, p <> (0, 0, 0) -> eval (D a (dexpr b)) p = eval (dexpr (inc a b)) p.
Proof.
  destruct b as [[nx ny] nz]. intros p Hp. destruct a; simpl.
  - reflexivity.
  - rewrite D_Dn_comm by assumption. reflexivity.
  - rewrite D_Dn_comm by assumption. apply Dn_ext; [| assumption].
    intros q Hq. rewrite D_Dn_comm by assumption. reflexivity.
Qed.

Lemma partial_inv_dist_partial a b :
  is_partial a (partial_inv_dist b) (partial_inv_dist (inc a b)).
Proof.
  intros p Hp. unfold partial_inv_dist.
  rewrite <- D_dexpr by assumption. now apply D_sound.
Qed.

(** Every partial derivative of [1/R], in any order of differentiation, is
    the formal one. *)
Lemma is_deriv_unique b g :
  is_deriv b g -> forall p, p <> (0, 0, 0) -> g p = partial_inv_dist b p.
Proof.
  induction 1 as [| a b f g Hf IH Hg]; intros p Hp; [reflexivity |].
  apply (is_partial_unique a f (partial_inv_dist b) g (partial_inv_dist (inc a b)));
    try assumption.
  apply partial_inv_dist_partial.
Qed.

Lemma is_deriv_exists b : is_deriv b (partial_inv_dist b).
Proof.
  destruct b as [[nx ny] nz].
  assert (Hz : forall nz, is_deriv (0, 0, nz)%nat (partial_inv_dist (0, 0, nz)%nat)).
  { induction nz0 as [|k IH]; [exact is_deriv_0 |].
    apply (is_deriv_S Az (0, 0, k)%nat _ _ IH). apply partial_inv_dist_partial. }
  assert (Hy : forall ny nz, is_deriv (0, ny, nz)%nat (partial_inv_dist (0, ny, nz)%nat)).
  { induction ny0 as [|k IH]; intro nz0; [apply Hz |].
    apply (is_deriv_S Ay (0, k, nz0)%nat _ _ (IH nz0)). apply partial_inv_dist_partial. }
  induction nx as [|k IH]; [apply Hy |].
  apply (is_deriv_S Ax (k, ny, nz)%nat _ _ IH). apply partial_inv_dist_partial.
Qed.

(** *** The identities behind the chain recursion *)

Definition dcr (a : axis) (b : midx) : midx :=
  let '(nx, ny, nz) := b in
  match a with
  | Ax => (Nat.pred nx, ny, nz)
  | Ay => (nx, Nat.pred ny, nz)
  | Az => (nx, ny, Nat.pred nz)
  end.

Definition cmp (a : axis) (b : midx) : nat :=
  let '(nx, ny, nz) := b in
  match a with Ax => nx | Ay => ny | Az => nz end.

Definition Sx : expr :=
  Add (Mul (Coord Ax) (Coord Ax))
      (Add (Mul (Coord Ay) (Coord Ay)) (Mul (Coord Az) (Coord Az))).

(** The terms along axis [a] of the derivative of order [b] of
    [S * u], with [u] the derivative of order [e_c] of [1/R]. *)
Definition EA_axis (b : midx) (c a : axis) : expr :=
  Add (Mul (Mul (Const (2 * INR (cmp a b))) (Coord a)) (dexpr (inc c (dcr a b))))
      (Mul (Const (INR (cmp a b) * (INR (cmp a b) - 1))) (dexpr (inc c (dcr a (dcr a b))))).

(** The derivative of order [b] of [S * d_c(1/R) + x_c * (1/R)], which is
    zero away from the origin. *)
Definition EA (b : midx) (c : axis) : expr :=
  Add (Mul Sx (dexpr (inc c b)))
      (Add (Add (EA_axis b c Ax) (Add (EA_axis b c Ay) (EA_axis b c Az)))
           (Add (Mul (Coord c) (dexpr b))
                (Mul (Const (INR (cmp c b))) (dexpr (dcr c b))))).

Lemma D_zero a e :
  (forall p, p <> (0, 0, 0) -> eval e p = 0) ->
  forall p, p <> (0, 0, 0) -> eval (D a e) p = 0.
Proof.
  intros H p Hp. change 0 with (eval (D a (Const 0)) p).
  apply D_ext; assumption.
Qed.

Lemma EA_base c : forall p, p <> (0, 0, 0) -> eval (EA (0, 0, 0)%nat c) p = 0.
Proof.
  intros p Hp. pose proof (inv_dist_sq p Hp) as Hs.
  destruct p as [[x y] z]. unfold pt_get, normSq in *.
  assert (E : inv_dist (x, y, z) * inv_dist (x, y, z) * (x * x + y * y + z * z) - 1 = 0)
    by lra.
  destruct c; cbn -[inv_dist]; set (r := inv_dist (x, y, z)) in *;
    unfold pt_get; simpl pt_at.
  - replace (_ + _) with (- x * r * (r * r * (x * x + y * y + z * z) - 1)) by ring.
    rewrite E. ring.
  - replace (_ + _) with (- y * r * (r * r * (x * x + y * y + z * z) - 1)) by ring.
    rewrite E. ring.
  - replace (_ + _) with (- z * r * (r * r * (x * x + y * y + z * z) - 1)) by ring.
    rewrite E. ring.
Qed.

Lemma EA_D b c e :
  forall p, p <> (0, 0, 0) -> eval (D e (EA b c)) p = eval (EA (inc e b) c) p.
Proof.
  intros p Hp. unfold EA, EA_axis, Sx. cbn [D eval].
  rewrite !D_dexpr by assumption.
  destruct b as [[nx ny] nz], p as [[x y] z].
  destruct c, e; cbn [inc dcr cmp Nat.pred axis_eqb pt_get pt_at axis_ix].
  - destruct nx as [|[|nx]]; cbn [inc dcr cmp Nat.pred]; rewrite ?S_INR; cbn [INR]; ring.
  - destruct ny as [|[|ny]]; cbn [inc dcr cmp Nat.pred]; rewrite ?S_INR; cbn [INR]; ring.
  - destruct nz as [|[|nz]]; cbn [inc dcr cmp Nat.pred]; rewrite ?S_INR; cbn [INR]; ring.
  - destruct nx as [|[|nx]]; cbn [inc dcr cmp Nat.pred]; rewrite ?S_INR; cbn [INR]; ring.
  - destruct ny as [|[|ny]]; cbn [inc dcr cmp Nat.pred]; rewrite ?S_INR; cbn [INR]; ring.
  - destruct nz as [|[|nz]]; cbn [inc dcr cmp Nat.pred]; rewrite ?S_INR; cbn [INR]; ring.
  - destruct nx as [|[|nx]]; cbn [inc dcr cmp Nat.pred]; rewrite ?S_INR; cbn [INR]; ring.
  - destruct ny as [|[|ny]]; cbn [inc dcr cmp Nat.pred]; rewrite ?S_INR; cbn [INR]; ring.
  - destruct nz as [|[|nz]]; cbn [inc dcr cmp Nat.pred]; rewrite ?S_INR; cbn [INR]; ring.
Qed.

Lemma EA_zero b c : forall p, p <> (0, 0, 0) -> eval (EA b c) p = 0.
Proof.
  assert (Hstep : forall e b, (forall p, p <> (0, 0, 0) -> eval (EA b c) p = 0) ->
                    forall p, p <> (0, 0, 0) -> eval (EA (inc e b) c) p = 0).
  { intros e b0 H p Hp. rewrite <- EA_D by assumption. now apply D_zero. }
  destruct b as [[nx ny] nz].
  assert (Hz : forall nz p, p <> (0, 0, 0) -> eval (EA (0, 0, nz)%nat c) p = 0).
  { induction nz0 as [|k IH]; [apply EA_base |]. apply (Hstep Az (0, 0, k)%nat IH). }
  assert (Hy : forall ny nz p, p <> (0, 0, 0) -> eval (EA (0, ny, nz)%nat c) p = 0).
  { induction ny0 as [|k IH]; intro nz0; [apply Hz |].
    apply (Hstep Ay (0, k, nz0)%nat (IH nz0)). }
  induction nx as [|k IH]; [apply Hy |].
  apply (Hstep Ax (k, ny, nz)%nat IH).
Qed.

(** The recurrence between the derivatives of [1/R] of orders [b],
    [b - e_a] and [b - 2 e_a], with [n = |b|]:
    [n R^2 d^b + (2n-1) sum_a b_a x_a d^(b-e_a) + (n-1) sum_a b_a (b_a - 1) d^(b-2e_a) = 0]. *)
Definition rec_axis (b : midx) (p : point) (a : axis) : R * R :=
  (INR (cmp a b) * pt_get p a * partial_inv_dist (dcr a b) p,
   INR (cmp a b) * (INR (cmp a b) - 1) * partial_inv_dist (dcr a (dcr a b)) p).

Definition rec_lhs (b : midx) (p : point) : R :=
  INR (deg b) * normSq p * partial_inv_dist b p
  + (2 * INR (deg b) - 1)
    * (fst (rec_axis b p Ax) + fst (rec_axis b p Ay) + fst (rec_axis b p Az))
  + (INR (deg b) - 1)
    * (snd (rec_axis b p Ax) + snd (rec_axis b p Ay) + snd (rec_axis b p Az)).

Lemma rec_zero b p : p <> (0, 0, 0) -> rec_lhs b p = 0.
Proof.
  intro Hp.
  transitivity (INR (cmp Ax b) * eval (EA (dcr Ax b) Ax) p
                + INR (cmp Ay b) * eval (EA (dcr Ay b) Ay) p
                + INR (cmp Az b) * eval (EA (dcr Az b) Az) p);
    [| rewrite !EA_zero by assumption; ring].
  unfold rec_lhs, rec_axis, partial_inv_dist, EA, EA_axis, Sx. cbn [eval fst snd].
  destruct b as [[nx ny] nz], p as [[x y] z].
  cbn [deg cmp pt_get pt_at axis_ix normSq]. rewrite !plus_INR.
  destruct nx as [|[|[|nx]]], ny as [|[|[|ny]]], nz as [|[|[|nz]]];
    cbn [inc dcr cmp Nat.pred]; rewrite ?S_INR; cbn [INR]; ring.
Qed.

(** *** The derivative builder computes the derivatives of [1/R] *)

Lemma IZR_coef_far n : IZR (1 - 2 * Z.of_nat n) = 1 - 2 * INR n.
Proof. rewrite minus_IZR, mult_IZR, <- INR_IZR_INZ. reflexivity. Qed.

Lemma IZR_coef_near n : IZR (1 - Z.of_nat n) = 1 - INR n.
Proof. rewrite minus_IZR, <- INR_IZR_INZ. reflexivity. Qed.

Lemma mfact_neq_0 b : mfact b <> 0.
Proof. pose proof (mfact_pos b). lra. Qed.

(** One axis of the chain recursion, on Taylor coefficients
    [d^b(1/R) / b!], scaled by [b!]. *)
Ltac axis_scaled_shape k :=
  destruct k as [|[|k]]; cbn [axis_part Nat.pred mfact];
  rewrite ?IZR_coef_far, ?IZR_coef_near;
  [ cbn [INR]; ring
  | change (fact 1) with 1%nat; change (fact 0) with 1%nat; cbn [INR];
    field; repeat split; assumption
  | pose proof (INR_fact_neq_0 k); pose proof (pos_INR k);
    rewrite !fact_simpl, !mult_INR, !S_INR;
    field; repeat split; try assumption; lra ].

Lemma axis_part_scaled n a b p :
  axis_part n (cmp a b) (pt_get p a)
    (partial_inv_dist (dcr a b) p / mfact (dcr a b))
    (partial_inv_dist (dcr a (dcr a b)) p / mfact (dcr a (dcr a b)))
  * mfact b
  = (1 - 2 * INR n) * fst (rec_axis b p a) + (1 - INR n) * snd (rec_axis b p a).
Proof.
  unfold rec_axis. cbn [fst snd].
  destruct b as [[nx ny] nz].
  pose proof (INR_fact_neq_0 nx). pose proof (INR_fact_neq_0 ny).
  pose proof (INR_fact_neq_0 nz).
  destruct a; cbn [cmp dcr].
  - axis_scaled_shape nx.
  - axis_scaled_shape ny.
  - axis_scaled_shape nz.
Qed.

(** Phase A of [getCoef], seeded with [1/R], leaves in slot [I(b)] the
    Taylor coefficient [d^b(1/R) / b!]. *)
Lemma phaseA_deriv P C d :
  supported P -> (tet (S P) <= length C)%nat -> d <> (0, 0, 0) ->
  forall b, (deg b <= P)%nat ->
    vget (phaseA P C d (1 / normSq d) (inv_dist d)) (index_of b) * mfact b
    = partial_inv_dist b d.
Proof.
  intros HP Hl Hd.
  destruct (phaseA_spec P C d (1 / normSq d) (inv_dist d) HP Hl) as [A1 [A2 [A3 A4]]].
  cbv zeta in *.
  set (A := phaseA P C d (1 / normSq d) (inv_dist d)) in *.
  pose proof (normSq_pos d Hd) as HS.
  assert (Hn : forall n b, (deg b <= n)%nat -> (deg b <= P)%nat ->
                 vget A (index_of b) * mfact b = partial_inv_dist b d).
  { induction n as [|n IH]; intros b Hn Hb.
    - assert (E : b = (0, 0, 0)%nat) by (apply deg_zero_iff; lia). subst b.
      rewrite index_of_zero, A2. unfold partial_inv_dist. simpl. ring.
    - destruct (Nat.eq_dec (deg b) 0) as [E | E].
      + apply deg_zero_iff in E. subst b.
        rewrite index_of_zero, A2. unfold partial_inv_dist. simpl. ring.
      + rewrite A3 by lia.
        assert (Hlow : forall c, (deg c < deg b)%nat ->
                   vget A (index_of c) = partial_inv_dist c d / mfact c).
        { intros c Hc. rewrite <- (IH c) by lia. field. apply mfact_neq_0. }
        pose proof (rec_zero b d Hd) as Hrec. unfold rec_lhs in Hrec.
        pose proof (axis_part_scaled (deg b) Ax b d) as Hx.
        pose proof (axis_part_scaled (deg b) Ay b d) as Hy.
        pose proof (axis_part_scaled (deg b) Az b d) as Hz.
        assert (HnR : 0 < INR (deg b)) by (apply lt_0_INR; lia).
        destruct b as [[nx ny] nz]. cbn [deg] in *. unfold chain_rhs.
        cbn [cmp dcr pt_get axis_ix] in Hx, Hy, Hz.
        rewrite (axis_part_local _ nz _ _ _
                   (partial_inv_dist (nx, ny, Nat.pred nz) d / mfact (nx, ny, Nat.pred nz))
                   (partial_inv_dist (nx, ny, Nat.pred (Nat.pred nz)) d
                    / mfact (nx, ny, Nat.pred (Nat.pred nz))))
          by (intro; rewrite <- Hlow by (cbn [deg]; lia); cbn [index_of];
              repeat f_equal; lia).
        rewrite (axis_part_local _ ny _ _ _
                   (partial_inv_dist (nx, Nat.pred ny, nz) d / mfact (nx, Nat.pred ny, nz))
                   (partial_inv_dist (nx, Nat.pred (Nat.pred ny), nz) d
                    / mfact (nx, Nat.pred (Nat.pred ny), nz)))
          by (intro; rewrite <- Hlow by (cbn [deg]; lia); cbn [index_of];
              repeat f_equal; lia).
        rewrite (axis_part_local _ nx _ _ _
                   (partial_inv_dist (Nat.pred nx, ny, nz) d / mfact (Nat.pred nx, ny, nz))
                   (partial_inv_dist (Nat.pred (Nat.pred nx), ny, nz) d
                    / mfact (Nat.pred (Nat.pred nx), ny, nz)))
          by (intro; rewrite <- Hlow by (cbn [deg]; lia); cbn [index_of];
              repeat f_equal; lia).
        set (Pz := axis_part _ nz _ _ _) in *.
        set (Py := axis_part _ ny _ _ _) in *.
        set (Px := axis_part _ nx _ _ _) in *.
        set (G := partial_inv_dist (nx, ny, nz) d) in *.
        set (m := mfact (nx, ny, nz)) in *.
        set (Nn := INR (nx + ny + nz)) in *.
        set (S := normSq d) in *.
        assert (E1 : (Pz + Py + Px) * m = Nn * S * G) by (rewrite !Rmult_plus_distr_r; lra).
        replace ((Pz + Py + Px) / Nn * (1 / S) * m)
          with ((Pz + Py + Px) * m / (Nn * S)) by (field; lra).
        rewrite E1. field. lra. }
  intros b Hb. now apply (Hn (deg b)).
Qed.

(** *** The weights [Index::F] without wrap-around *)

(** The factorial on binary numbers. *)
Fixpoint factN (k : nat) : N :=
  match k with
  | 0%nat => 1%N
  | S k' => (N.of_nat (S k') * factN k')%N
  end.

Lemma factN_fact k : N.of_nat (fact k) = factN k.
Proof.
  induction k as [|k IH]; [reflexivity |].
  rewrite fact_simpl, Nat2N.inj_mul, IH. reflexivity.
Qed.

Lemma fact_mul_le a b : (fact a * fact b <= fact (a + b))%nat.
Proof.
  induction a as [|a IH].
  - rewrite Nat.add_0_l. change (fact 0) with 1%nat. lia.
  - rewrite Nat.add_succ_l, !fact_simpl.
    rewrite <- Nat.mul_assoc.
    apply Nat.mul_le_mono; [lia | exact IH].
Qed.

Lemma fact_prod_le nx ny nz : (fact_prod nx ny nz <= fact (nx + ny + nz))%nat.
Proof.
  unfold fact_prod.
  apply Nat.le_trans with (fact (nx + ny) * fact nz)%nat; [| apply fact_mul_le].
  apply Nat.mul_le_mono_r. apply fact_mul_le.
Qed.

(** Up to degree 12 the product of the three factorials is below [2^32]. *)
Lemma fact_prod_small nx ny nz :
  (nx + ny + nz <= 12)%nat -> (N.of_nat (fact_prod nx ny nz) < modulus)%N.
Proof.
  intro H.
  apply N.le_lt_trans with (factN 12); [| reflexivity].
  rewrite <- factN_fact.
  pose proof (fact_prod_le nx ny nz) as H1.
  pose proof (fact_le _ _ H) as H2.
  generalize dependent (fact 12). generalize dependent (fact (nx + ny + nz)).
  generalize dependent (fact_prod nx ny nz). intros. lia.
Qed.

Lemma Index_F_mfact a : (deg a <= 12)%nat -> Index_F_of a = mfact a.
Proof.
  destruct a as [[nx ny] nz]. cbn [deg Index_F_of mfact]. intro H.
  unfold Index_F. rewrite cart_value_fact, wrap_small by now apply fact_prod_small.
  rewrite nat_N_Z, <- INR_IZR_INZ. unfold fact_prod. rewrite !mult_INR. reflexivity.
Qed.

(** [factorial(13)] is not [13!]. *)
Lemma factorial_13_wraps : factorial 13 = 1932053504%N /\ factN 13 = 6227020800%N.
Proof. split; vm_compute; reflexivity. Qed.

Lemma supported_12 : supported 12.
Proof. reflexivity. Qed.

Lemma inv_dist_alt d : 1 / sqrt (normSq d) = inv_dist d.
Proof. unfold inv_dist, Rdiv. apply Rmult_1_l. Qed.

(** [getCoef], seeded with [1/R], leaves [d^b(1/R)] in slot [I(b)]. *)
Lemma getCoef_deriv P C d :
  (P <= 12)%nat -> length C = LTERM P -> d <> (0, 0, 0) ->
  forall b, (deg b <= P)%nat ->
    vget (getCoef P C d (1 / normSq d) (1 / sqrt (normSq d))) (index_of b)
    = vget (phaseA P C d (1 / normSq d) (1 / sqrt (normSq d))) (index_of b) * mfact b
    /\ vget (phaseA P C d (1 / normSq d) (1 / sqrt (normSq d))) (index_of b) * mfact b
       = partial_inv_dist b d.
Proof.
  intros HP12 HC Hd b Hb.
  assert (HP : supported P) by (apply (supported_le 12); [assumption | exact supported_12]).
  assert (Hl : (tet (S P) <= length C)%nat) by (rewrite HC, (LTERM_tet P HP); lia).
  rewrite inv_dist_alt.
  split; [| now apply phaseA_deriv].
  destruct (getCoef_spec P C d (1 / normSq d) (inv_dist d) HP Hl) as [_ [G0 [G1 _]]].
  cbv zeta in *.
  destruct (Nat.eq_dec (deg b) 0) as [E | E].
  - apply deg_zero_iff in E. subst b. rewrite index_of_zero, G0.
    destruct (phaseA_spec P C d (1 / normSq d) (inv_dist d) HP Hl) as [_ [A0 _]].
    cbv zeta in A0. rewrite A0. simpl. ring.
  - rewrite G1 by lia. rewrite Index_F_mfact by lia. reflexivity.
Qed.

(** *** Beyond order 12 *)

(** Along the [x] axis, at [(1,0,0)], the derivative of order [n] of [1/R]
    is [(-1)^n * n!]. *)
Lemma partial_inv_dist_unit_x n :
  partial_inv_dist (n, 0, 0)%nat (1, 0, 0) = (-1) ^ n * INR (fact n).
Proof.
  assert (Hne : (1, 0, 0) <> (0, 0, 0)) by (intro E; inversion E; lra).
  assert (H1 : inv_dist (1, 0, 0) = 1).
  { unfold inv_dist. replace (normSq (1, 0, 0)) with 1 by (simpl; ring).
    rewrite sqrt_1. apply Rinv_1. }
  assert (H : partial_inv_dist (n, 0, 0)%nat (1, 0, 0) = (-1) ^ n * INR (fact n) /\
              partial_inv_dist (S n, 0, 0)%nat (1, 0, 0) = (-1) ^ S n * INR (fact (S n))).
  { induction n as [|n [IH0 IH1]].
    - unfold partial_inv_dist. cbn [dexpr Dn D eval]. rewrite H1.
      unfold pt_get. cbn [axis_ix pt_at fact INR pow Nat.mul Nat.add]. split; ring.
    - split; [exact IH1 |].
      pose proof (rec_zero (S (S n), 0, 0)%nat (1, 0, 0) Hne) as Hrec.
      unfold rec_lhs, rec_axis in Hrec.
      cbn [fst snd deg cmp dcr Nat.pred Nat.add] in Hrec.
      rewrite !Nat.add_0_r in Hrec.
      replace (normSq (1, 0, 0)) with 1 in Hrec by (simpl; ring).
      unfold pt_get in Hrec. cbn [axis_ix pt_at] in Hrec.
      rewrite IH0, IH1 in Hrec.
      change (INR 0) with 0 in Hrec.
      rewrite !fact_simpl, !mult_INR, !S_INR in *.
      cbn [pow] in *.
      pose proof (pos_INR n) as Hn.
      set (g := partial_inv_dist (S (S n), 0, 0)%nat (1, 0, 0)) in *.
      set (s := (-1) ^ n) in *. set (f := INR (fact n)) in *. set (k := INR n) in *.
      apply (Rmult_eq_reg_l (k + 1 + 1)); [| lra].
      transitivity (- ((2 * (k + 1 + 1) - 1) * ((k + 1 + 1) * 1 * (-1 * s * ((k + 1) * f)))
                       + (k + 1 + 1 - 1) * ((k + 1 + 1) * (k + 1 + 1 - 1) * (s * f)))).
      + lra.
      + ring. }
  exact (proj1 H).
Qed.

Lemma INR_fact_factN k : INR (fact k) = IZR (Z.of_N (factN k)).
Proof. rewrite INR_IZR_INZ, <- factN_fact, nat_N_Z. reflexivity. Qed.

(** At order 13 the weight of the slot [(13,0,0)] has wrapped, and the slot
    no longer holds the derivative. *)
Lemma getCoef_order_13 :
  vget (getCoef 13 (vzero (LTERM 13)) (1, 0, 0)
          (1 / normSq (1, 0, 0)) (1 / sqrt (normSq (1, 0, 0))))
       (index_of (13, 0, 0)%nat)
  <> partial_inv_dist (13, 0, 0)%nat (1, 0, 0).
Proof.
  assert (Hne : (1, 0, 0) <> (0, 0, 0)) by (intro E; inversion E; lra).
  assert (HP : supported 13) by reflexivity.
  assert (Hl : (tet 14 <= length (vzero (LTERM 13)))%nat).
  { rewrite length_vzero, (LTERM_tet 13 HP). lia. }
  rewrite inv_dist_alt.
  destruct (getCoef_spec 13 (vzero (LTERM 13)) (1, 0, 0) (1 / normSq (1, 0, 0))
              (inv_dist (1, 0, 0)) HP Hl) as [_ [_ [G _]]].
  cbv zeta in G. rewrite (G (13, 0, 0)%nat) by (cbn [deg]; lia). clear G.
  pose proof (phaseA_deriv 13 (vzero (LTERM 13)) (1, 0, 0) HP Hl Hne (13, 0, 0)%nat
                ltac:(cbn [deg]; lia)) as HA.
  rewrite partial_inv_dist_unit_x in *.
  unfold mfact in HA. change (fact 0) with 1%nat in HA.
  cbn [Index_F_of]. unfold Index_F.
  replace (cart_value 13 0 0) with 1932053504%N by (vm_compute; reflexivity).
  rewrite INR_fact_factN in *.
  replace (factN 13) with 6227020800%N in * by (vm_compute; reflexivity).
  cbn [Z.of_N] in *. change (INR 1) with 1 in HA.
  set (A := vget _ _) in *.
  replace ((-1) ^ 13) with (-1) in * by (simpl; ring).
  lra.
Qed.

(** ** The upward pass over a tree of boxes *)

(** Modelled from the spec: the tree layer is not among the sources.  A
    leaf box holds bodies (source, charge); a box's multipole is created
    zeroed and accumulated by [P2M] from the bodies of a leaf and by [M2M]
    from the child boxes, with the translation from the child's center to
    the parent's (as the [M2M] dispatcher passes it). *)
#[warnings="-register-all"]
Inductive box : Type :=
| Leaf (center : point) (bodies : list (point * R))
| Node (center : point) (children : list box).

Definition box_center (b : box) : point :=
  match b with
  | Leaf c _ => c
  | Node c _ => c
  end.

Fixpoint upward (P : nat) (b : box) : Vec :=
  match b with
  | Leaf c bodies =>
      fold_left (fun M sq => P2M P (fst sq) (snd sq) c M) bodies (vzero (MTERM P))
  | Node c children =>
      fold_left (fun Mt child =>
                   M2M P (upward P child) Mt (pt_sub c (box_center child)))
                children (vzero (MTERM P))
  end.

Fixpoint total_charge (b : box) : R :=
  match b with
  | Leaf _ bodies => Rsum bodies snd
  | Node _ children => Rsum children total_charge
  end.

Lemma box_induction (Q : box -> Prop) :
  (forall c bodies, Q (Leaf c bodies)) ->
  (forall c children, Forall Q children -> Q (Node c children)) ->
  forall b, Q b.
Proof.
  intros HL HN. fix IH 1. intros [c bodies | c children].
  - apply HL.
  - apply HN. induction children as [|b bs IHbs]; constructor; [apply IH | apply IHbs].
Qed.

(** * The properties of the specification *)

(** ** Monomial index (C6) *)

(** [d(d+1)(d+2)/6], the first slot of degree [d]. *)
Definition tetra (d : nat) : nat := (d * (d + 1) * (d + 2) / 6)%nat.

Lemma tetra_tet d : tetra d = tet d.
Proof.
  unfold tetra. symmetry. apply Nat.div_unique_exact; [lia |].
  symmetry. apply tet_sixfold.
Qed.

(** C6, as the specification states it, fails on the 32-bit arithmetic of
    [cart_index] and [factorial]: the multi-indices [(1625,0,0)] and
    [(59,66,32)] share a slot, and the weight of [(34,0,0)] is [0]. *)
Lemma cart_index_value_wrap :
  cart_index 1625 0 0 = cart_index 59 66 32 /\ ~ (0 < cart_value 34 0 0)%N.
Proof.
  split; [vm_compute; reflexivity |].
  vm_compute. discriminate.
Qed.

(** C6 (amended).  For every order [P] with [(P+1)(P+2)(P+3) < 2^32], the
    map [a |-> I(a)] restricted to [|a| <= P] is a bijection onto
    [{0, ..., LTERM-1}], [LTERM = (P+1)(P+2)(P+3)/6], the indices of degree
    [d] fill exactly [[d(d+1)(d+2)/6, (d+1)(d+2)(d+3)/6)], and [cart_value]
    is the positive integer [nx! * ny! * nz!] whenever that product is below
    [2^32]. *)
Theorem cart_index_bijection P :
  supported P ->
  LTERM P = ((P + 1) * (P + 2) * (P + 3) / 6)%nat /\
  (forall a, (deg a <= P)%nat ->
     index_of a = (tetra (deg a) + (let '(nx, ny, nz) := a in
                                   (ny + nz) * (ny + nz + 1) / 2 + nz))%nat) /\
  (forall a, (deg a <= P)%nat -> (index_of a < LTERM P)%nat) /\
  (forall a b, (deg a <= P)%nat -> (deg b <= P)%nat -> index_of a = index_of b -> a = b) /\
  (forall k, (k < LTERM P)%nat -> exists a, (deg a <= P)%nat /\ index_of a = k) /\
  (forall a, (deg a <= P)%nat -> (tetra (deg a) <= index_of a < tetra (deg a + 1))%nat) /\
  (forall d k, (d <= P)%nat -> (tetra d <= k < tetra (d + 1))%nat ->
     exists a, deg a = d /\ index_of a = k) /\
  (forall nx ny nz, (N.of_nat (fact nx * fact ny * fact nz) < modulus)%N ->
     cart_value nx ny nz = N.of_nat (fact nx * fact ny * fact nz) /\
     (0 < cart_value nx ny nz)%N).
Proof.
  intro HP. rewrite (LTERM_tet P HP).
  split.
  { rewrite <- tetra_tet. unfold tetra. f_equal. lia. }
  split.
  { intros [[nx ny] nz] Ha. rewrite (index_of_slot P) by assumption.
    rewrite tetra_tet. cbn [slot_of deg]. unfold slot.
    replace ((ny + nz) * (ny + nz + 1) / 2)%nat with (tri (ny + nz)); [lia |].
    apply Nat.div_unique_exact; [lia |]. symmetry. apply tri_double. }
  split.
  { intros a Ha. apply (index_of_lt P P); auto. }
  split.
  { intros a b Ha Hb E. rewrite !(index_of_slot P) in E by assumption.
    now apply slot_inj. }
  split.
  { intros k Hk. exists (unrank k). split.
    - now apply deg_unrank_le.
    - now apply (index_of_unrank P). }
  split.
  { intros [[nx ny] nz] Ha. rewrite (index_of_slot P) by assumption.
    rewrite !tetra_tet. cbn [slot_of deg]. replace (nx + ny + nz + 1)%nat with (S (nx + ny + nz)) by lia.
    apply slot_bounds. }
  split.
  { intros d k Hd Hk. rewrite !tetra_tet in Hk. replace (d + 1)%nat with (S d) in Hk by lia.
    exists (unrank k).
    assert (Hlt : (k < tet (S P))%nat).
    { pose proof (tet_mono (S d) (S P) ltac:(lia)). lia. }
    split; [| now apply (index_of_unrank P)].
    pose proof (deg_slot_lt (unrank k) d) as H1. rewrite slot_unrank in H1.
    specialize (H1 ltac:(lia)).
    destruct (Nat.eq_dec (deg (unrank k)) d) as [E | E]; [assumption |].
    exfalso.
    pose proof (proj2 (slot_lt_tet_iff (unrank k) (d - 1))) as H2.
    rewrite slot_unrank in H2.
    destruct d as [|d]; [lia |].
    replace (S d - 1)%nat with d in H2 by lia. specialize (H2 ltac:(lia)). lia. }
  intros nx ny nz Hlt. rewrite cart_value_fact. unfold fact_prod.
  rewrite wrap_small by assumption. split; [reflexivity |].
  pose proof (fact_prod_pos nx ny nz). unfold fact_prod in *. lia.
Qed.

Lemma supported_2 : supported 2.
Proof. reflexivity. Qed.

Lemma cart_index_bijection_witness :
  supported 2 /\ (forall k, (k < LTERM 2)%nat -> exists a, (deg a <= 2)%nat /\ index_of a = k).
Proof.
  split; [exact supported_2 |].
  apply (cart_index_bijection 2 supported_2).
Defined.

(** ** P2M (C3) *)

Lemma not_index_vget_eq P D (v w : Vec) i :
  supported P -> (D <= P)%nat -> length v = length w -> length w = tet (S D) ->
  (forall a, (deg a <= D)%nat -> index_of a <> i) -> vget v i = vget w i.
Proof.
  intros HP HD Hvw Hw H.
  pose proof (not_index_overflow P D i HP HD H).
  rewrite !vget_overflow by lia. reflexivity.
Qed.

(** C3.  [P2M(s, q, c, M)] adds [q * (c - s)^a / a!] to the slot [I(a)] of
    [M] for every [a] with [|a| <= P-1] and changes no other slot; the
    tableau [C] it adds satisfies [C[I(a)] * a! = d^a * q] with [d = c - s]. *)
Theorem P2M_spec P source charge center M :
  (1 <= P)%nat -> supported P -> length M = MTERM P ->
  let d := pt_sub center source in
  let C := power_tableau (MTERM P) (P - 1) charge d in
  let M' := P2M P source charge center M in
  (forall a, (deg a <= P - 1)%nat -> vget C (index_of a) * mfact a = mpow d a * charge) /\
  (forall a, (deg a <= P - 1)%nat ->
     vget M' (index_of a) = vget M (index_of a) + charge * mpow d a / mfact a) /\
  (forall i, (forall a, (deg a <= P - 1)%nat -> index_of a <> i) -> vget M' i = vget M i) /\
  length M' = length M.
Proof.
  intros H1 HP HM. cbv zeta.
  assert (HP1 : S (P - 1) = P) by lia.
  split.
  { intros a Ha.
    destruct (power_tableau_spec P (P - 1) (MTERM P) charge (pt_sub center source) HP)
      as [_ Hv]; [lia | rewrite HP1, (MTERM_tet P HP); lia |].
    rewrite Hv by assumption. pose proof (mfact_pos a). field. lra. }
  split; [intros a Ha; now apply P2M_get |].
  split; [| apply P2M_length].
  intros i Hi. apply (not_index_vget_eq P (P - 1)); try assumption; try lia.
  - apply P2M_length.
  - rewrite HM, HP1. now apply MTERM_tet.
Qed.

Lemma P2M_spec_witness :
  (1 <= 2)%nat /\ supported 2 /\ length [0; 0; 0; 0] = MTERM 2 /\
  length (P2M 2 (0, 0, 0) 1 (1, 2, 3) [0; 0; 0; 0]) = length [0; 0; 0; 0].
Proof.
  split; [lia |]. split; [exact supported_2 |]. split; [reflexivity |].
  apply (P2M_spec 2 (0, 0, 0) 1 (1, 2, 3) [0; 0; 0; 0]); [lia | exact supported_2 | reflexivity].
Defined.

(** ** M2M (C4) *)

(** C4.  [M2M(Msource, Mtarget, tau)] builds the power tableau [C] of [tau]
    with [C[0] = 1] up to degree [P-1], then adds to every slot
    [Mtarget[I(a)]], [0 <= |a| < P], the sum over all [b <= a] of
    [C[I(a-b)] * Msource[I(b)]], and changes nothing else. *)
Theorem M2M_spec P Msource Mtarget translation :
  (1 <= P)%nat -> supported P -> length Mtarget = MTERM P ->
  let C := power_tableau (MTERM P) (P - 1) 1 translation in
  let Mt' := M2M P Msource Mtarget translation in
  vget C 0 = 1 /\
  (forall a, (deg a <= P - 1)%nat -> vget C (index_of a) = mpow translation a / mfact a) /\
  (forall a, (deg a < P)%nat ->
     vget Mt' (index_of a) =
     vget Mtarget (index_of a)
     + Rsum (below a) (fun b => vget C (index_of (msub a b)) * vget Msource (index_of b))) /\
  (forall i, (forall a, (deg a < P)%nat -> index_of a <> i) -> vget Mt' i = vget Mtarget i) /\
  length Mt' = length Mtarget.
Proof.
  intros H1 HP HM. cbv zeta.
  assert (HP1 : S (P - 1) = P) by lia.
  destruct (power_tableau_spec P (P - 1) (MTERM P) 1 translation HP)
    as [_ Hv]; [lia | rewrite HP1, (MTERM_tet P HP); lia |].
  split.
  { rewrite <- index_of_zero, Hv by (simpl; lia). destruct translation as [[x y] z].
    simpl. field. }
  split.
  { intros a Ha. rewrite Hv by assumption. unfold Rdiv. ring. }
  split; [intros a Ha; now apply M2M_get |].
  split; [| apply M2M_length].
  intros i Hi. apply (not_index_vget_eq P (P - 1)); try assumption; try lia.
  - apply M2M_length.
  - rewrite HM, HP1. now apply MTERM_tet.
  - intros a Ha. apply Hi. lia.
Qed.

Lemma M2M_spec_witness :
  (1 <= 2)%nat /\ supported 2 /\ length [0; 0; 0; 0] = MTERM 2 /\
  vget (power_tableau (MTERM 2) (2 - 1) 1 (1, 2, 3)) 0 = 1.
Proof.
  split; [lia |]. split; [exact supported_2 |]. split; [reflexivity |].
  apply (M2M_spec 2 [1; 0; 0; 0] [0; 0; 0; 0] (1, 2, 3)); [lia | exact supported_2 | reflexivity].
Defined.

(** ** L2L (C5) *)

(** C5.  [L2L(Lsource, Ltarget, tau)] adds to every slot [Ltarget[I(a)]],
    [|a| <= P], the value [Lsource[I(a)]] plus the sum over the [b] with
    [b >= a] componentwise, [b <> a] and [|b| <= P] of
    [C[I(b-a)] * Lsource[I(b)]], where [C] is the power tableau of [tau] with
    [C[0] = 1] up to degree [P]. *)
Theorem L2L_spec P Lsource Ltarget translation :
  (1 <= P)%nat -> supported P ->
  length Ltarget = LTERM P -> length Lsource = LTERM P ->
  let C := power_tableau (LTERM P) P 1 translation in
  let Lt' := L2L P Lsource Ltarget translation in
  vget C 0 = 1 /\
  (forall a, (deg a <= P)%nat -> vget C (index_of a) = mpow translation a / mfact a) /\
  (forall a, (deg a <= P)%nat ->
     vget Lt' (index_of a) =
     vget Ltarget (index_of a)
     + (vget Lsource (index_of a)
        + Rsum (above P a)
               (fun b => vget C (index_of (msub b a)) * vget Lsource (index_of b)))) /\
  length Lt' = length Ltarget.
Proof.
  intros H1 HP HLt HLs. cbv zeta.
  destruct (power_tableau_spec P P (LTERM P) 1 translation HP)
    as [_ Hv]; [lia | rewrite (LTERM_tet P HP); lia |].
  split.
  { rewrite <- index_of_zero, Hv by (simpl; lia). destruct translation as [[x y] z].
    simpl. field. }
  split.
  { intros a Ha. rewrite Hv by assumption. unfold Rdiv. ring. }
  split; [| apply L2L_length].
  intros a Ha. rewrite L2L_get by assumption. cbv zeta.
  rewrite (Rsum_above P a
             (fun c b => vget (power_tableau (LTERM P) P 1 translation) (index_of c)
                         * vget Lsource (index_of b))) by assumption.
  ring.
Qed.

Lemma L2L_spec_witness :
  (1 <= 1)%nat /\ supported 1 /\
  length [0; 0; 0; 0] = LTERM 1 /\ length [1; 2; 3; 4] = LTERM 1 /\
  vget (power_tableau (LTERM 1) 1 1 (1, 2, 3)) 0 = 1.
Proof.
  split; [lia |]. split; [reflexivity |]. split; [reflexivity |]. split; [reflexivity |].
  apply (L2L_spec 1 [1; 2; 3; 4] [0; 0; 0; 0] (1, 2, 3));
    [lia | reflexivity | reflexivity | reflexivity].
Defined.

(** ** Total charge (C8) *)

Lemma P2M_slot0 P source charge center M :
  (1 <= P)%nat -> supported P -> length M = MTERM P ->
  vget (P2M P source charge center M) 0 = vget M 0 + charge.
Proof.
  intros H1 HP HM. rewrite <- index_of_zero.
  rewrite P2M_get by (try assumption; simpl; lia).
  destruct (pt_sub center source) as [[x y] z]. simpl. field.
Qed.

Lemma M2M_slot0 P Msource Mtarget translation :
  (1 <= P)%nat -> supported P -> length Mtarget = MTERM P ->
  vget (M2M P Msource Mtarget translation) 0 = vget Mtarget 0 + vget Msource 0.
Proof.
  intros H1 HP HM. rewrite <- index_of_zero at 1 2.
  rewrite M2M_get by (try assumption; simpl; lia). cbv zeta.
  assert (HP1 : S (P - 1) = P) by lia.
  destruct (power_tableau_spec P (P - 1) (MTERM P) 1 translation HP)
    as [_ Hv]; [lia | rewrite HP1, (MTERM_tet P HP); lia |].
  cbn [below seq flat_map map app Rsum fold_right msub Nat.sub].
  rewrite Hv by (simpl; lia). rewrite index_of_zero.
  destruct translation as [[x y] z]. simpl. field.
Qed.

Lemma upward_length P b : length (upward P b) = MTERM P.
Proof.
  destruct b as [c bodies | c children]; simpl.
  - assert (H : forall M, length (fold_left (fun M sq => P2M P (fst sq) (snd sq) c M) bodies M)
                          = length M).
    { induction bodies as [|sq bodies IH]; intro M; simpl; [reflexivity |].
      rewrite IH. apply P2M_length. }
    rewrite H. apply length_vzero.
  - assert (H : forall M, length (fold_left (fun Mt child =>
                   M2M P (upward P child) Mt (pt_sub c (box_center child))) children M)
                          = length M).
    { induction children as [|ch children IH]; intro M; simpl; [reflexivity |].
      rewrite IH. apply M2M_length. }
    rewrite H. apply length_vzero.
Qed.

(** C8.  Slot 0 carries the total charge: [P2M] adds [q] to [M[0]], [M2M]
    adds [Msource[0]] to [Mtarget[0]], and after the upward pass over any
    tree of boxes (multipoles created zeroed) slot 0 of the root multipole is
    the sum of the charges of all its bodies. *)
Theorem charge_conservation P :
  (1 <= P)%nat -> supported P ->
  (forall source charge center M, length M = MTERM P ->
     vget (P2M P source charge center M) 0 = vget M 0 + charge) /\
  (forall Msource Mtarget translation, length Mtarget = MTERM P ->
     vget (M2M P Msource Mtarget translation) 0 = vget Mtarget 0 + vget Msource 0) /\
  (forall root, vget (upward P root) 0 = total_charge root).
Proof.
  intros H1 HP.
  split; [intros; now apply P2M_slot0 |].
  split; [intros; now apply M2M_slot0 |].
  intro root. induction root as [c bodies | c children IH] using box_induction.
  - simpl.
    assert (H : forall M, length M = MTERM P ->
              vget (fold_left (fun M sq => P2M P (fst sq) (snd sq) c M) bodies M) 0
              = vget M 0 + Rsum bodies snd).
    { induction bodies as [|sq bodies IHb]; intros M HM; simpl; [lra |].
      rewrite IHb by (rewrite P2M_length; assumption).
      rewrite P2M_slot0 by assumption. lra. }
    rewrite H by apply length_vzero. rewrite vget_vzero. lra.
  - simpl.
    assert (H : forall M, length M = MTERM P ->
              vget (fold_left (fun Mt child =>
                      M2M P (upward P child) Mt (pt_sub c (box_center child))) children M) 0
              = vget M 0 + Rsum children total_charge).
    { induction IH as [|ch children Hch _ IHc]; intros M HM; simpl; [lra |].
      rewrite IHc by (rewrite M2M_length; assumption).
      rewrite M2M_slot0 by assumption. rewrite Hch. lra. }
    rewrite H by apply length_vzero. rewrite vget_vzero. lra.
Qed.

Lemma charge_conservation_witness :
  (1 <= 2)%nat /\ supported 2 /\
  vget (upward 2 (Node (0, 0, 0)
                    [Leaf (1, 1, 1) [((1, 2, 1), 3); ((2, 1, 1), 4)];
                     Leaf (-1, -1, -1) [((-1, -2, -1), 5)]])) 0 = 3 + 4 + 5.
Proof.
  split; [lia |]. split; [exact supported_2 |].
  destruct (charge_conservation 2 ltac:(lia) supported_2) as [_ [_ H]].
  rewrite H. simpl. ring.
Defined.

(** ** Accumulation (C9) *)

(** C9.  Each of [P2M], [M2M], [M2L], [M2P], [L2L], [L2P] is a pure
    accumulator in its output argument: with the other inputs fixed, the
    amount added to a slot is the same from any two initial contents [O] and
    [O'] of the output, and invoking the operator twice adds it twice. *)
Theorem operators_accumulate
  P (source center target translation : point) (charge : R) (M Msource L Lsource : Vec)
  (O O' : Vec) (i : nat) :
  (i < length O)%nat -> (i < length O')%nat ->
  let p2m := P2M P source charge center in
  let m2m := fun Mt => M2M P Msource Mt translation in
  let m2l := fun Lt => M2L P M Lt translation in
  let m2p := M2P P M center target in
  let l2l := fun Lt => L2L P Lsource Lt translation in
  let l2p := L2P P L center target in
  (vget (p2m O) i - vget O i = vget (p2m O') i - vget O' i /\
   vget (m2m O) i - vget O i = vget (m2m O') i - vget O' i /\
   vget (m2l O) i - vget O i = vget (m2l O') i - vget O' i /\
   vget (m2p O) i - vget O i = vget (m2p O') i - vget O' i /\
   vget (l2l O) i - vget O i = vget (l2l O') i - vget O' i /\
   vget (l2p O) i - vget O i = vget (l2p O') i - vget O' i) /\
  (vget (p2m (p2m O)) i - vget O i = 2 * (vget (p2m O) i - vget O i) /\
   vget (m2m (m2m O)) i - vget O i = 2 * (vget (m2m O) i - vget O i) /\
   vget (m2l (m2l O)) i - vget O i = 2 * (vget (m2l O) i - vget O i) /\
   vget (m2p (m2p O)) i - vget O i = 2 * (vget (m2p O) i - vget O i) /\
   vget (l2l (l2l O)) i - vget O i = 2 * (vget (l2l O) i - vget O i) /\
   vget (l2p (l2p O)) i - vget O i = 2 * (vget (l2p O) i - vget O i)).
Proof.
  intros Hi Hi'. cbv zeta.
  destruct (P2M_accumulates P source charge center) as [d1 A1].
  destruct (M2M_accumulates P Msource translation) as [d2 A2].
  destruct (M2L_accumulates P M translation) as [d3 A3].
  destruct (M2P_accumulates P M center target) as [d4 A4].
  destruct (L2L_accumulates P Lsource translation) as [d5 A5].
  destruct (L2P_accumulates P L center target) as [d6 A6].
  split; repeat split.
  - apply (accumulates_same_delta _ d1); assumption.
  - apply (accumulates_same_delta _ d2 O O' i A2); assumption.
  - apply (accumulates_same_delta _ d3 O O' i A3); assumption.
  - apply (accumulates_same_delta _ d4); assumption.
  - apply (accumulates_same_delta _ d5 O O' i A5); assumption.
  - apply (accumulates_same_delta _ d6); assumption.
  - apply (accumulates_twice _ d1); assumption.
  - apply (accumulates_twice _ d2 O i A2); assumption.
  - apply (accumulates_twice _ d3 O i A3); assumption.
  - apply (accumulates_twice _ d4); assumption.
  - apply (accumulates_twice _ d5 O i A5); assumption.
  - apply (accumulates_twice _ d6); assumption.
Qed.

Lemma operators_accumulate_witness :
  (0 < length [1; 2; 3; 4])%nat /\ (0 < length [5; 6; 7; 8])%nat /\
  vget (P2M 2 (0, 0, 0) 1 (1, 2, 3) [1; 2; 3; 4]) 0 - vget [1; 2; 3; 4] 0 =
  vget (P2M 2 (0, 0, 0) 1 (1, 2, 3) [5; 6; 7; 8]) 0 - vget [5; 6; 7; 8] 0.
Proof.
  split; [simpl; lia |]. split; [simpl; lia |].
  apply (operators_accumulate 2 (0, 0, 0) (1, 2, 3) (0, 0, 0) (1, 1, 1) 1
           [1; 0; 0; 0] [1; 0; 0; 0] [1; 0; 0; 0] [1; 0; 0; 0]
           [1; 2; 3; 4] [5; 6; 7; 8] 0); simpl; lia.
Defined.

(** ** M2L with no charge (C10) *)

(** C10.  If [M[0] = 0], then [M2L(M, L, tau)] leaves [L] unchanged for
    every nonzero [tau], whatever the higher slots of [M]: the seed
    [C[0] = M[0] * sqrt(invR2)] is [0], so the whole coefficient vector [C] is
    zero. *)
Theorem M2L_zero_charge P M L translation :
  (1 <= P)%nat -> supported P -> length L = LTERM P ->
  translation <> (0, 0, 0) -> vget M 0 = 0 ->
  (forall i, vget (M2L_coef P M translation) i = 0) /\
  M2L P M L translation = L.
Proof.
  intros H1 HP HL _ HM0.
  assert (HC : forall i, vget (M2L_coef P M translation) i = 0).
  { unfold M2L_coef. rewrite HM0, Rmult_0_l. now apply getCoef_zero. }
  split; [exact HC |].
  rewrite M2L_unfold. fold (M2L_coef P M translation).
  pose proof (M2L_coef_length P M translation HP) as HCl.
  rewrite (LTERM_tet P HP) in *.
  apply (nth_ext _ _ 0 0); [apply sumM2L_length |].
  intros i Hi. rewrite sumM2L_length in Hi.
  change (vget (sumM2L P L (M2L_coef P M translation) M) i = vget L i).
  rewrite sumM2L_get by (try assumption; lia).
  rewrite HC, M2L_term_sum.
  rewrite (Rsum_zero (seq 1 (tet P - 1))) by (intros; rewrite HC; ring).
  rewrite (Rsum_zero (midx_1_upto _)) by (intros; rewrite HC; ring).
  destruct (i =? 0)%nat, ((1 <=? i)%nat && (i <=? tet P - 1)%nat); ring.
Qed.

Lemma M2L_zero_charge_witness :
  (1 <= 1)%nat /\ supported 1 /\ length [1; 2; 3; 4] = LTERM 1 /\
  (1, 0, 0) <> (0, 0, 0) /\ vget [0] 0 = 0 /\
  M2L 1 [0] [1; 2; 3; 4] (1, 0, 0) = [1; 2; 3; 4].
Proof.
  assert (Hne : (1, 0, 0) <> (0, 0, 0)).
  { intro E. inversion E. lra. }
  split; [lia |]. split; [reflexivity |]. split; [reflexivity |].
  split; [exact Hne |]. split; [reflexivity |].
  apply (M2L_zero_charge 1 [0] [1; 2; 3; 4] (1, 0, 0));
    [lia | reflexivity | reflexivity | exact Hne | reflexivity].
Defined.

(** ** Direct kernel evaluation (C7) *)

Lemma normSq_nonneg d : 0 <= normSq d.
Proof. destruct d as [[x y] z]. simpl. nra. Qed.

Lemma list4_eq (a b c d a' b' c' d' : R) :
  a = a' -> b = b' -> c = c' -> d = d' -> [a; b; c; d] = [a'; b'; c'; d'].
Proof. intros. subst. reflexivity. Qed.

(** C7.  With [d = s - t] and [R = |d|]: [operator()(t, s)] is
    [(1/R, d_x/R^3, d_y/R^3, d_z/R^3)] when [R^2 >= 1e-8] and [(0,0,0,0)]
    when [R^2 < 1e-8]; in particular it is [(0,0,0,0)] at [s = t]. *)
Theorem kernel_eval_spec t s :
  let d := pt_sub s t in
  let R2 := normSq d in
  let R := sqrt R2 in
  (1e-8 <= R2 ->
   kernel_eval t s = [1 / R; pt_at d 0 / R ^ 3; pt_at d 1 / R ^ 3; pt_at d 2 / R ^ 3]) /\
  (R2 < 1e-8 -> kernel_eval t s = [0; 0; 0; 0]) /\
  kernel_eval t t = [0; 0; 0; 0].
Proof.
  cbv zeta.
  assert (Hsmall : forall t s, normSq (pt_sub s t) < 1e-8 -> kernel_eval t s = [0; 0; 0; 0]).
  { intros t0 s0 H. unfold kernel_eval.
    destruct (Rlt_dec (normSq (pt_sub s0 t0)) 1e-8) as [_ | Hn]; [| contradiction].
    rewrite sqrt_0. destruct (pt_sub s0 t0) as [[x y] z]. simpl.
    apply list4_eq; ring. }
  split; [| split].
  - intro H. unfold kernel_eval.
    destruct (Rlt_dec (normSq (pt_sub s t)) 1e-8) as [Hlt | _]; [lra |].
    assert (Hpos : 0 < normSq (pt_sub s t)) by lra.
    pose proof (sqrt_lt_R0 _ Hpos) as Hr.
    pose proof (sqrt_sqrt _ (Rlt_le _ _ Hpos)) as Hrr.
    assert (E : sqrt (1 / normSq (pt_sub s t)) = / sqrt (normSq (pt_sub s t)))
      by (unfold Rdiv; rewrite Rmult_1_l; apply sqrt_inv).
    rewrite E.
    set (r := sqrt (normSq (pt_sub s t))) in *.
    rewrite <- Hrr.
    destruct (pt_sub s t) as [[x y] z]. simpl.
    apply list4_eq; field; lra.
  - apply Hsmall.
  - apply Hsmall. destruct t as [[x y] z]. simpl. lra.
Qed.

Lemma kernel_eval_spec_witness :
  (1e-8 <= normSq (pt_sub (2, 0, 0) (0, 0, 0)) /\
   kernel_eval (0, 0, 0) (2, 0, 0) =
   [1 / sqrt (normSq (pt_sub (2, 0, 0) (0, 0, 0)));
    pt_at (pt_sub (2, 0, 0) (0, 0, 0)) 0 / sqrt (normSq (pt_sub (2, 0, 0) (0, 0, 0))) ^ 3;
    pt_at (pt_sub (2, 0, 0) (0, 0, 0)) 1 / sqrt (normSq (pt_sub (2, 0, 0) (0, 0, 0))) ^ 3;
    pt_at (pt_sub (2, 0, 0) (0, 0, 0)) 2 / sqrt (normSq (pt_sub (2, 0, 0) (0, 0, 0))) ^ 3]) /\
  (normSq (pt_sub (1e-5, 0, 0) (0, 0, 0)) < 1e-8 /\
   kernel_eval (0, 0, 0) (1e-5, 0, 0) = [0; 0; 0; 0]).
Proof.
  assert (H1 : 1e-8 <= normSq (pt_sub (2, 0, 0) (0, 0, 0))) by (simpl; lra).
  assert (H2 : normSq (pt_sub (1e-5, 0, 0) (0, 0, 0)) < 1e-8) by (simpl; lra).
  split; split; try assumption.
  - apply (proj1 (kernel_eval_spec (0, 0, 0) (2, 0, 0))). exact H1.
  - apply (proj1 (proj2 (kernel_eval_spec (0, 0, 0) (1e-5, 0, 0)))). exact H2.
Defined.

(** ** M2L (C1) *)

(** C1 as the specification states it: slot 0 of [L] receives the sum over
    [i < MTERM] of [M[i] * C[i]], and every other slot [I(a)] receives the
    sum over [1 <= |b|], [|a+b| <= P] of [M[I(b)] * C[I(a+b)]]. *)
Definition M2L_as_stated (P : nat) (M L : Vec) (tau : point) : Prop :=
  let C := M2L_coef P M tau in
  let L' := M2L P M L tau in
  vget C 0 = vget M 0 * (1 / sqrt (normSq tau)) /\
  vget L' 0 = vget L 0 + Rsum (seq 0 (MTERM P)) (fun i => vget M i * vget C i) /\
  (forall a, (1 <= deg a <= P)%nat ->
     vget L' (index_of a) =
     vget L (index_of a)
     + Rsum (midx_1_upto (P - deg a))
            (fun b => vget M (index_of b) * vget C (index_of (madd a b)))).

Lemma M2L_coef_0 P M tau :
  supported P -> vget (M2L_coef P M tau) 0 = vget M 0 * (1 / sqrt (normSq tau)).
Proof.
  intro HP. unfold M2L_coef.
  destruct (getCoef_spec P (vzero (LTERM P)) tau (1 / normSq tau)
              (vget M 0 * sqrt (1 / normSq tau)) HP) as [_ [H0 _]].
  { rewrite length_vzero, (LTERM_tet P HP). lia. }
  cbv zeta in H0. rewrite H0. f_equal.
  unfold Rdiv. rewrite !Rmult_1_l. apply sqrt_inv.
Qed.

(** The code adds [C[0] = M[0] / |tau|], not [M[0] * C[0]], to slot 0: with
    [P = 1], [M = (2)], [L = 0] and [tau = (1,0,0)], slot 0 becomes [2], not
    [4]. *)
Lemma M2L_as_stated_fails : ~ M2L_as_stated 1 [2] [0; 0; 0; 0] (1, 0, 0).
Proof.
  intros [_ [H _]].
  pose proof (M2L_get_0 1 [2] [0; 0; 0; 0] (1, 0, 0) ltac:(lia) ltac:(reflexivity)
                ltac:(reflexivity)) as H'.
  cbv zeta in H'. rewrite H' in H. clear H'.
  change (MTERM 1) with 1%nat in H. cbn [seq Nat.sub Rsum fold_right] in H.
  pose proof (M2L_coef_0 1 [2] (1, 0, 0) ltac:(reflexivity)) as H0.
  replace (normSq (1, 0, 0)) with 1 in H0 by (simpl; ring).
  rewrite sqrt_1 in H0. change (vget [2] 0) with 2 in *.
  rewrite H0 in H. lra.
Qed.

(** C1 (amended).  [M2L(M, L, tau)] builds [C] by the derivative builder
    seeded with [C[0] = M[0] * invR], [invR = 1/|tau|]; slot 0 of [L]
    receives [C[0]] plus the sum over [1 <= i < MTERM] of [M[i] * C[i]], and
    every other slot [L[I(a)]], [1 <= |a| <= P], receives [C[I(a)]] plus the
    sum over the [b] with [1 <= |b|] and [|a+b| <= P] of
    [M[I(b)] * C[I(a+b)]]; no slot changes in any other way. *)
Theorem M2L_spec P M L tau :
  (1 <= P)%nat -> supported P -> length L = LTERM P -> tau <> (0, 0, 0) ->
  let C := M2L_coef P M tau in
  let L' := M2L P M L tau in
  C = getCoef P (vzero (LTERM P)) tau (1 / normSq tau) (vget M 0 * sqrt (1 / normSq tau)) /\
  vget C 0 = vget M 0 * (1 / sqrt (normSq tau)) /\
  vget L' 0 =
    vget L 0 + (vget C 0 + Rsum (seq 1 (MTERM P - 1)) (fun i => vget M i * vget C i)) /\
  (forall a, (1 <= deg a <= P)%nat ->
     vget L' (index_of a) =
     vget L (index_of a)
     + (vget C (index_of a)
        + Rsum (midx_1_upto (P - deg a))
               (fun b => vget M (index_of b) * vget C (index_of (madd a b))))) /\
  length L' = length L.
Proof.
  intros H1 HP HL _. cbv zeta.
  split; [reflexivity |].
  split; [now apply M2L_coef_0 |].
  split.
  { rewrite M2L_get_0 by assumption. cbv zeta. ring. }
  split.
  { intros a Ha. rewrite M2L_get by assumption. cbv zeta. ring. }
  rewrite M2L_unfold. apply sumM2L_length.
Qed.

Lemma M2L_spec_witness :
  (1 <= 1)%nat /\ supported 1 /\ length [0; 0; 0; 0] = LTERM 1 /\
  (1, 0, 0) <> (0, 0, 0) /\
  vget (M2L_coef 1 [2] (1, 0, 0)) 0 = vget [2] 0 * (1 / sqrt (normSq (1, 0, 0))).
Proof.
  assert (Hne : (1, 0, 0) <> (0, 0, 0)).
  { intro E. inversion E. lra. }
  split; [lia |]. split; [reflexivity |]. split; [reflexivity |]. split; [exact Hne |].
  apply (M2L_spec 1 [2] [0; 0; 0; 0] (1, 0, 0)); [lia | reflexivity | reflexivity | exact Hne].
Defined.

(** ** The derivative builder (C2) *)

(** C2 as the specification states it: with [C[0] = invR = 1/|d|] and
    [invR2 = 1/|d|^2], after [getCoef] every slot [I(a)], [|a| <= P], holds
    [a!] times the partial derivative of order [a] of [1/R] at [d]. *)
Definition getCoef_as_stated (P : nat) (C : Vec) (d : point) : Prop :=
  forall a g, (deg a <= P)%nat -> is_deriv a g ->
    vget (getCoef P C d (1 / normSq d) (1 / sqrt (normSq d))) (index_of a)
    = mfact a * g d.

Lemma inv_dist_unit : inv_dist (1, 0, 0) = 1.
Proof.
  unfold inv_dist. replace (normSq (1, 0, 0)) with 1 by (simpl; ring).
  rewrite sqrt_1. apply Rinv_1.
Qed.

(** The second derivative of [1/R] along [x] at [(1,0,0)] is [2]. *)
Lemma partial_inv_dist_200 : partial_inv_dist (2, 0, 0)%nat (1, 0, 0) = 2.
Proof.
  unfold partial_inv_dist. cbn [dexpr Dn D eval axis_eqb].
  rewrite inv_dist_unit. unfold pt_get. cbn [axis_ix pt_at]. ring.
Qed.

Lemma unit_x_nonzero : (1, 0, 0) <> (0, 0, 0).
Proof. intro E. inversion E. lra. Qed.

(** The code leaves the derivative itself: with [P = 2] and [d = (1,0,0)]
    the slot of [a = (2,0,0)] holds [2], the second derivative of [1/R]
    along [x], and not [2! * 2 = 4]. *)
Lemma getCoef_as_stated_fails :
  ~ getCoef_as_stated 2 [1; 0; 0; 0; 0; 0; 0; 0; 0; 0] (1, 0, 0).
Proof.
  intro H.
  specialize (H (2, 0, 0)%nat (partial_inv_dist (2, 0, 0)%nat)
                ltac:(simpl; lia) (is_deriv_exists _)).
  destruct (getCoef_deriv 2 [1; 0; 0; 0; 0; 0; 0; 0; 0; 0] (1, 0, 0)
              ltac:(lia) ltac:(reflexivity) unit_x_nonzero (2, 0, 0)%nat ltac:(simpl; lia))
    as [E1 E2].
  rewrite E1, E2, partial_inv_dist_200 in H.
  unfold mfact in H. simpl in H. lra.
Qed.

(** C2 (amended).  For every order [P <= 12], every nonzero displacement [d]
    and every [C] of length [LTERM], after
    [getCoef<P>(C, d, invR2, invR)] with [invR2 = 1/|d|^2] and
    [invR = 1/|d|] every slot [I(a)], [|a| <= P], holds the partial
    derivative of order [a] of [1/R] at [d] itself: Phase A leaves that
    derivative divided by [a! = nx! * ny! * nz!], and Phase B multiplies the
    slot by [a!]. *)
Theorem getCoef_derivatives P C d a g :
  (P <= 12)%nat -> length C = LTERM P -> d <> (0, 0, 0) ->
  (deg a <= P)%nat -> is_deriv a g ->
  let invR2 := 1 / normSq d in
  let invR := 1 / sqrt (normSq d) in
  let A := phaseA P C d invR2 invR in
  let C' := getCoef P C d invR2 invR in
  C' = Terms_scale 0 0 P A /\
  vget A (index_of a) = g d / mfact a /\
  vget C' (index_of a) = vget A (index_of a) * mfact a /\
  vget C' (index_of a) = g d.
Proof.
  intros HP HC Hd Ha Hg. cbv zeta.
  destruct (getCoef_deriv P C d HP HC Hd a Ha) as [E1 E2].
  rewrite (is_deriv_unique a g Hg d Hd).
  pose proof (mfact_pos a) as Hm.
  split; [apply getCoef_phases |].
  split; [rewrite <- E2; field; lra |].
  split; [exact E1 |].
  rewrite E1. exact E2.
Qed.

Lemma getCoef_derivatives_witness :
  (2 <= 12)%nat /\ length [1; 0; 0; 0; 0; 0; 0; 0; 0; 0] = LTERM 2 /\
  (1, 0, 0) <> (0, 0, 0) /\ (deg (2, 0, 0)%nat <= 2)%nat /\
  is_deriv (2, 0, 0)%nat (partial_inv_dist (2, 0, 0)%nat) /\
  vget (getCoef 2 [1; 0; 0; 0; 0; 0; 0; 0; 0; 0] (1, 0, 0)
          (1 / normSq (1, 0, 0)) (1 / sqrt (normSq (1, 0, 0))))
       (index_of (2, 0, 0)%nat)
  = partial_inv_dist (2, 0, 0)%nat (1, 0, 0).
Proof.
  split; [lia |]. split; [reflexivity |]. split; [exact unit_x_nonzero |].
  split; [simpl; lia |]. split; [apply is_deriv_exists |].
  apply (getCoef_derivatives 2 [1; 0; 0; 0; 0; 0; 0; 0; 0; 0] (1, 0, 0) (2, 0, 0)%nat
           (partial_inv_dist (2, 0, 0)%nat));
    [lia | reflexivity | exact unit_x_nonzero | simpl; lia | apply is_deriv_exists].
Defined.

(** * Further properties of the code *)

(** ** The kernel value *)

Lemma normSq_pt_sub_sym a b : normSq (pt_sub a b) = normSq (pt_sub b a).
Proof. destruct a as [[ax ay] az], b as [[bx by_] bz]. simpl. ring. Qed.

(** X1.  Exchanging target and source keeps the potential of
    [operator()] and negates the three force components. *)
Theorem kernel_eval_swap t s :
  vget (kernel_eval s t) 0 = vget (kernel_eval t s) 0 /\
  vget (kernel_eval s t) 1 = - vget (kernel_eval t s) 1 /\
  vget (kernel_eval s t) 2 = - vget (kernel_eval t s) 2 /\
  vget (kernel_eval s t) 3 = - vget (kernel_eval t s) 3.
Proof.
  unfold kernel_eval. rewrite (normSq_pt_sub_sym t s).
  set (w := if Rlt_dec (normSq (pt_sub s t)) 1e-8 then 0 else 1 / normSq (pt_sub s t)).
  destruct t as [[tx ty] tz], s as [[sx sy] sz].
  cbn [pt_sub pt_scale pt_at vget nth].
  repeat split; ring.
Qed.

(** X2.  The value of [operator()] has a potential that is never negative,
    and the squared length of its force is the fourth power of its
    potential, on both sides of the cut-off at [R^2 = 1e-8]. *)
Theorem kernel_eval_force_norm t s :
  let K := kernel_eval t s in
  0 <= vget K 0 /\
  vget K 1 * vget K 1 + vget K 2 * vget K 2 + vget K 3 * vget K 3 = vget K 0 ^ 4.
Proof.
  cbv zeta. unfold kernel_eval.
  destruct (Rlt_dec (normSq (pt_sub s t)) 1e-8) as [Hlt | Hge].
  - rewrite sqrt_0. destruct (pt_sub s t) as [[x y] z].
    cbn [pt_scale pt_at vget nth]. split; [lra | ring].
  - assert (Hpos : 0 < normSq (pt_sub s t)) by lra.
    assert (Hinv : 0 < 1 / normSq (pt_sub s t)).
    { unfold Rdiv. rewrite Rmult_1_l. now apply Rinv_0_lt_compat. }
    pose proof (sqrt_sqrt _ (Rlt_le _ _ Hinv)) as Hrr.
    split; [cbn [vget nth]; apply sqrt_pos |].
    set (r := sqrt (1 / normSq (pt_sub s t))) in *.
    assert (HS : normSq (pt_sub s t) * (r * r) = 1) by (rewrite Hrr; field; lra).
    destruct (pt_sub s t) as [[x y] z].
    cbn [pt_scale pt_at vget nth normSq] in *.
    rewrite <- Hrr.
    transitivity ((x * x + y * y + z * z) * (r * r) * (r * r) ^ 2); [ring |].
    rewrite HS. ring.
Qed.

(** ** The 32-bit factorial *)

Lemma factorial_S k : (1 <= k)%nat -> factorial (S k) = umul (N.of_nat (S k)) (factorial k).
Proof. intro H. destruct k as [|k]; [lia | reflexivity]. Qed.

(** X3.  [factorial(k)] is [k!] reduced modulo [2^32]; it is [k!] itself up
    to [k = 12], and [0] from [k = 34] on. *)
Theorem factorial_wraps k :
  factorial k = (factN k mod 2 ^ 32)%N /\
  ((k <= 12)%nat -> factorial k = factN k) /\
  ((34 <= k)%nat -> factorial k = 0%N).
Proof.
  assert (H0 : factorial k = (factN k mod 2 ^ 32)%N).
  { rewrite factorial_fact, factN_fact. reflexivity. }
  split; [exact H0 |]. split.
  - intro Hk. rewrite H0. apply N.mod_small.
    apply N.le_lt_trans with (factN 12); [| reflexivity].
    rewrite <- !factN_fact. pose proof (fact_le _ _ Hk) as H.
    generalize dependent (fact 12). generalize dependent (fact k). intros. lia.
  - intro Hk. replace k with (34 + (k - 34))%nat by lia.
    generalize (k - 34)%nat. clear. intro j.
    induction j as [|j IH]; [vm_compute; reflexivity |].
    rewrite Nat.add_succ_r, factorial_S by lia. rewrite IH.
    unfold umul, wrap. rewrite N.mul_0_r. reflexivity.
Qed.

Lemma factorial_wraps_witness :
  ((12 <= 12)%nat /\ factorial 12 = factN 12) /\
  ((34 <= 40)%nat /\ factorial 40 = 0%N).
Proof.
  split; split; try lia.
  - apply (proj1 (proj2 (factorial_wraps 12))). lia.
  - apply (proj2 (proj2 (factorial_wraps 40))). lia.
Defined.

(** ** Evaluation at a point ([sumM2P], [M2P], [L2P]) *)

Lemma Rsum_pick {B} (p : B -> bool) (z : B) (l : list B) (g : B -> R) :
  NoDup l -> In z l -> (forall b, In b l -> (p b = true <-> b = z)) ->
  Rsum l (fun b => if p b then g b else 0) = g z.
Proof.
  induction l as [|b l IH]; intros Hnd Hin Hp; [contradiction |].
  inversion Hnd as [|? ? Hnb Hnd']; subst. simpl.
  destruct (p b) eqn:Eb.
  - assert (b = z) by (apply Hp; [now left | assumption]). subst b.
    rewrite Rsum_zero; [lra |].
    intros c Hc. destruct (p c) eqn:Ec; [| reflexivity].
    assert (c = z) by (apply Hp; [now right | assumption]). subst c. contradiction.
  - destruct Hin as [E | Hin].
    + subst b. assert (p z = true) by (apply Hp; [now left | reflexivity]). congruence.
    + rewrite IH; [lra | assumption | assumption |].
      intros c Hc. apply Hp. now right.
Qed.

(** A sum over all multi-indices of degree at most [D] is the term of
    [(0,0,0)] plus the sum over the multi-indices of degree [1 .. D]. *)
Lemma Rsum_box_upto D (g : midx -> R) :
  Rsum (box_upto D) g = g (0, 0, 0)%nat + Rsum (midx_1_upto D) g.
Proof.
  unfold midx_1_upto. rewrite Rsum_filter.
  rewrite <- (Rsum_pick (fun b => negb (nonzero b)) (0, 0, 0)%nat (box_upto D) g).
  - rewrite <- Rsum_plus. apply Rsum_ext. intros b _.
    destruct (nonzero b); simpl; lra.
  - apply NoDup_box_upto.
  - apply In_box_upto. simpl. lia.
  - intros b _. unfold nonzero. rewrite negb_involutive.
    rewrite Nat.eqb_eq. apply deg_zero_iff.
Qed.

(** The common shape of [sumM2P] and of the tail of [L2P]: four slot
    increments, a loop into slot 0, and the sweep [Downward<P,0,0,1>]. *)
Lemma four_slots_get P (g : midx -> R) (h : nat -> R) (x0 x1 x2 x3 : R) hi B i :
  (1 <= P)%nat -> supported P -> length B = 4%nat -> (i < 4)%nat ->
  vget (fold_left (fun v b => vinc v (index_of b) (g b)) (slots_upto (slot 0 0 1))
          (for_loop 1 hi (fun B j => vinc B 0 (h j))
             (vinc (vinc (vinc (vinc B 0 x0) 1 x1) 2 x2) 3 x3))) i =
  vget B i + nth i [x0; x1; x2; x3] 0
  + (if (i =? 0)%nat then Rsum (seq 1 (hi - 1)) h else g (unrank i)).
Proof.
  intros H1 HP HB Hi.
  pose proof (tet_mono 2 (S P) ltac:(lia)) as Hmono.
  change (tet 2) with 4%nat in Hmono.
  change (slot 0 0 1) with 3%nat.
  rewrite (sweep_vinc_get P) by
    first [assumption | lia | rewrite for_loop_vinc_length, !length_vinc; lia].
  rewrite for_loop_slot0_get by (rewrite !length_vinc; lia).
  destruct i as [|[|[|[|i]]]]; [| | | | lia].
  all: repeat first [rewrite vget_vinc_eq by (rewrite ?length_vinc; lia)
                    | rewrite vget_vinc_neq by lia].
  all: cbn [Nat.eqb Nat.leb andb nth]; lra.
Qed.

Lemma sumM2P_length P B C M : length (sumM2P P B C M) = length B.
Proof.
  rewrite sumM2P_unfold, fold_vinc_length, for_loop_vinc_length, !length_vinc.
  reflexivity.
Qed.

Lemma L2P_length P L center target result :
  length (L2P P L center target result) = length result.
Proof.
  rewrite L2P_unfold. cbv zeta.
  rewrite fold_vinc_length, for_loop_vinc_length, !length_vinc. reflexivity.
Qed.

(** The tangent multi-index of an axis. *)
Definition unit_of (k : nat) : midx :=
  match k with
  | 1%nat => (1, 0, 0)
  | 2%nat => (0, 1, 0)
  | _ => (0, 0, 1)
  end%nat.

Lemma unrank_unit k : (1 <= k <= 3)%nat -> unrank k = unit_of k.
Proof. intro H. destruct k as [|[|[|[|k]]]]; try lia; reflexivity. Qed.

Lemma sumM2P_get P B C M :
  (1 <= P)%nat -> supported P -> length B = 4%nat ->
  vget (sumM2P P B C M) 0 =
    vget B 0 + vget C 0
    + Rsum (midx_1_upto (P - 1)) (fun b => vget M (index_of b) * vget C (index_of b)) /\
  (forall k, (1 <= k <= 3)%nat ->
     vget (sumM2P P B C M) k =
       vget B k + vget C k
       + Rsum (midx_1_upto (P - 1))
              (fun b => vget M (index_of b) * vget C (index_of (madd (unit_of k) b)))).
Proof.
  intros H1 HP HB. rewrite sumM2P_unfold.
  assert (HP1 : S (P - 1) = P) by lia.
  split.
  - rewrite (four_slots_get P) by (try assumption; lia).
    cbn [Nat.eqb nth]. rewrite int_MTERM_tet.
    rewrite <- HP1 at 1. rewrite (Rsum_slots P (P - 1)) by (try assumption; lia).
    reflexivity.
  - intros k Hk. rewrite (four_slots_get P) by (try assumption; lia).
    rewrite unrank_unit by assumption. rewrite M2L_term_sum.
    destruct k as [|[|[|[|k]]]]; try lia; cbn [Nat.eqb nth unit_of deg Nat.add].
    all: reflexivity.
Qed.

(** ** The derivative builder is homogeneous in its seed *)

Lemma axis_part_scal n k da s far near :
  axis_part n k da (s * far) (s * near) = s * axis_part n k da far near.
Proof. destruct k as [|[|k]]; simpl; ring. Qed.

Lemma phaseA_scal P C C' dist invR2 s r :
  supported P -> (tet (S P) <= length C)%nat -> (tet (S P) <= length C')%nat ->
  forall a, (deg a <= P)%nat ->
    vget (phaseA P C dist invR2 (s * r)) (index_of a)
    = s * vget (phaseA P C' dist invR2 r) (index_of a).
Proof.
  intros HP Hl Hl'.
  destruct (phaseA_spec P C dist invR2 (s * r) HP Hl) as [_ [A2 [A3 _]]].
  destruct (phaseA_spec P C' dist invR2 r HP Hl') as [_ [B2 [B3 _]]].
  cbv zeta in *.
  set (A := phaseA P C dist invR2 (s * r)) in *.
  set (B := phaseA P C' dist invR2 r) in *.
  assert (Hn : forall n a, (deg a <= n)%nat -> (deg a <= P)%nat ->
                 vget A (index_of a) = s * vget B (index_of a)).
  { induction n as [|n IH]; intros a Hn Ha.
    - assert (E : a = (0, 0, 0)%nat) by (apply deg_zero_iff; lia). subst a.
      rewrite index_of_zero, A2, B2. reflexivity.
    - destruct (Nat.eq_dec (deg a) 0) as [E | E].
      + apply deg_zero_iff in E. subst a. rewrite index_of_zero, A2, B2. reflexivity.
      + rewrite A3, B3 by lia. destruct a as [[nx ny] nz]. cbn [deg] in *.
        unfold chain_rhs.
        assert (Hlow : forall x y z, (x + y + z < nx + ny + nz)%nat ->
                   vget A (Index_I x y z) = s * vget B (Index_I x y z)).
        { intros x y z Hd. apply (IH (x, y, z)); cbn [deg]; lia. }
        rewrite (axis_part_local _ nz _ (vget A _) (vget A _)
                   (s * vget B (Index_I nx ny (nz - 1)))
                   (s * vget B (Index_I nx ny (nz - 2))))
          by (intro; apply Hlow; lia).
        rewrite (axis_part_local _ ny _ (vget A _) (vget A _)
                   (s * vget B (Index_I nx (ny - 1) nz))
                   (s * vget B (Index_I nx (ny - 2) nz)))
          by (intro; apply Hlow; lia).
        rewrite (axis_part_local _ nx _ (vget A _) (vget A _)
                   (s * vget B (Index_I (nx - 1) ny nz))
                   (s * vget B (Index_I (nx - 2) ny nz)))
          by (intro; apply Hlow; lia).
        rewrite !axis_part_scal. unfold Rdiv. ring. }
  intros a Ha. now apply (Hn (deg a)).
Qed.

Lemma getCoef_scal P C C' dist invR2 s r :
  supported P -> (tet (S P) <= length C)%nat -> (tet (S P) <= length C')%nat ->
  forall a, (deg a <= P)%nat ->
    vget (getCoef P C dist invR2 (s * r)) (index_of a)
    = s * vget (getCoef P C' dist invR2 r) (index_of a).
Proof.
  intros HP Hl Hl' a Ha.
  destruct (getCoef_spec P C dist invR2 (s * r) HP Hl) as [_ [G0 [G1 _]]].
  destruct (getCoef_spec P C' dist invR2 r HP Hl') as [_ [G0' [G1' _]]].
  cbv zeta in *.
  destruct (Nat.eq_dec (deg a) 0) as [E | E].
  - apply deg_zero_iff in E. subst a. rewrite index_of_zero, G0, G0'. reflexivity.
  - rewrite G1, G1' by lia.
    rewrite (phaseA_scal P C C') by assumption. ring.
Qed.

(** X4.  [getCoef] is homogeneous of degree one in its seed [invR]:
    multiplying the seed by [s] multiplies every slot [I(a)], [|a| <= P], by
    [s], whatever the vector held before. *)
Theorem getCoef_homogeneous P C C' dist invR2 invR s a :
  supported P -> length C = LTERM P -> length C' = LTERM P -> (deg a <= P)%nat ->
  vget (getCoef P C dist invR2 (s * invR)) (index_of a)
  = s * vget (getCoef P C' dist invR2 invR) (index_of a).
Proof.
  intros HP HC HC' Ha. rewrite (LTERM_tet P HP) in *.
  apply getCoef_scal; try assumption; lia.
Qed.

Lemma getCoef_homogeneous_witness :
  supported 1 /\ length [0; 0; 0; 0] = LTERM 1 /\ length [9; 9; 9; 9] = LTERM 1 /\
  (deg (0, 0, 1)%nat <= 1)%nat /\
  vget (getCoef 1 [0; 0; 0; 0] (1, 2, 2) (1 / 9) (5 * (1 / 3))) (index_of (0, 0, 1)%nat)
  = 5 * vget (getCoef 1 [9; 9; 9; 9] (1, 2, 2) (1 / 9) (1 / 3)) (index_of (0, 0, 1)%nat).
Proof.
  split; [reflexivity |]. split; [reflexivity |]. split; [reflexivity |].
  split; [simpl; lia |].
  apply (getCoef_homogeneous 1 [0; 0; 0; 0] [9; 9; 9; 9] (1, 2, 2) (1 / 9) (1 / 3) 5
           (0, 0, 1)%nat); [reflexivity | reflexivity | reflexivity | simpl; lia].
Defined.

(** The coefficient vector of [M2L] and [M2P] is [M[0]] times the
    derivatives of [1/R]. *)
Lemma M2L_coef_deriv P M d a :
  (P <= 12)%nat -> d <> (0, 0, 0) -> (deg a <= P)%nat ->
  vget (M2L_coef P M d) (index_of a) = vget M 0 * partial_inv_dist a d.
Proof.
  intros HP12 Hd Ha.
  assert (HP : supported P) by (apply (supported_le 12); [assumption | exact supported_12]).
  unfold M2L_coef.
  replace (sqrt (1 / normSq d)) with (1 / sqrt (normSq d))
    by (unfold Rdiv; rewrite !Rmult_1_l; symmetry; apply sqrt_inv).
  rewrite (getCoef_scal P _ (vzero (LTERM P))) by
    (try assumption; rewrite length_vzero, (LTERM_tet P HP); lia).
  destruct (getCoef_deriv P (vzero (LTERM P)) d HP12 (length_vzero _) Hd a Ha) as [E1 E2].
  rewrite E1, E2. reflexivity.
Qed.

(** ** M2P *)





(** ** M2L and M2P in terms of the derivatives of [1/R] *)

Lemma supported_upto_12 P : (P <= 12)%nat -> supported P.
Proof. intro H. apply (supported_le 12); [assumption | exact supported_12]. Qed.

Lemma index_of_unit k : (1 <= k <= 3)%nat -> index_of (unit_of k) = k.
Proof. intro H. destruct k as [|[|[|[|k]]]]; try lia; reflexivity. Qed.

(** X7.  For [1 <= P <= 12] and a nonzero translation [tau], with
    [G(a)] the partial derivative of order [a] of [1/R] at [tau]:
    [M2L(M, L, tau)] adds to [L[0]] the amount
    [M[0] * (G(0) + sum over 1 <= |b| <= P-1 of M[I(b)] * G(b))], and to
    every other slot [L[I(a)]], [1 <= |a| <= P], the amount
    [M[0] * (G(a) + sum over 1 <= |b| <= P-|a| of M[I(b)] * G(a+b))]. *)
Theorem M2L_derivatives P M L tau :
  (1 <= P)%nat -> (P <= 12)%nat -> length M = MTERM P -> length L = LTERM P ->
  tau <> (0, 0, 0) ->
  let G := fun a => partial_inv_dist a tau in
  let L' := M2L P M L tau in
  vget L' 0 =
    vget L 0
    + vget M 0 * (G (0, 0, 0)%nat
                  + Rsum (midx_1_upto (P - 1)) (fun b => vget M (index_of b) * G b)) /\
  (forall a, (1 <= deg a <= P)%nat ->
     vget L' (index_of a) =
       vget L (index_of a)
       + vget M 0 * (G a + Rsum (midx_1_upto (P - deg a))
                             (fun b => vget M (index_of b) * G (madd a b)))).
Proof.
  intros H1 HP12 _ HL Htau. cbv zeta.
  pose proof (supported_upto_12 P HP12) as HP.
  assert (HP1 : S (P - 1) = P) by lia.
  split.
  - rewrite M2L_get_0 by assumption. cbv zeta.
    rewrite (MTERM_tet P HP).
    replace (tet P - 1)%nat with (tet (S (P - 1)) - 1)%nat by (rewrite HP1; reflexivity).
    rewrite (Rsum_slots P (P - 1)) by (try assumption; lia).
    rewrite <- index_of_zero at 2.
    rewrite M2L_coef_deriv by (try assumption; simpl; lia).
    rewrite (Rsum_ext _ _ (fun b => vget M 0 * (vget M (index_of b) * partial_inv_dist b tau))).
    + rewrite Rsum_scal. ring.
    + intros b Hb. apply In_midx_1_upto in Hb.
      rewrite M2L_coef_deriv by (try assumption; lia). ring.
  - intros a Ha. rewrite M2L_get by assumption. cbv zeta.
    rewrite M2L_coef_deriv by (try assumption; lia).
    rewrite (Rsum_ext _ _ (fun b => vget M 0
                                    * (vget M (index_of b) * partial_inv_dist (madd a b) tau))).
    + rewrite Rsum_scal. ring.
    + intros b Hb. apply In_midx_1_upto in Hb.
      rewrite M2L_coef_deriv by (try assumption; rewrite deg_madd; lia). ring.
Qed.

Lemma M2L_derivatives_witness :
  (1 <= 2)%nat /\ (2 <= 12)%nat /\ length [3; 0; 0; 0] = MTERM 2 /\
  length (vzero 10) = LTERM 2 /\ (1, 0, 0) <> (0, 0, 0) /\
  vget (M2L 2 [3; 0; 0; 0] (vzero 10) (1, 0, 0)) 0 =
    vget (vzero 10) 0
    + vget [3; 0; 0; 0] 0
      * (partial_inv_dist (0, 0, 0)%nat (1, 0, 0)
         + Rsum (midx_1_upto (2 - 1))
             (fun b => vget [3; 0; 0; 0] (index_of b) * partial_inv_dist b (1, 0, 0))).
Proof.
  split; [lia |]. split; [lia |]. split; [reflexivity |]. split; [reflexivity |].
  split; [exact unit_x_nonzero |].
  pose proof (M2L_derivatives 2 [3; 0; 0; 0] (vzero 10) (1, 0, 0)
                ltac:(lia) ltac:(lia) eq_refl eq_refl unit_x_nonzero) as H.
  cbv zeta beta in H. exact (proj1 H).
Defined.

(** X8.  For [1 <= P <= 12] and a target away from the center, with
    [d = target - center] and [G(a)] the partial derivative of order [a] of
    [1/R] at [d]: [M2P] adds to [result[0]] the amount
    [M[0] * (G(0) + sum over 1 <= |b| <= P-1 of M[I(b)] * G(b))] and to
    [result[k]], [k = 1, 2, 3], the same expression with every [G] taken one
    order higher along axis [k]. *)
Theorem M2P_derivatives P M center target result :
  (1 <= P)%nat -> (P <= 12)%nat -> length M = MTERM P -> length result = 4%nat ->
  pt_sub target center <> (0, 0, 0) ->
  let G := fun a => partial_inv_dist a (pt_sub target center) in
  let result' := M2P P M center target result in
  vget result' 0 =
    vget result 0
    + vget M 0 * (G (0, 0, 0)%nat
                  + Rsum (midx_1_upto (P - 1)) (fun b => vget M (index_of b) * G b)) /\
  (forall k, (1 <= k <= 3)%nat ->
     vget result' k =
       vget result k
       + vget M 0 * (G (unit_of k)
                     + Rsum (midx_1_upto (P - 1))
                         (fun b => vget M (index_of b) * G (madd (unit_of k) b)))).
Proof.
  intros H1 HP12 _ HB Hd. cbv zeta.
  pose proof (supported_upto_12 P HP12) as HP.
  rewrite M2P_unfold.
  destruct (sumM2P_get P result (M2L_coef P M (pt_sub target center)) M H1 HP HB)
    as [E0 Ek].
  split.
  - rewrite E0. rewrite <- index_of_zero at 2.
    rewrite M2L_coef_deriv by (try assumption; simpl; lia).
    rewrite (Rsum_ext _ _ (fun b => vget M 0 * (vget M (index_of b)
                                    * partial_inv_dist b (pt_sub target center)))).
    + rewrite Rsum_scal. ring.
    + intros b Hb. apply In_midx_1_upto in Hb.
      rewrite M2L_coef_deriv by (try assumption; lia). ring.
  - intros k Hk. rewrite Ek by assumption.
    rewrite <- (index_of_unit k Hk) at 2.
    assert (Hu : deg (unit_of k) = 1%nat)
      by (destruct k as [|[|[|[|k]]]]; try lia; reflexivity).
    rewrite M2L_coef_deriv by (try assumption; lia).
    rewrite (Rsum_ext _ _ (fun b => vget M 0 * (vget M (index_of b)
                  * partial_inv_dist (madd (unit_of k) b) (pt_sub target center)))).
    + rewrite Rsum_scal. ring.
    + intros b Hb. apply In_midx_1_upto in Hb.
      rewrite M2L_coef_deriv by (try assumption; rewrite deg_madd; lia). ring.
Qed.

Lemma pt_sub_unit_x : pt_sub (1, 0, 0) (0, 0, 0) <> (0, 0, 0).
Proof. intro E. inversion E. lra. Qed.

Lemma M2P_derivatives_witness :
  (1 <= 2)%nat /\ (2 <= 12)%nat /\ length [3; 0; 0; 0] = MTERM 2 /\
  length [0; 0; 0; 0] = 4%nat /\ pt_sub (1, 0, 0) (0, 0, 0) <> (0, 0, 0) /\
  vget (M2P 2 [3; 0; 0; 0] (0, 0, 0) (1, 0, 0) [0; 0; 0; 0]) 0 =
    vget [0; 0; 0; 0] 0
    + vget [3; 0; 0; 0] 0
      * (partial_inv_dist (0, 0, 0)%nat (pt_sub (1, 0, 0) (0, 0, 0))
         + Rsum (midx_1_upto (2 - 1))
             (fun b => vget [3; 0; 0; 0] (index_of b)
                       * partial_inv_dist b (pt_sub (1, 0, 0) (0, 0, 0)))).
Proof.
  split; [lia |]. split; [lia |]. split; [reflexivity |]. split; [reflexivity |].
  split; [exact pt_sub_unit_x |].
  pose proof (M2P_derivatives 2 [3; 0; 0; 0] (0, 0, 0) (1, 0, 0) [0; 0; 0; 0]
                ltac:(lia) ltac:(lia) eq_refl eq_refl pt_sub_unit_x) as H.
  cbv zeta beta in H. exact (proj1 H).
Defined.

(** ** L2P *)

Lemma power_tableau_get P N d a :
  supported P -> (tet (S P) <= N)%nat -> (deg a <= P)%nat ->
  vget (power_tableau N P 1 d) (index_of a) = mpow d a / mfact a.
Proof.
  intros HP HN Ha.
  destruct (power_tableau_spec P P N 1 d HP (le_n P) HN) as [_ Hv].
  rewrite Hv by assumption. unfold Rdiv. ring.
Qed.

Lemma mpow_0 d : mpow d (0, 0, 0)%nat = 1.
Proof. destruct d as [[x y] z]. simpl. ring. Qed.

Lemma mfact_0 : mfact (0, 0, 0)%nat = 1.
Proof. simpl. ring. Qed.

Lemma L2P_get P L center target result :
  (1 <= P)%nat -> supported P -> length result = 4%nat ->
  vget (L2P P L center target result) 0 =
    vget result 0
    + Rsum (box_upto P)
        (fun a => mpow (pt_sub target center) a / mfact a * vget L (index_of a)) /\
  (forall k, (1 <= k <= 3)%nat ->
     vget (L2P P L center target result) k =
       vget result k
       + Rsum (box_upto (P - 1))
              (fun a => mpow (pt_sub target center) a / mfact a
                        * vget L (index_of (madd (unit_of k) a)))).
Proof.
  intros H1 HP HB.
  assert (HN : (tet (S P) <= LTERM P)%nat) by (rewrite (LTERM_tet P HP); lia).
  split.
  - rewrite L2P_unfold. cbv zeta.
    rewrite (four_slots_get P) by (try assumption; lia).
    cbn [Nat.eqb nth]. rewrite (LTERM_tet P HP).
    rewrite (Rsum_slots P P) by (try assumption; lia).
    rewrite Rsum_box_upto, mpow_0, mfact_0, index_of_zero.
    rewrite (Rsum_ext (midx_1_upto P) _
               (fun a => mpow (pt_sub target center) a / mfact a * vget L (index_of a))).
    + field.
    + intros a Ha. apply In_midx_1_upto in Ha.
      rewrite <- (LTERM_tet P HP).
      rewrite (power_tableau_get P) by (try assumption; lia). reflexivity.
  - intros k Hk. rewrite L2P_unfold. cbv zeta.
    rewrite (four_slots_get P) by (try assumption; lia).
    rewrite unrank_unit by assumption. rewrite Local_term_sum.
    assert (Hu : deg (unit_of k) = 1%nat)
      by (destruct k as [|[|[|[|k]]]]; try lia; reflexivity).
    rewrite Hu.
    rewrite Rsum_box_upto, mpow_0, mfact_0.
    rewrite (Rsum_ext (midx_1_upto (P - 1)) _
               (fun a => mpow (pt_sub target center) a / mfact a
                         * vget L (index_of (madd (unit_of k) a)))).
    + replace (madd (unit_of k) (0, 0, 0)%nat) with (unit_of k)
        by (destruct k as [|[|[|[|k]]]]; reflexivity).
      rewrite index_of_unit by assumption.
      destruct k as [|[|[|[|k]]]]; try lia; cbn [Nat.eqb nth]; field.
    + intros a Ha. apply In_midx_1_upto in Ha.
      rewrite (power_tableau_get P) by (try assumption; lia). reflexivity.
Qed.

(** X9.  [L2P(L, center, target, result)] evaluates the local expansion and
    its gradient at [d = target - center]: it adds to [result[0]] the sum
    over all [|a| <= P] of [d^a / a! * L[I(a)]], and to [result[k]],
    [k = 1, 2, 3], the sum over all [|a| <= P-1] of
    [d^a / a! * L[I(e_k + a)]]; the result keeps its four slots. *)
Theorem L2P_spec P L center target result :
  (1 <= P)%nat -> supported P -> length L = LTERM P -> length result = 4%nat ->
  let d := pt_sub target center in
  let result' := L2P P L center target result in
  vget result' 0 =
    vget result 0
    + Rsum (box_upto P) (fun a => mpow d a / mfact a * vget L (index_of a)) /\
  (forall k, (1 <= k <= 3)%nat ->
     vget result' k =
       vget result k
       + Rsum (box_upto (P - 1))
              (fun a => mpow d a / mfact a * vget L (index_of (madd (unit_of k) a)))) /\
  length result' = 4%nat.
Proof.
  intros H1 HP _ HB. cbv zeta.
  destruct (L2P_get P L center target result H1 HP HB) as [A0 Ak].
  split; [exact A0 |]. split; [exact Ak |].
  rewrite L2P_length. exact HB.
Qed.

Lemma L2P_spec_witness :
  (1 <= 1)%nat /\ supported 1 /\ length [1; 2; 3; 4] = LTERM 1 /\
  length [0; 0; 0; 0] = 4%nat /\
  length (L2P 1 [1; 2; 3; 4] (0, 0, 0) (1, 1, 1) [0; 0; 0; 0]) = 4%nat.
Proof.
  split; [lia |]. split; [reflexivity |]. split; [reflexivity |]. split; [reflexivity |].
  apply (L2P_spec 1 [1; 2; 3; 4] (0, 0, 0) (1, 1, 1) [0; 0; 0; 0]);
    [lia | reflexivity | reflexivity | reflexivity].
Defined.

(** ** The binomial identity behind the translations *)

Lemma Rsum_mult_l {B} (l : list B) c g : Rsum l (fun b => g b * c) = Rsum l g * c.
Proof. induction l as [|b l IH]; simpl; [lra | rewrite IH; lra]. Qed.

Lemma sum_f_R0_Rsum (f : nat -> R) n : sum_f_R0 f n = Rsum (seq 0 (S n)) f.
Proof.
  induction n as [|n IH]; [simpl; lra |].
  rewrite Rsum_seq_S. cbn [sum_f_R0 Nat.add]. rewrite IH. reflexivity.
Qed.

(** [sum over k <= n of x^(n-k)/(n-k)! * y^k/k! = (x+y)^n/n!]. *)
Lemma binomial_exp x y n :
  Rsum (seq 0 (S n))
       (fun k => x ^ (n - k) / INR (fact (n - k)) * (y ^ k / INR (fact k)))
  = (x + y) ^ n / INR (fact n).
Proof.
  transitivity (Rsum (seq 0 (S n)) (fun i => C n i * y ^ i * x ^ (n - i)) * / INR (fact n)).
  - rewrite <- Rsum_mult_l. apply Rsum_ext. intros k Hk. apply in_seq in Hk.
    unfold C.
    pose proof (INR_fact_neq_0 n). pose proof (INR_fact_neq_0 k).
    pose proof (INR_fact_neq_0 (n - k)).
    field. repeat split; assumption.
  - rewrite <- sum_f_R0_Rsum, <- binomial, (Rplus_comm y x). reflexivity.
Qed.

Lemma Rsum_swap {A B} (l1 : list A) (l2 : list B) (f : A -> B -> R) :
  Rsum l1 (fun a => Rsum l2 (fun b => f a b)) = Rsum l2 (fun b => Rsum l1 (fun a => f a b)).
Proof.
  induction l1 as [|a l1 IH]; simpl.
  - symmetry. apply Rsum_zero. reflexivity.
  - rewrite IH, <- Rsum_plus. reflexivity.
Qed.

(** The same in three dimensions:
    [sum over b <= a of x^(a-b)/(a-b)! * y^b/b! = (x+y)^a/a!]. *)
Lemma mpow_convolution_add (x1 x2 x3 y1 y2 y3 : R) a :
  Rsum (below a)
       (fun b => mpow (x1, x2, x3) (msub a b) / mfact (msub a b)
                 * (mpow (y1, y2, y3) b / mfact b))
  = mpow (x1 + y1, x2 + y2, x3 + y3) a / mfact a.
Proof.
  destruct a as [[ax ay] az]. unfold below.
  rewrite Rsum_flat_map.
  transitivity
    (Rsum (seq 0 (S ax))
       (fun bx => x1 ^ (ax - bx) / INR (fact (ax - bx)) * (y1 ^ bx / INR (fact bx))
                  * ((x2 + y2) ^ ay / INR (fact ay) * ((x3 + y3) ^ az / INR (fact az))))).
  - apply Rsum_ext. intros bx _. rewrite Rsum_flat_map.
    transitivity
      (Rsum (seq 0 (S ay))
         (fun by_ => x1 ^ (ax - bx) / INR (fact (ax - bx)) * (y1 ^ bx / INR (fact bx))
                     * (x2 ^ (ay - by_) / INR (fact (ay - by_)) * (y2 ^ by_ / INR (fact by_)))
                     * ((x3 + y3) ^ az / INR (fact az)))).
    + apply Rsum_ext. intros by_ _. rewrite Rsum_map.
      rewrite <- (binomial_exp x3 y3 az), <- Rsum_scal.
      apply Rsum_ext. intros bz _. cbn [msub mpow mfact].
      pose proof (INR_fact_neq_0 (ax - bx)). pose proof (INR_fact_neq_0 (ay - by_)).
      pose proof (INR_fact_neq_0 (az - bz)). pose proof (INR_fact_neq_0 bx).
      pose proof (INR_fact_neq_0 by_). pose proof (INR_fact_neq_0 bz).
      field. repeat split; assumption.
    + rewrite Rsum_mult_l, Rsum_scal, binomial_exp. ring.
  - rewrite Rsum_mult_l, binomial_exp. cbn [mpow mfact].
    pose proof (INR_fact_neq_0 ax). pose proof (INR_fact_neq_0 ay).
    pose proof (INR_fact_neq_0 az).
    field. repeat split; assumption.
Qed.

(** For three points [u], [v], [w]: the powers of [w - v] convolved with the
    powers of [v - u] are the powers of [w - u]. *)
Lemma mpow_convolution u v w a :
  Rsum (below a)
       (fun b => mpow (pt_sub w v) (msub a b) / mfact (msub a b)
                 * (mpow (pt_sub v u) b / mfact b))
  = mpow (pt_sub w u) a / mfact a.
Proof.
  destruct u as [[u1 u2] u3], v as [[v1 v2] v3], w as [[w1 w2] w3].
  cbn [pt_sub]. rewrite mpow_convolution_add.
  replace (w1 - v1 + (v1 - u1)) with (w1 - u1) by ring.
  replace (w2 - v2 + (v2 - u2)) with (w2 - u2) by ring.
  replace (w3 - v3 + (v3 - u3)) with (w3 - u3) by ring.
  reflexivity.
Qed.

(** ** The upward pass is exact: P2M followed by M2M *)

Lemma below_deg a b : In b (below a) -> (deg b <= deg a)%nat /\ (deg (msub a b) <= deg a)%nat.
Proof.
  intro H. apply In_below in H.
  destruct a as [[ax ay] az], b as [[bx by_] bz]. cbn [deg msub]. lia.
Qed.

(** The multipole a box gets from its bodies: [P2M] of each body in turn. *)
Definition P2M_bodies (P : nat) (center : point) (bodies : list (point * R)) (M : Vec) : Vec :=
  fold_left (fun M sq => P2M P (fst sq) (snd sq) center M) bodies M.

Lemma P2M_bodies_length P center bodies M :
  length (P2M_bodies P center bodies M) = length M.
Proof.
  unfold P2M_bodies. revert M.
  induction bodies as [|sq bodies IH]; intro M; simpl; [reflexivity |].
  rewrite IH. apply P2M_length.
Qed.

Lemma P2M_bodies_get P center bodies M a :
  (1 <= P)%nat -> supported P -> length M = MTERM P -> (deg a <= P - 1)%nat ->
  vget (P2M_bodies P center bodies M) (index_of a) =
  vget M (index_of a)
  + Rsum bodies (fun sq => snd sq * (mpow (pt_sub center (fst sq)) a / mfact a)).
Proof.
  intros H1 HP HM Ha. unfold P2M_bodies. revert M HM.
  induction bodies as [|sq bodies IH]; intros M HM; simpl; [lra |].
  rewrite IH by (rewrite P2M_length; assumption).
  rewrite P2M_get by assumption. unfold Rdiv. ring.
Qed.

Lemma M2M_tableau_get P d a :
  (1 <= P)%nat -> supported P -> (deg a <= P - 1)%nat ->
  vget (power_tableau (MTERM P) (P - 1) 1 d) (index_of a) = mpow d a / mfact a.
Proof.
  intros H1 HP Ha.
  destruct (power_tableau_spec P (P - 1) (MTERM P) 1 d HP) as [_ Hv];
    [lia | replace (S (P - 1)) with P by lia; rewrite (MTERM_tet P HP); lia |].
  rewrite Hv by assumption. unfold Rdiv. ring.
Qed.

(** Two vectors of [MTERM] slots that agree at every [I(a)], [|a| < P],
    are equal. *)
Lemma multipole_ext P (v w : Vec) :
  (1 <= P)%nat -> supported P -> length v = MTERM P -> length w = MTERM P ->
  (forall a, (deg a <= P - 1)%nat -> vget v (index_of a) = vget w (index_of a)) ->
  v = w.
Proof.
  intros H1 HP Hv Hw H.
  apply (nth_ext _ _ 0 0); [congruence |].
  intros i Hi. rewrite Hv, (MTERM_tet P HP) in Hi.
  assert (HP1 : S (P - 1) = P) by lia.
  pose proof (tet_mono P (S P) ltac:(lia)) as Hmono.
  rewrite <- (index_of_unrank P i HP ltac:(lia)).
  apply H. apply deg_unrank_le. now rewrite HP1.
Qed.

(** X10.  The upward pass is exact.  Shifting the multipole a child box got
    from its bodies, from the child's center [c] to the parent's center
    [c'], adds to the parent's multipole exactly what [P2M] of the same
    bodies about [c'] adds. *)
Theorem M2M_after_P2M P (bodies : list (point * R)) c c' Mt :
  (1 <= P)%nat -> supported P -> length Mt = MTERM P ->
  M2M P (P2M_bodies P c bodies (vzero (MTERM P))) Mt (pt_sub c' c)
  = P2M_bodies P c' bodies Mt.
Proof.
  intros H1 HP HMt.
  apply (multipole_ext P); try assumption.
  - now rewrite M2M_length.
  - now rewrite P2M_bodies_length.
  - intros a Ha.
    rewrite M2M_get by (try assumption; lia). cbv zeta.
    rewrite P2M_bodies_get by assumption. f_equal.
    rewrite (Rsum_ext _ _
               (fun b => Rsum bodies
                  (fun sq => snd sq
                     * (mpow (pt_sub c' c) (msub a b) / mfact (msub a b)
                        * (mpow (pt_sub c (fst sq)) b / mfact b))))).
    + rewrite Rsum_swap. apply Rsum_ext. intros sq _.
      rewrite Rsum_scal, mpow_convolution. reflexivity.
    + intros b Hb. apply below_deg in Hb. destruct Hb as [Hb1 Hb2].
      rewrite M2M_tableau_get by (try assumption; lia).
      rewrite P2M_bodies_get by (try assumption; try apply length_vzero; lia).
      rewrite vget_vzero, Rplus_0_l, <- Rsum_scal.
      apply Rsum_ext. intros sq _. ring.
Qed.

Lemma M2M_after_P2M_witness :
  (1 <= 2)%nat /\ supported 2 /\ length [0; 0; 0; 0] = MTERM 2 /\
  M2M 2 (P2M_bodies 2 (1, 1, 1) [((1, 2, 1), 3); ((2, 1, 1), 4)] (vzero (MTERM 2)))
      [0; 0; 0; 0] (pt_sub (0, 0, 0) (1, 1, 1))
  = P2M_bodies 2 (0, 0, 0) [((1, 2, 1), 3); ((2, 1, 1), 4)] [0; 0; 0; 0].
Proof.
  split; [lia |]. split; [reflexivity |]. split; [reflexivity |].
  apply (M2M_after_P2M 2 [((1, 2, 1), 3); ((2, 1, 1), 4)] (1, 1, 1) (0, 0, 0) [0; 0; 0; 0]);
    [lia | reflexivity | reflexivity].
Defined.

(** ** Two M2M shifts compose *)

Lemma NoDup_below a : NoDup (below a).
Proof.
  destruct a as [[ax ay] az]. unfold below.
  apply NoDup_flat_map; [apply seq_NoDup | |].
  - intros bx _. apply NoDup_flat_map; [apply seq_NoDup | |].
    + intros by_ _. apply Finite.Injective_map_NoDup; [| apply seq_NoDup].
      intros i j E. now inversion E.
    + intros b b' x _ _ H H'. apply in_map_iff in H, H'.
      destruct H as [i [E _]], H' as [j [E' _]]. subst x. now inversion E'.
  - intros b b' x _ _ H H'. apply in_flat_map in H, H'.
    destruct H as [i [_ H]], H' as [j [_ H']]. apply in_map_iff in H, H'.
    destruct H as [k [E _]], H' as [k' [E' _]]. subst x. now inversion E'.
Qed.

Lemma Rsum_same_members {B} (l1 l2 : list B) g :
  NoDup l1 -> NoDup l2 -> (forall x, In x l1 <-> In x l2) -> Rsum l1 g = Rsum l2 g.
Proof. intros H1 H2 H. apply Rsum_perm. now apply NoDup_Permutation. Qed.

Lemma mgeq_spec b a :
  mgeq b a = true <->
  (let '(bx, by_, bz) := b in let '(ax, ay, az) := a in ax <= bx /\ ay <= by_ /\ az <= bz)%nat.
Proof.
  destruct b as [[bx by_] bz], a as [[ax ay] az]. unfold mgeq.
  rewrite !andb_true_iff, !Nat.leb_le. tauto.
Qed.

(** A sum over [c <= b] inside a sum over [b <= a]. *)
Lemma Rsum_below_sub a b g :
  In b (below a) ->
  Rsum (below b) g = Rsum (below a) (fun c => if mgeq b c then g c else 0).
Proof.
  intro Hb. rewrite <- Rsum_filter.
  apply Rsum_same_members; [apply NoDup_below | apply NoDup_filter, NoDup_below |].
  intro c. rewrite filter_In, !In_below, mgeq_spec. apply In_below in Hb.
  destruct a as [[ax ay] az], b as [[bx by_] bz], c as [[cx cy] cz]. lia.
Qed.

(** The [b] with [c <= b <= a] are the [c + e] with [e <= a - c]. *)
Lemma Rsum_below_shift a c h :
  In c (below a) ->
  Rsum (below a) (fun b => if mgeq b c then h b else 0) =
  Rsum (below (msub a c)) (fun e => h (madd c e)).
Proof.
  intro Hc. rewrite <- Rsum_filter, <- (Rsum_map (madd c) _ h).
  apply Rsum_same_members.
  - apply NoDup_filter, NoDup_below.
  - apply Finite.Injective_map_NoDup; [| apply NoDup_below].
    intros e e' E. rewrite <- (msub_madd c e), <- (msub_madd c e'). now f_equal.
  - intro b. rewrite filter_In, in_map_iff, In_below, mgeq_spec. apply In_below in Hc.
    split.
    + intros [Hb Hg]. exists (msub b c). split.
      * apply madd_msub. now apply mgeq_spec.
      * apply In_below.
        destruct a as [[ax ay] az], b as [[bx by_] bz], c as [[cx cy] cz].
        cbn [msub]. lia.
    + intros [e [E He]]. apply In_below in He. subst b.
      destruct a as [[ax ay] az], e as [[ex ey] ez], c as [[cx cy] cz].
      cbn [msub madd] in *. lia.
Qed.

Lemma Rsum_triangle a (F : midx -> midx -> R) :
  Rsum (below a) (fun b => Rsum (below b) (fun c => F b c)) =
  Rsum (below a) (fun c => Rsum (below (msub a c)) (fun e => F (madd c e) c)).
Proof.
  rewrite (Rsum_ext (below a) _
             (fun b => Rsum (below a) (fun c => if mgeq b c then F b c else 0)))
    by (intros b Hb; now apply Rsum_below_sub).
  rewrite Rsum_swap. apply Rsum_ext. intros c Hc.
  now apply (Rsum_below_shift a c (fun b => F b c)).
Qed.

Lemma msub_msub a c e : msub a (madd c e) = msub (msub a c) e.
Proof.
  destruct a as [[ax ay] az], c as [[cx cy] cz], e as [[ex ey] ez].
  cbn [msub madd]. f_equal; [f_equal |]; lia.
Qed.

(** X11.  Two [M2M] shifts compose: shifting [M] from [c0] to [c1] and the
    outcome from [c1] to [c2] adds to the target what the single shift from
    [c0] to [c2] adds. *)
Theorem M2M_compose P M Mt c0 c1 c2 :
  (1 <= P)%nat -> supported P -> length M = MTERM P -> length Mt = MTERM P ->
  M2M P (M2M P M (vzero (MTERM P)) (pt_sub c1 c0)) Mt (pt_sub c2 c1)
  = M2M P M Mt (pt_sub c2 c0).
Proof.
  intros H1 HP _ HMt.
  apply (multipole_ext P); try assumption; try (now rewrite M2M_length).
  intros a Ha.
  rewrite !M2M_get by (try assumption; lia). cbv zeta. f_equal.
  rewrite (Rsum_ext (below a) _
             (fun b => Rsum (below b)
                (fun c => mpow (pt_sub c2 c1) (msub a b) / mfact (msub a b)
                          * (mpow (pt_sub c1 c0) (msub b c) / mfact (msub b c)
                             * vget M (index_of c))))).
  - rewrite Rsum_triangle. apply Rsum_ext. intros c Hc.
    pose proof (below_deg a c Hc) as [Hc1 Hc2].
    rewrite M2M_tableau_get by (try assumption; lia).
    rewrite <- (mpow_convolution c0 c1 c2), <- Rsum_mult_l.
    apply Rsum_ext. intros e _. rewrite msub_msub, msub_madd. ring.
  - intros b Hb. pose proof (below_deg a b Hb) as [Hb1 Hb2].
    rewrite M2M_tableau_get by (try assumption; lia).
    rewrite M2M_get by (try assumption; try apply length_vzero; lia). cbv zeta.
    rewrite vget_vzero, Rplus_0_l, <- Rsum_scal.
    apply Rsum_ext. intros c Hc. pose proof (below_deg b c Hc) as [Hc1 Hc2].
    rewrite M2M_tableau_get by (try assumption; lia). reflexivity.
Qed.

Lemma M2M_compose_witness :
  (1 <= 2)%nat /\ supported 2 /\ length [1; 2; 3; 4] = MTERM 2 /\
  length [0; 0; 0; 0] = MTERM 2 /\
  M2M 2 (M2M 2 [1; 2; 3; 4] (vzero (MTERM 2)) (pt_sub (1, 1, 1) (0, 0, 0)))
      [0; 0; 0; 0] (pt_sub (3, 2, 1) (1, 1, 1))
  = M2M 2 [1; 2; 3; 4] [0; 0; 0; 0] (pt_sub (3, 2, 1) (0, 0, 0)).
Proof.
  split; [lia |]. split; [reflexivity |]. split; [reflexivity |]. split; [reflexivity |].
  apply (M2M_compose 2 [1; 2; 3; 4] [0; 0; 0; 0] (0, 0, 0) (1, 1, 1) (3, 2, 1));
    [lia | reflexivity | reflexivity | reflexivity].
Defined.

(** ** Shifting a local expansion *)

Lemma mpow_convolution_rev u v w a :
  Rsum (below a)
       (fun b => mpow (pt_sub w v) b / mfact b
                 * (mpow (pt_sub v u) (msub a b) / mfact (msub a b)))
  = mpow (pt_sub w u) a / mfact a.
Proof.
  destruct u as [[u1 u2] u3], v as [[v1 v2] v3], w as [[w1 w2] w3].
  cbn [pt_sub].
  rewrite <- (Rsum_ext (below a) _ _
                (fun b _ => Rmult_comm
                   (mpow (v1 - u1, v2 - u2, v3 - u3) (msub a b) / mfact (msub a b))
                   (mpow (w1 - v1, w2 - v2, w3 - v3) b / mfact b))).
  rewrite mpow_convolution_add.
  replace (v1 - u1 + (w1 - v1)) with (w1 - u1) by ring.
  replace (v2 - u2 + (w2 - v2)) with (w2 - u2) by ring.
  replace (v3 - u3 + (w3 - v3)) with (w3 - u3) by ring.
  reflexivity.
Qed.

(** The [g] of degree at most [D] above [e] are the [e + c] with
    [|c| <= D - |e|]. *)
Lemma Rsum_box_shift D e h :
  (deg e <= D)%nat ->
  Rsum (box_upto (D - deg e)) (fun c => h (madd e c)) =
  Rsum (box_upto D) (fun g => if mgeq g e then h g else 0).
Proof.
  intro He. rewrite <- Rsum_filter, <- (Rsum_map (madd e) _ h).
  apply Rsum_same_members.
  - apply Finite.Injective_map_NoDup; [| apply NoDup_box_upto].
    intros c c' E. rewrite <- (msub_madd e c), <- (msub_madd e c'). now f_equal.
  - apply NoDup_filter, NoDup_box_upto.
  - intro g. rewrite filter_In, in_map_iff, In_box_upto. split.
    + intros [c [E Hc]]. apply In_box_upto in Hc. subst g.
      rewrite deg_madd, mgeq_madd. split; [lia | reflexivity].
    + intros [Hg Hge]. exists (msub g e). split; [now apply madd_msub |].
      apply In_box_upto.
      pose proof (madd_msub e g Hge) as E.
      assert (Hd : deg g = (deg e + deg (msub g e))%nat) by (rewrite <- deg_madd; now f_equal).
      lia.
Qed.

(** The [e] of degree at most [D] below [g], when [|g| <= D], are the
    [e <= g]. *)
Lemma Rsum_box_below D g h :
  (deg g <= D)%nat ->
  Rsum (box_upto D) (fun e => if mgeq g e then h e else 0) = Rsum (below g) h.
Proof.
  intro Hg. rewrite <- Rsum_filter.
  apply Rsum_same_members; [apply NoDup_filter, NoDup_box_upto | apply NoDup_below |].
  intro e. rewrite filter_In, In_box_upto, In_below, mgeq_spec.
  destruct g as [[gx gy] gz], e as [[ex ey] ez]. cbn [deg] in *. lia.
Qed.

(** Translating a truncated Taylor polynomial twice is translating it
    once: the exactness of [L2L] and of [L2L] followed by [L2P]. *)
Lemma local_shift D u v w (Lf : midx -> R) :
  Rsum (box_upto D)
       (fun e => mpow (pt_sub w v) e / mfact e
                 * Rsum (box_upto (D - deg e))
                     (fun c => mpow (pt_sub v u) c / mfact c * Lf (madd e c)))
  = Rsum (box_upto D) (fun g => mpow (pt_sub w u) g / mfact g * Lf g).
Proof.
  rewrite (Rsum_ext (box_upto D) _
             (fun e => Rsum (box_upto D)
                (fun g => if mgeq g e
                          then mpow (pt_sub w v) e / mfact e
                               * (mpow (pt_sub v u) (msub g e) / mfact (msub g e) * Lf g)
                          else 0))).
  - rewrite Rsum_swap. apply Rsum_ext. intros g Hg. apply In_box_upto in Hg.
    rewrite (Rsum_box_below D g
               (fun e => mpow (pt_sub w v) e / mfact e
                         * (mpow (pt_sub v u) (msub g e) / mfact (msub g e) * Lf g)))
      by assumption.
    rewrite <- (mpow_convolution_rev u v w), <- Rsum_mult_l.
    apply Rsum_ext. intros e _. ring.
  - intros e He. apply In_box_upto in He.
    rewrite <- Rsum_scal.
    rewrite <- (Rsum_box_shift D e
                  (fun g => mpow (pt_sub w v) e / mfact e
                            * (mpow (pt_sub v u) (msub g e) / mfact (msub g e) * Lf g)))
      by assumption.
    apply Rsum_ext. intros c _. now rewrite msub_madd.
Qed.

Lemma madd_0_r a : madd a (0, 0, 0)%nat = a.
Proof. destruct a as [[ax ay] az]. cbn [madd]. now rewrite !Nat.add_0_r. Qed.

Lemma madd_assoc a b c : madd (madd a b) c = madd a (madd b c).
Proof.
  destruct a as [[ax ay] az], b as [[bx by_] bz], c as [[cx cy] cz].
  cbn [madd]. now rewrite !Nat.add_assoc.
Qed.

(** What [L2L] adds to a slot, as one sum over all [|c| <= P - |a|]. *)
Lemma L2L_get_box P Lsource Ltarget translation a :
  (1 <= P)%nat -> supported P ->
  length Ltarget = LTERM P -> length Lsource = LTERM P -> (deg a <= P)%nat ->
  vget (L2L P Lsource Ltarget translation) (index_of a) =
  vget Ltarget (index_of a)
  + Rsum (box_upto (P - deg a))
         (fun c => mpow translation c / mfact c * vget Lsource (index_of (madd a c))).
Proof.
  intros H1 HP HLt HLs Ha.
  rewrite L2L_get by assumption. cbv zeta.
  rewrite Rsum_box_upto, mpow_0, mfact_0, madd_0_r.
  rewrite (Rsum_ext (midx_1_upto (P - deg a)) _
             (fun c => mpow translation c / mfact c * vget Lsource (index_of (madd a c)))).
  - field.
  - intros c Hc. apply In_midx_1_upto in Hc.
    rewrite (power_tableau_get P) by first [assumption | rewrite (LTERM_tet P HP); lia | lia].
    reflexivity.
Qed.

(** Two vectors of [LTERM] slots that agree at every [I(a)], [|a| <= P],
    are equal. *)
Lemma local_ext P (v w : Vec) :
  supported P -> length v = LTERM P -> length w = LTERM P ->
  (forall a, (deg a <= P)%nat -> vget v (index_of a) = vget w (index_of a)) ->
  v = w.
Proof.
  intros HP Hv Hw H.
  apply (nth_ext _ _ 0 0); [congruence |].
  intros i Hi. rewrite Hv, (LTERM_tet P HP) in Hi.
  rewrite <- (index_of_unrank P i HP Hi).
  apply H. now apply deg_unrank_le.
Qed.

(** X12.  Two [L2L] shifts compose: shifting [L] from [c0] to [c1] and the
    outcome from [c1] to [c2] adds to the target what the single shift from
    [c0] to [c2] adds. *)
Theorem L2L_compose P L Lt c0 c1 c2 :
  (1 <= P)%nat -> supported P -> length L = LTERM P -> length Lt = LTERM P ->
  L2L P (L2L P L (vzero (LTERM P)) (pt_sub c1 c0)) Lt (pt_sub c2 c1)
  = L2L P L Lt (pt_sub c2 c0).
Proof.
  intros H1 HP HL HLt.
  apply (local_ext P); try assumption; try (now rewrite L2L_length).
  intros a Ha.
  rewrite !L2L_get_box by
    (try assumption; try apply length_vzero; rewrite L2L_length; apply length_vzero).
  f_equal.
  rewrite <- (local_shift (P - deg a) c0 c1 c2 (fun g => vget L (index_of (madd a g)))).
  apply Rsum_ext. intros e He. apply In_box_upto in He. f_equal.
  rewrite L2L_get_box by
    (try assumption; try apply length_vzero; rewrite deg_madd; lia).
  rewrite vget_vzero, Rplus_0_l, deg_madd.
  replace (P - (deg a + deg e))%nat with (P - deg a - deg e)%nat by lia.
  apply Rsum_ext. intros c _. now rewrite madd_assoc.
Qed.

Lemma L2L_compose_witness :
  (1 <= 1)%nat /\ supported 1 /\ length [1; 2; 3; 4] = LTERM 1 /\
  length [0; 0; 0; 0] = LTERM 1 /\
  L2L 1 (L2L 1 [1; 2; 3; 4] (vzero (LTERM 1)) (pt_sub (1, 1, 1) (0, 0, 0)))
      [0; 0; 0; 0] (pt_sub (3, 2, 1) (1, 1, 1))
  = L2L 1 [1; 2; 3; 4] [0; 0; 0; 0] (pt_sub (3, 2, 1) (0, 0, 0)).
Proof.
  split; [lia |]. split; [reflexivity |]. split; [reflexivity |]. split; [reflexivity |].
  apply (L2L_compose 1 [1; 2; 3; 4] [0; 0; 0; 0] (0, 0, 0) (1, 1, 1) (3, 2, 1));
    [lia | reflexivity | reflexivity | reflexivity].
Defined.

(** X13.  The downward pass is exact: evaluating at a target the local
    expansion shifted from [c0] to [c1] gives what evaluating the original
    expansion about [c0] gives, in the potential and in the three gradient
    components. *)
Theorem L2P_after_L2L P L c0 c1 target result :
  (1 <= P)%nat -> supported P -> length L = LTERM P -> length result = 4%nat ->
  L2P P (L2L P L (vzero (LTERM P)) (pt_sub c1 c0)) c1 target result
  = L2P P L c0 target result.
Proof.
  intros H1 HP HL HB.
  assert (HL1 : length (L2L P L (vzero (LTERM P)) (pt_sub c1 c0)) = LTERM P)
    by (rewrite L2L_length; apply length_vzero).
  destruct (L2P_get P (L2L P L (vzero (LTERM P)) (pt_sub c1 c0)) c1 target result H1 HP HB)
    as [A0 Ak].
  destruct (L2P_get P L c0 target result H1 HP HB) as [B0 Bk].
  pose proof (L2P_length P (L2L P L (vzero (LTERM P)) (pt_sub c1 c0)) c1 target result) as Al.
  rewrite HB in Al.
  apply (nth_ext _ _ 0 0); [rewrite !L2P_length; reflexivity |].
  intros i Hi. rewrite Al in Hi.
  change (vget (L2P P (L2L P L (vzero (LTERM P)) (pt_sub c1 c0)) c1 target result) i
          = vget (L2P P L c0 target result) i).
  destruct (Nat.eq_dec i 0) as [-> | Hne].
  - rewrite A0, B0. f_equal.
    rewrite <- (local_shift P c0 c1 target (fun g => vget L (index_of g))).
    apply Rsum_ext. intros e He. apply In_box_upto in He. f_equal.
    rewrite L2L_get_box by (try assumption; apply length_vzero).
    rewrite vget_vzero, Rplus_0_l. reflexivity.
  - rewrite Ak, Bk by lia. f_equal.
    assert (Hu : deg (unit_of i) = 1%nat)
      by (destruct i as [|[|[|[|i]]]]; try lia; reflexivity).
    rewrite <- (local_shift (P - 1) c0 c1 target
                  (fun g => vget L (index_of (madd (unit_of i) g)))).
    apply Rsum_ext. intros e He. apply In_box_upto in He. f_equal.
    rewrite L2L_get_box by
      (try assumption; try apply length_vzero; rewrite deg_madd; lia).
    rewrite vget_vzero, Rplus_0_l, deg_madd, Hu.
    replace (P - (1 + deg e))%nat with (P - 1 - deg e)%nat by lia.
    apply Rsum_ext. intros c _. now rewrite madd_assoc.
Qed.

Lemma L2P_after_L2L_witness :
  (1 <= 1)%nat /\ supported 1 /\ length [1; 2; 3; 4] = LTERM 1 /\
  length [0; 0; 0; 0] = 4%nat /\
  L2P 1 (L2L 1 [1; 2; 3; 4] (vzero (LTERM 1)) (pt_sub (1, 1, 1) (0, 0, 0)))
      (1, 1, 1) (3, 2, 1) [0; 0; 0; 0]
  = L2P 1 [1; 2; 3; 4] (0, 0, 0) (3, 2, 1) [0; 0; 0; 0].
Proof.
  split; [lia |]. split; [reflexivity |]. split; [reflexivity |]. split; [reflexivity |].
  apply (L2P_after_L2L 1 [1; 2; 3; 4] (0, 0, 0) (1, 1, 1) (3, 2, 1) [0; 0; 0; 0]);
    [lia | reflexivity | reflexivity | reflexivity].
Defined.

(** ** Degenerate translations *)

Lemma mpow_origin a : a <> (0, 0, 0)%nat -> mpow (0, 0, 0) a = 0.
Proof.
  destruct a as [[nx ny] nz]. intro H. cbn [mpow].
  destruct nx as [|nx]; [| rewrite pow_i by lia; ring].
  destruct ny as [|ny]; [| rewrite (pow_i (S ny)) by lia; ring].
  destruct nz as [|nz]; [now elim H | rewrite (pow_i (S nz)) by lia; ring].
Qed.

Lemma pt_sub_diag c : pt_sub c c = (0, 0, 0).
Proof.
  destruct c as [[x y] z]. cbn [pt_sub].
  replace (x - x) with 0 by ring. replace (y - y) with 0 by ring.
  replace (z - z) with 0 by ring. reflexivity.
Qed.

Lemma msub_zero_iff a b : In b (below a) -> (msub a b = (0, 0, 0)%nat <-> b = a).
Proof.
  intro H. apply In_below in H.
  destruct a as [[ax ay] az], b as [[bx by_] bz]. cbn [msub]. split; intro E.
  - inversion E. f_equal; [f_equal |]; lia.
  - inversion E; subst. f_equal; [f_equal |]; lia.
Qed.

Lemma In_below_refl a : In a (below a).
Proof. apply In_below. destruct a as [[ax ay] az]. lia. Qed.

(** X14.  With a zero translation, [M2M] and [L2L] are the elementwise
    [+=]: the source is added to the target slot by slot. *)
Theorem zero_translation P Ms Mt Ls Lt :
  (1 <= P)%nat -> supported P ->
  length Ms = MTERM P -> length Mt = MTERM P ->
  length Ls = LTERM P -> length Lt = LTERM P ->
  M2M P Ms Mt (0, 0, 0) = vadd Mt Ms /\
  L2L P Ls Lt (0, 0, 0) = vadd Lt Ls.
Proof.
  intros H1 HP HMs HMt HLs HLt. split.
  - apply (multipole_ext P); try assumption;
      [now rewrite M2M_length | now rewrite length_vadd |].
    intros a Ha.
    rewrite M2M_get by (try assumption; lia). cbv zeta.
    rewrite vget_vadd_same by congruence. f_equal.
    rewrite (Rsum_ext (below a) _
               (fun b => if meqb b a then vget Ms (index_of b) else 0)).
    + rewrite (Rsum_pick (fun b => meqb b a) a); [reflexivity | apply NoDup_below | |].
      * apply In_below_refl.
      * intros b _. apply meqb_spec.
    + intros b Hb. pose proof (below_deg a b Hb) as [Hb1 Hb2].
      rewrite M2M_tableau_get by (try assumption; lia).
      pose proof (meqb_spec b a) as Hs. pose proof (msub_zero_iff a b Hb) as Hz.
      destruct (meqb b a).
      * assert (E : b = a) by now apply Hs. subst b.
        rewrite (proj2 Hz eq_refl), mpow_0, mfact_0. field.
      * rewrite mpow_origin; [unfold Rdiv; ring |].
        intro E. apply Hz in E. apply Hs in E. discriminate.
  - apply (local_ext P); try assumption;
      [now rewrite L2L_length | now rewrite length_vadd |].
    intros a Ha.
    rewrite L2L_get by assumption. cbv zeta.
    rewrite vget_vadd_same by congruence.
    rewrite Rsum_zero; [ring |].
    intros c Hc. apply In_midx_1_upto in Hc.
    rewrite (power_tableau_get P) by first [assumption | rewrite (LTERM_tet P HP); lia | lia].
    rewrite mpow_origin; [unfold Rdiv; ring |].
    intro E. subst c. simpl in Hc. lia.
Qed.

Lemma zero_translation_witness :
  (1 <= 2)%nat /\ supported 2 /\
  length [1; 2; 3; 4] = MTERM 2 /\ length [5; 6; 7; 8] = MTERM 2 /\
  length (vzero 10) = LTERM 2 /\ length (vzero 10) = LTERM 2 /\
  M2M 2 [1; 2; 3; 4] [5; 6; 7; 8] (0, 0, 0) = vadd [5; 6; 7; 8] [1; 2; 3; 4].
Proof.
  split; [lia |]. split; [reflexivity |]. split; [reflexivity |]. split; [reflexivity |].
  split; [reflexivity |]. split; [reflexivity |].
  exact (proj1 (zero_translation 2 [1; 2; 3; 4] [5; 6; 7; 8] (vzero 10) (vzero 10)
                  ltac:(lia) eq_refl eq_refl eq_refl eq_refl eq_refl)).
Defined.

Lemma P2M_center P c charge M :
  (1 <= P)%nat -> supported P -> length M = MTERM P ->
  P2M P c charge c M = vinc M 0 charge.
Proof.
  intros H1 HP HM.
  pose proof (tet_pos (P - 1)) as Hpos.
  replace (S (P - 1)) with P in Hpos by lia.
  apply (multipole_ext P); try assumption;
    [now rewrite P2M_length | now rewrite length_vinc |].
  intros a Ha. rewrite P2M_get by assumption. rewrite pt_sub_diag.
  destruct (Nat.eq_dec (deg a) 0) as [E | E].
  - apply deg_zero_iff in E. subst a.
    rewrite index_of_zero, mpow_0, mfact_0.
    rewrite vget_vinc_eq by (rewrite HM, (MTERM_tet P HP); lia). field.
  - assert (Hne : a <> (0, 0, 0)%nat) by (intro E0; subst a; now apply E).
    pose proof (index_of_pos P a HP ltac:(lia) Hne).
    rewrite vget_vinc_neq by lia.
    rewrite mpow_origin by assumption. unfold Rdiv. ring.
Qed.

Lemma L2P_center P L c result :
  (1 <= P)%nat -> supported P -> length L = LTERM P -> length result = 4%nat ->
  L2P P L c c result = vadd result [vget L 0; vget L 1; vget L 2; vget L 3].
Proof.
  intros H1 HP HL HB.
  destruct (L2P_get P L c c result H1 HP HB) as [A0 Ak].
  pose proof (L2P_length P L c c result) as Al. rewrite HB in Al.
  rewrite pt_sub_diag in *.
  apply (nth_ext _ _ 0 0); [rewrite Al, length_vadd; congruence |].
  intros i Hi. rewrite Al in Hi.
  change (vget (L2P P L c c result) i
          = vget (vadd result [vget L 0; vget L 1; vget L 2; vget L 3]) i).
  rewrite vget_vadd_same by (rewrite HB; reflexivity).
  destruct (Nat.eq_dec i 0) as [-> | Hne].
  - rewrite A0. f_equal.
    rewrite Rsum_box_upto, mpow_0, mfact_0, index_of_zero.
    rewrite Rsum_zero; [cbn [vget nth]; field |].
    intros a Ha. apply In_midx_1_upto in Ha.
    rewrite mpow_origin; [unfold Rdiv; ring |].
    intro E. subst a. simpl in Ha. lia.
  - rewrite Ak by lia. f_equal.
    rewrite Rsum_box_upto, mpow_0, mfact_0, madd_0_r.
    rewrite index_of_unit by lia.
    rewrite Rsum_zero.
    + destruct i as [|[|[|[|i]]]]; try lia; cbn [vget nth]; field.
    + intros a Ha. apply In_midx_1_upto in Ha.
      rewrite mpow_origin; [unfold Rdiv; ring |].
      intro E. subst a. simpl in Ha. lia.
Qed.

(** X15.  At the center of the box: [P2M] of a source sitting at the
    center adds its charge to slot 0 and nothing to any other slot, and
    [L2P] at a target sitting at the center adds [L[0], L[1], L[2], L[3]]
    to the four slots of the result. *)
Theorem at_the_center P c charge M L result :
  (1 <= P)%nat -> supported P ->
  length M = MTERM P -> length L = LTERM P -> length result = 4%nat ->
  P2M P c charge c M = vinc M 0 charge /\
  L2P P L c c result = vadd result [vget L 0; vget L 1; vget L 2; vget L 3].
Proof.
  intros H1 HP HM HL HB. split; [now apply P2M_center | now apply L2P_center].
Qed.

Lemma at_the_center_witness :
  (1 <= 2)%nat /\ supported 2 /\
  length [1; 2; 3; 4] = MTERM 2 /\ length (vzero 10) = LTERM 2 /\
  length [0; 0; 0; 0] = 4%nat /\
  P2M 2 (1, 2, 3) 7 (1, 2, 3) [1; 2; 3; 4] = vinc [1; 2; 3; 4] 0 7.
Proof.
  split; [lia |]. split; [reflexivity |]. split; [reflexivity |]. split; [reflexivity |].
  split; [reflexivity |].
  exact (proj1 (at_the_center 2 (1, 2, 3) 7 [1; 2; 3; 4] (vzero 10) [0; 0; 0; 0]
                  ltac:(lia) eq_refl eq_refl eq_refl eq_refl)).
Defined.

(** ** The coefficients satisfy Laplace's equation *)

Lemma midx_inc_ind (Q : midx -> Prop) :
  Q (0, 0, 0)%nat -> (forall e b, Q b -> Q (inc e b)) -> forall b, Q b.
Proof.
  intros Q0 Qs [[nx ny] nz].
  assert (Hz : forall nz, Q (0, 0, nz)%nat).
  { induction nz0 as [|k IH]; [exact Q0 | exact (Qs Az (0, 0, k)%nat IH)]. }
  assert (Hy : forall ny nz, Q (0, ny, nz)%nat).
  { induction ny0 as [|k IH]; intro nz0; [apply Hz | exact (Qs Ay (0, k, nz0)%nat (IH nz0))]. }
  induction nx as [|k IH]; [apply Hy | exact (Qs Ax (k, ny, nz)%nat IH)].
Qed.

(** The sum of the three second derivatives of the derivative of order
    [b] of [1/R]. *)
Definition laplacian_of (b : midx) : expr :=
  Add (dexpr (inc Ax (inc Ax b)))
      (Add (dexpr (inc Ay (inc Ay b))) (dexpr (inc Az (inc Az b)))).

Lemma inc_comm e a b : inc e (inc a b) = inc a (inc e b).
Proof. destruct b as [[nx ny] nz], e, a; reflexivity. Qed.

Lemma laplacian_zero b : forall p, p <> (0, 0, 0) -> eval (laplacian_of b) p = 0.
Proof.
  induction b as [| e b IH] using midx_inc_ind; intros p Hp.
  - unfold laplacian_of. cbn [inc dexpr Dn D eval axis_eqb].
    pose proof (inv_dist_sq p Hp) as Hr.
    set (r := inv_dist p) in *.
    destruct p as [[x y] z]. unfold pt_get. cbn [axis_ix pt_at normSq] in *.
    transitivity (3 * r * r * r * (r * r * (x * x + y * y + z * z) - 1)); [ring |].
    rewrite Hr. ring.
  - unfold laplacian_of.
    rewrite (inc_comm Ax e b), (inc_comm Ax e (inc Ax b)).
    rewrite (inc_comm Ay e b), (inc_comm Ay e (inc Ay b)).
    rewrite (inc_comm Az e b), (inc_comm Az e (inc Az b)). cbn [eval].
    rewrite <- !D_dexpr by assumption.
    change (eval (D e (laplacian_of b)) p = 0).
    now apply D_zero.
Qed.

(** X16.  For [P <= 12] and a nonzero displacement, the coefficients
    [getCoef] builds from the seed [1/|d|] satisfy Laplace's equation: the
    three slots two orders above any [(nx,ny,nz)], one along each axis, sum
    to zero. *)
Theorem getCoef_harmonic P C d nx ny nz :
  (P <= 12)%nat -> length C = LTERM P -> d <> (0, 0, 0) ->
  (nx + ny + nz + 2 <= P)%nat ->
  let C' := getCoef P C d (1 / normSq d) (1 / sqrt (normSq d)) in
  vget C' (Index_I (S (S nx)) ny nz) + vget C' (Index_I nx (S (S ny)) nz)
  + vget C' (Index_I nx ny (S (S nz))) = 0.
Proof.
  intros HP HC Hd Hn. cbv zeta.
  destruct (getCoef_deriv P C d HP HC Hd (S (S nx), ny, nz)%nat ltac:(cbn [deg]; lia))
    as [X1 X2].
  destruct (getCoef_deriv P C d HP HC Hd (nx, S (S ny), nz)%nat ltac:(cbn [deg]; lia))
    as [Y1 Y2].
  destruct (getCoef_deriv P C d HP HC Hd (nx, ny, S (S nz))%nat ltac:(cbn [deg]; lia))
    as [Z1 Z2].
  cbn [index_of] in *. rewrite X1, X2, Y1, Y2, Z1, Z2.
  pose proof (laplacian_zero (nx, ny, nz)%nat d Hd) as H.
  unfold laplacian_of in H. cbn [eval inc] in H.
  unfold partial_inv_dist. lra.
Qed.

Lemma getCoef_harmonic_witness :
  (2 <= 12)%nat /\ length (vzero 10) = LTERM 2 /\ (1, 0, 0) <> (0, 0, 0) /\
  (0 + 0 + 0 + 2 <= 2)%nat /\
  vget (getCoef 2 (vzero 10) (1, 0, 0) (1 / normSq (1, 0, 0)) (1 / sqrt (normSq (1, 0, 0))))
       (Index_I 2 0 0)
  + vget (getCoef 2 (vzero 10) (1, 0, 0) (1 / normSq (1, 0, 0)) (1 / sqrt (normSq (1, 0, 0))))
         (Index_I 0 2 0)
  + vget (getCoef 2 (vzero 10) (1, 0, 0) (1 / normSq (1, 0, 0)) (1 / sqrt (normSq (1, 0, 0))))
         (Index_I 0 0 2) = 0.
Proof.
  split; [lia |]. split; [reflexivity |]. split; [exact unit_x_nonzero |]. split; [lia |].
  exact (getCoef_harmonic 2 (vzero 10) (1, 0, 0) 0 0 0
           ltac:(lia) eq_refl unit_x_nonzero ltac:(lia)).
Defined.

(** ** The opposite displacement *)

Lemma pow_neg1_S n : (-1) ^ S n = - (-1) ^ n.
Proof. simpl. ring. Qed.

Lemma axis_part_neg n k da far near :
  (k <= n)%nat ->
  axis_part n k (- da) ((-1) ^ (n - 1) * far) ((-1) ^ (n - 2) * near)
  = (-1) ^ n * axis_part n k da far near.
Proof.
  intro Hk. destruct k as [|[|k]]; cbn [axis_part].
  - ring.
  - destruct n as [|n]; [lia |].
    replace (S n - 1)%nat with n by lia. rewrite pow_neg1_S. ring.
  - destruct n as [|[|n]]; try lia.
    replace (S (S n) - 1)%nat with (S n) by lia.
    replace (S (S n) - 2)%nat with n by lia.
    rewrite !pow_neg1_S. ring.
Qed.

Lemma pt_at_sub_swap x y k : pt_at (pt_sub y x) k = - pt_at (pt_sub x y) k.
Proof.
  destruct x as [[x1 x2] x3], y as [[y1 y2] y3]. cbn [pt_sub pt_at].
  destruct k as [|[|k]]; ring.
Qed.

Lemma phaseA_reflect P C C' x y invR2 invR :
  supported P -> (tet (S P) <= length C)%nat -> (tet (S P) <= length C')%nat ->
  forall a, (deg a <= P)%nat ->
    vget (phaseA P C (pt_sub y x) invR2 invR) (index_of a)
    = (-1) ^ deg a * vget (phaseA P C' (pt_sub x y) invR2 invR) (index_of a).
Proof.
  intros HP Hl Hl'.
  destruct (phaseA_spec P C (pt_sub y x) invR2 invR HP Hl) as [_ [A2 [A3 _]]].
  destruct (phaseA_spec P C' (pt_sub x y) invR2 invR HP Hl') as [_ [B2 [B3 _]]].
  cbv zeta in *.
  set (A := phaseA P C (pt_sub y x) invR2 invR) in *.
  set (B := phaseA P C' (pt_sub x y) invR2 invR) in *.
  assert (Hn : forall n a, (deg a <= n)%nat -> (deg a <= P)%nat ->
                 vget A (index_of a) = (-1) ^ deg a * vget B (index_of a)).
  { induction n as [|n IH]; intros a Hn Ha.
    - assert (E : a = (0, 0, 0)%nat) by (apply deg_zero_iff; lia). subst a.
      rewrite index_of_zero, A2, B2. simpl. ring.
    - destruct (Nat.eq_dec (deg a) 0) as [E | E].
      + apply deg_zero_iff in E. subst a. rewrite index_of_zero, A2, B2. simpl. ring.
      + rewrite A3, B3 by lia. destruct a as [[nx ny] nz]. cbn [deg] in *.
        unfold chain_rhs.
        assert (Hlow : forall u v w, (u + v + w < nx + ny + nz)%nat ->
                   vget A (Index_I u v w) = (-1) ^ (u + v + w) * vget B (Index_I u v w)).
        { intros u v w Hd. apply (IH (u, v, w)); cbn [deg]; lia. }
        rewrite (pt_at_sub_swap x y 0), (pt_at_sub_swap x y 1), (pt_at_sub_swap x y 2).
        rewrite (axis_part_local _ nz _ (vget A _) (vget A _)
                   ((-1) ^ (nx + ny + nz - 1) * vget B (Index_I nx ny (nz - 1)))
                   ((-1) ^ (nx + ny + nz - 2) * vget B (Index_I nx ny (nz - 2))))
          by (intro; rewrite Hlow by lia; f_equal; f_equal; lia).
        rewrite (axis_part_local _ ny _ (vget A _) (vget A _)
                   ((-1) ^ (nx + ny + nz - 1) * vget B (Index_I nx (ny - 1) nz))
                   ((-1) ^ (nx + ny + nz - 2) * vget B (Index_I nx (ny - 2) nz)))
          by (intro; rewrite Hlow by lia; f_equal; f_equal; lia).
        rewrite (axis_part_local _ nx _ (vget A _) (vget A _)
                   ((-1) ^ (nx + ny + nz - 1) * vget B (Index_I (nx - 1) ny nz))
                   ((-1) ^ (nx + ny + nz - 2) * vget B (Index_I (nx - 2) ny nz)))
          by (intro; rewrite Hlow by lia; f_equal; f_equal; lia).
        rewrite !axis_part_neg by lia. unfold Rdiv. ring. }
  intros a Ha. now apply (Hn (deg a)).
Qed.

(** X17.  The coefficient vector of the opposite displacement: with the
    same [invR2] and seed [invR], [getCoef] for [y - x] gives in every slot
    [I(a)], [|a| <= P], the value it gives for [x - y] times [(-1)^|a|]. *)
Theorem getCoef_reflect P C C' x y invR2 invR a :
  supported P -> length C = LTERM P -> length C' = LTERM P -> (deg a <= P)%nat ->
  vget (getCoef P C (pt_sub y x) invR2 invR) (index_of a)
  = (-1) ^ deg a * vget (getCoef P C' (pt_sub x y) invR2 invR) (index_of a).
Proof.
  intros HP HC HC' Ha. rewrite (LTERM_tet P HP) in *.
  destruct (getCoef_spec P C (pt_sub y x) invR2 invR HP ltac:(lia)) as [_ [G0 [G1 _]]].
  destruct (getCoef_spec P C' (pt_sub x y) invR2 invR HP ltac:(lia)) as [_ [G0' [G1' _]]].
  cbv zeta in *.
  destruct (Nat.eq_dec (deg a) 0) as [E | E].
  - apply deg_zero_iff in E. subst a. rewrite index_of_zero, G0, G0'. simpl. ring.
  - rewrite G1, G1' by lia.
    rewrite (phaseA_reflect P C C') by (try assumption; lia). ring.
Qed.

Lemma getCoef_reflect_witness :
  supported 1 /\ length [0; 0; 0; 0] = LTERM 1 /\ length [0; 0; 0; 0] = LTERM 1 /\
  (deg (0, 0, 1)%nat <= 1)%nat /\
  vget (getCoef 1 [0; 0; 0; 0] (pt_sub (1, 2, 2) (0, 0, 0)) (1 / 9) (1 / 3))
       (index_of (0, 0, 1)%nat)
  = (-1) ^ deg (0, 0, 1)%nat
    * vget (getCoef 1 [0; 0; 0; 0] (pt_sub (0, 0, 0) (1, 2, 2)) (1 / 9) (1 / 3))
           (index_of (0, 0, 1)%nat).
Proof.
  split; [reflexivity |]. split; [reflexivity |]. split; [reflexivity |].
  split; [simpl; lia |].
  exact (getCoef_reflect 1 [0; 0; 0; 0] [0; 0; 0; 0] (0, 0, 0) (1, 2, 2) (1 / 9) (1 / 3)
           (0, 0, 1)%nat eq_refl eq_refl eq_refl ltac:(simpl; lia)).
Defined.

(** ** A source at the center: the multipole path meets the direct kernel *)

Lemma monopole_slots P charge :
  (1 <= P)%nat -> supported P ->
  vget (vinc (vzero (MTERM P)) 0 charge) 0 = charge /\
  (forall b, (1 <= deg b <= P - 1)%nat ->
     vget (vinc (vzero (MTERM P)) 0 charge) (index_of b) = 0).
Proof.
  intros H1 HP.
  pose proof (tet_pos (P - 1)) as Hpos.
  replace (S (P - 1)) with P in Hpos by lia.
  split.
  - rewrite vget_vinc_eq by (rewrite length_vzero, (MTERM_tet P HP); lia).
    rewrite vget_vzero. ring.
  - intros b Hb.
    assert (Hne : b <> (0, 0, 0)%nat) by (intro E; subst b; simpl in Hb; lia).
    pose proof (index_of_pos P b HP ltac:(lia) Hne).
    rewrite vget_vinc_neq by lia. apply vget_vzero.
Qed.

Lemma partial_inv_dist_unit k d :
  (1 <= k <= 3)%nat ->
  partial_inv_dist (unit_of k) d
  = - (pt_at d (k - 1) * (inv_dist d * (inv_dist d * inv_dist d))).
Proof.
  intro Hk. unfold partial_inv_dist.
  destruct k as [|[|[|[|k]]]]; try lia;
    cbn [unit_of dexpr Dn D eval Nat.sub]; unfold pt_get; cbn [axis_ix]; ring.
Qed.

Lemma kernel_eval_partial t s :
  1e-8 <= normSq (pt_sub s t) ->
  pt_sub t s <> (0, 0, 0) /\
  kernel_eval t s
  = [inv_dist (pt_sub t s);
     partial_inv_dist (unit_of 1) (pt_sub t s);
     partial_inv_dist (unit_of 2) (pt_sub t s);
     partial_inv_dist (unit_of 3) (pt_sub t s)].
Proof.
  intro Hcut.
  assert (Hd : pt_sub t s <> (0, 0, 0)).
  { intro E. rewrite normSq_pt_sub_sym, E in Hcut. simpl in Hcut. lra. }
  split; [exact Hd |].
  unfold kernel_eval.
  destruct (Rlt_dec (normSq (pt_sub s t)) 1e-8) as [Hlt | _]; [lra |].
  rewrite !partial_inv_dist_unit by lia.
  rewrite (normSq_pt_sub_sym s t).
  pose proof (inv_dist_sq (pt_sub t s) Hd) as Hr.
  assert (Hs : sqrt (1 / normSq (pt_sub t s)) = inv_dist (pt_sub t s))
    by (unfold inv_dist, Rdiv; rewrite Rmult_1_l; apply sqrt_inv).
  rewrite Hs.
  assert (Hq : 1 / normSq (pt_sub t s) = inv_dist (pt_sub t s) * inv_dist (pt_sub t s)).
  { pose proof (normSq_pos _ Hd). rewrite <- Hr. field. lra. }
  rewrite Hq.
  set (r := inv_dist (pt_sub t s)).
  destruct s as [[s1 s2] s3], t as [[t1 t2] t3].
  cbn [pt_sub pt_scale pt_at Nat.sub].
  apply list4_eq; ring.
Qed.

(** X18.  A source at the center of its box: for [1 <= P <= 12] and a
    target outside the cut-off of the kernel, [P2M] into a zeroed multipole
    followed by [M2P] adds to the result exactly the charge times the
    4-vector [operator()] returns for that target and source. *)
Theorem monopole_M2P_kernel P c charge target result :
  (1 <= P)%nat -> (P <= 12)%nat -> length result = 4%nat ->
  1e-8 <= normSq (pt_sub c target) ->
  M2P P (P2M P c charge c (vzero (MTERM P))) c target result
  = vadd result (map (Rmult charge) (kernel_eval target c)).
Proof.
  intros H1 HP12 HB Hcut.
  pose proof (supported_upto_12 P HP12) as HP.
  rewrite P2M_center by (try assumption; apply length_vzero).
  destruct (monopole_slots P charge H1 HP) as [M0 Mb].
  set (M := vinc (vzero (MTERM P)) 0 charge) in *.
  assert (Hd : pt_sub target c <> (0, 0, 0)).
  { intro E. rewrite normSq_pt_sub_sym, E in Hcut. simpl in Hcut. lra. }
  rewrite M2P_unfold.
  destruct (sumM2P_get P result (M2L_coef P M (pt_sub target c)) M H1 HP HB) as [E0 Ek].
  assert (Hsum : forall e,
            Rsum (midx_1_upto (P - 1))
              (fun b => vget M (index_of b)
                        * vget (M2L_coef P M (pt_sub target c)) (index_of (madd e b))) = 0).
  { intro e. apply Rsum_zero. intros b Hb. apply In_midx_1_upto in Hb.
    rewrite Mb by assumption. ring. }
  destruct (kernel_eval_partial target c Hcut) as [_ HK].
  rewrite HK.
  apply (nth_ext _ _ 0 0);
    [rewrite sumM2P_length, length_vadd; reflexivity |].
  intros i Hi. rewrite sumM2P_length, HB in Hi.
  change (vget (sumM2P P result (M2L_coef P M (pt_sub target c)) M) i
          = vget (vadd result (map (Rmult charge)
                   [inv_dist (pt_sub target c);
                    partial_inv_dist (unit_of 1) (pt_sub target c);
                    partial_inv_dist (unit_of 2) (pt_sub target c);
                    partial_inv_dist (unit_of 3) (pt_sub target c)])) i).
  rewrite vget_vadd_same by (rewrite HB; reflexivity).
  destruct (Nat.eq_dec i 0) as [-> | Hne].
  - rewrite E0.
    rewrite Rsum_zero
      by (intros b Hb; apply In_midx_1_upto in Hb; rewrite Mb by assumption; ring).
    change (vget (M2L_coef P M (pt_sub target c)) 0)
      with (vget (M2L_coef P M (pt_sub target c)) (index_of (0, 0, 0)%nat)).
    rewrite M2L_coef_deriv by (try assumption; simpl; lia).
    rewrite M0. cbn [map vget nth]. unfold partial_inv_dist. cbn [dexpr Dn eval]. ring.
  - rewrite Ek by lia. rewrite Hsum.
    rewrite <- (index_of_unit i) at 2 by lia.
    assert (Hu : deg (unit_of i) = 1%nat)
      by (destruct i as [|[|[|[|i]]]]; try lia; reflexivity).
    rewrite M2L_coef_deriv by (try assumption; lia). rewrite M0.
    destruct i as [|[|[|[|i]]]]; try lia; cbn [map vget nth]; ring.
Qed.

Lemma monopole_M2P_kernel_witness :
  (1 <= 2)%nat /\ (2 <= 12)%nat /\ length [0; 0; 0; 0] = 4%nat /\
  1e-8 <= normSq (pt_sub (0, 0, 0) (1, 2, 2)) /\
  M2P 2 (P2M 2 (0, 0, 0) 5 (0, 0, 0) (vzero (MTERM 2))) (0, 0, 0) (1, 2, 2) [0; 0; 0; 0]
  = vadd [0; 0; 0; 0] (map (Rmult 5) (kernel_eval (1, 2, 2) (0, 0, 0))).
Proof.
  assert (H : 1e-8 <= normSq (pt_sub (0, 0, 0) (1, 2, 2))) by (simpl; lra).
  split; [lia |]. split; [lia |]. split; [reflexivity |]. split; [exact H |].
  exact (monopole_M2P_kernel 2 (0, 0, 0) 5 (1, 2, 2) [0; 0; 0; 0]
           ltac:(lia) ltac:(lia) eq_refl H).
Defined.

(** ** The order of accumulation *)

Lemma accumulates_commute F G dF dG :
  accumulates F dF -> accumulates G dG -> forall v, F (G v) = G (F v).
Proof.
  intros HF HG v.
  destruct (HF v) as [F1 F2]. destruct (HG v) as [G1 G2].
  destruct (HF (G v)) as [FG1 FG2]. destruct (HG (F v)) as [GF1 GF2].
  apply (nth_ext _ _ 0 0); [congruence |].
  intros i Hi. rewrite FG1, G1 in Hi.
  change (vget (F (G v)) i = vget (G (F v)) i).
  rewrite FG2 by (rewrite G1; assumption).
  rewrite GF2 by (rewrite F1; assumption).
  rewrite F2, G2 by assumption. ring.
Qed.

(** X19.  Over exact reals the order of accumulation into one output does
    not matter: two [P2M] into one multipole, two [M2M] into one parent,
    two [M2L] into one local expansion, an [M2L] and an [L2L] into one local
    expansion, and an [M2P] and an [L2P] into one result commute. *)
Theorem accumulation_order P :
  (forall s1 q1 s2 q2 c M,
     P2M P s1 q1 c (P2M P s2 q2 c M) = P2M P s2 q2 c (P2M P s1 q1 c M)) /\
  (forall M1 t1 M2 t2 Mt,
     M2M P M1 (M2M P M2 Mt t2) t1 = M2M P M2 (M2M P M1 Mt t1) t2) /\
  (forall M1 t1 M2 t2 L,
     M2L P M1 (M2L P M2 L t2) t1 = M2L P M2 (M2L P M1 L t1) t2) /\
  (forall M t Ls t' L,
     M2L P M (L2L P Ls L t') t = L2L P Ls (M2L P M L t) t') /\
  (forall M c L c' target result,
     M2P P M c target (L2P P L c' target result)
     = L2P P L c' target (M2P P M c target result)).
Proof.
  split; [| split; [| split; [| split]]].
  - intros s1 q1 s2 q2 c M.
    destruct (P2M_accumulates P s1 q1 c) as [d1 A1].
    destruct (P2M_accumulates P s2 q2 c) as [d2 A2].
    exact (accumulates_commute _ _ d1 d2 A1 A2 M).
  - intros M1 t1 M2 t2 Mt.
    destruct (M2M_accumulates P M1 t1) as [d1 A1].
    destruct (M2M_accumulates P M2 t2) as [d2 A2].
    exact (accumulates_commute _ _ d1 d2 A1 A2 Mt).
  - intros M1 t1 M2 t2 L.
    destruct (M2L_accumulates P M1 t1) as [d1 A1].
    destruct (M2L_accumulates P M2 t2) as [d2 A2].
    exact (accumulates_commute _ _ d1 d2 A1 A2 L).
  - intros M t Ls t' L.
    destruct (M2L_accumulates P M t) as [d1 A1].
    destruct (L2L_accumulates P Ls t') as [d2 A2].
    exact (accumulates_commute _ _ d1 d2 A1 A2 L).
  - intros M c L c' target result.
    destruct (M2P_accumulates P M c target) as [d1 A1].
    destruct (L2P_accumulates P L c' target) as [d2 A2].
    exact (accumulates_commute _ _ d1 d2 A1 A2 result).
Qed.

(** ** The closed form of [DerivativeSum] *)

(** X20.  [DerivativeSum<nx,ny,nz>::loop(C, dist)], with [n = nx+ny+nz],
    is the sum over the three axes of [(1-2n) * dist[k] * C[I(a - e_k)]]
    when the component of [a] along [k] is at least 1, and of
    [(1-n) * C[I(a - 2 e_k)]] when it is at least 2. *)
Theorem DerivativeSum_closed_form nx ny nz C dist :
  let n := INR (nx + ny + nz) in
  let far k c := if (1 <=? k)%nat then (1 - 2 * n) * pt_at dist c else 0 in
  let near k := if (2 <=? k)%nat then 1 - n else 0 in
  DerivativeSum_loop nx ny nz nx ny nz 5 C dist =
    far nz 2%nat * vget C (Index_I nx ny (nz - 1)) + near nz * vget C (Index_I nx ny (nz - 2))
    + (far ny 1%nat * vget C (Index_I nx (ny - 1) nz)
       + near ny * vget C (Index_I nx (ny - 2) nz))
    + (far nx 0%nat * vget C (Index_I (nx - 1) ny nz)
       + near nx * vget C (Index_I (nx - 2) ny nz)).
Proof.
  cbv zeta. rewrite DerivativeSum_loop_closed.
  assert (H : forall k da f g,
            axis_part (nx + ny + nz) k da f g =
            (if (1 <=? k)%nat then (1 - 2 * INR (nx + ny + nz)) * da else 0) * f
            + (if (2 <=? k)%nat then 1 - INR (nx + ny + nz) else 0) * g).
  { intros k da f g. destruct k as [|[|k]]; cbn [axis_part Nat.leb];
      rewrite ?IZR_coef_far, ?IZR_coef_near; ring. }
  rewrite !H. reflexivity.
Qed.

(** ** The far field of a source at the center of its box *)

Lemma monopole_M2L_get P charge tau a :
  (1 <= P)%nat -> (P <= 12)%nat -> tau <> (0, 0, 0) -> (deg a <= P)%nat ->
  vget (M2L P (vinc (vzero (MTERM P)) 0 charge) (vzero (LTERM P)) tau) (index_of a)
  = charge * partial_inv_dist a tau.
Proof.
  intros H1 HP12 Htau Ha.
  pose proof (supported_upto_12 P HP12) as HP.
  destruct (monopole_slots P charge H1 HP) as [M0 Mb].
  set (M := vinc (vzero (MTERM P)) 0 charge) in *.
  assert (HP1 : S (P - 1) = P) by lia.
  destruct (Nat.eq_dec (deg a) 0) as [E | E].
  - apply deg_zero_iff in E. subst a. rewrite index_of_zero.
    rewrite M2L_get_0 by (try assumption; apply length_vzero). cbv zeta.
    rewrite (MTERM_tet P HP).
    replace (tet P - 1)%nat with (tet (S (P - 1)) - 1)%nat by (rewrite HP1; reflexivity).
    rewrite (Rsum_slots P (P - 1)) by (try assumption; lia).
    rewrite Rsum_zero
      by (intros b Hb; apply In_midx_1_upto in Hb; rewrite Mb by assumption; ring).
    change (vget (M2L_coef P M tau) 0) with (vget (M2L_coef P M tau) (index_of (0, 0, 0)%nat)).
    rewrite M2L_coef_deriv by (try assumption; simpl; lia).
    rewrite vget_vzero, M0. ring.
  - rewrite M2L_get by (try assumption; try apply length_vzero; lia). cbv zeta.
    rewrite Rsum_zero
      by (intros b Hb; apply In_midx_1_upto in Hb; rewrite Mb by lia; ring).
    rewrite M2L_coef_deriv by assumption.
    rewrite vget_vzero, M0. ring.
Qed.

(** X21.  The far field of a source at the center [s] of its box, for
    [1 <= P <= 12]: [P2M] into a zeroed multipole, [M2L] into a zeroed local
    expansion about [cL], and [L2P] at a target add to [result[0]] the
    Taylor polynomial of degree [P] of [charge / R] about [cL - s],
    evaluated at [d = target - cL], and to [result[k]], [k = 1, 2, 3], the
    Taylor polynomial of degree [P-1] of its derivative along axis [k]. *)
Theorem far_field_taylor P s charge cL target result :
  (1 <= P)%nat -> (P <= 12)%nat -> length result = 4%nat -> pt_sub cL s <> (0, 0, 0) ->
  let M := P2M P s charge s (vzero (MTERM P)) in
  let L := M2L P M (vzero (LTERM P)) (pt_sub cL s) in
  let d := pt_sub target cL in
  let G := fun a => partial_inv_dist a (pt_sub cL s) in
  let result' := L2P P L cL target result in
  vget result' 0 =
    vget result 0 + charge * Rsum (box_upto P) (fun a => mpow d a / mfact a * G a) /\
  (forall k, (1 <= k <= 3)%nat ->
     vget result' k =
       vget result k
       + charge * Rsum (box_upto (P - 1))
                    (fun a => mpow d a / mfact a * G (madd (unit_of k) a))).
Proof.
  intros H1 HP12 HB Htau. cbv zeta.
  pose proof (supported_upto_12 P HP12) as HP.
  rewrite P2M_center by (try assumption; apply length_vzero).
  destruct (L2P_get P (M2L P (vinc (vzero (MTERM P)) 0 charge) (vzero (LTERM P))
                         (pt_sub cL s)) cL target result H1 HP HB) as [A0 Ak].
  split.
  - rewrite A0. f_equal. rewrite <- Rsum_scal.
    apply Rsum_ext. intros a Ha. apply In_box_upto in Ha.
    rewrite monopole_M2L_get by assumption. ring.
  - intros k Hk. rewrite Ak by assumption. f_equal. rewrite <- Rsum_scal.
    apply Rsum_ext. intros a Ha. apply In_box_upto in Ha.
    assert (Hu : deg (unit_of k) = 1%nat)
      by (destruct k as [|[|[|[|k]]]]; try lia; reflexivity).
    rewrite monopole_M2L_get by (try assumption; rewrite deg_madd; lia). ring.
Qed.

Lemma far_field_taylor_witness :
  (1 <= 1)%nat /\ (1 <= 12)%nat /\ length [0; 0; 0; 0] = 4%nat /\
  pt_sub (1, 0, 0) (0, 0, 0) <> (0, 0, 0) /\
  vget (L2P 1 (M2L 1 (P2M 1 (0, 0, 0) 5 (0, 0, 0) (vzero (MTERM 1))) (vzero (LTERM 1))
                   (pt_sub (1, 0, 0) (0, 0, 0)))
            (1, 0, 0) (1, 1, 0) [0; 0; 0; 0]) 0
  = vget [0; 0; 0; 0] 0
    + 5 * Rsum (box_upto 1)
            (fun a => mpow (pt_sub (1, 1, 0) (1, 0, 0)) a / mfact a
                      * partial_inv_dist a (pt_sub (1, 0, 0) (0, 0, 0))).
Proof.
  split; [lia |]. split; [lia |]. split; [reflexivity |]. split; [exact pt_sub_unit_x |].
  pose proof (far_field_taylor 1 (0, 0, 0) 5 (1, 0, 0) (1, 1, 0) [0; 0; 0; 0]
                ltac:(lia) ltac:(lia) eq_refl pt_sub_unit_x) as H.
  cbv zeta beta in H. exact (proj1 H).
Defined.

(** ** The force is the gradient of the potential *)

(** X22.  Outside the cut-off, the value of [operator()(t, s)] is the
    potential [1/R] at [d = t - s] followed by its gradient: component
    [k = 1, 2, 3] is the partial derivative of [1/R] along axis [k] at [d],
    whichever way that derivative is obtained. *)
Theorem kernel_eval_gradient t s :
  1e-8 <= normSq (pt_sub s t) ->
  vget (kernel_eval t s) 0 = inv_dist (pt_sub t s) /\
  (forall k g, (1 <= k <= 3)%nat -> is_deriv (unit_of k) g ->
     vget (kernel_eval t s) k = g (pt_sub t s)).
Proof.
  intro Hcut. destruct (kernel_eval_partial t s Hcut) as [Hd HK]. rewrite HK.
  split; [reflexivity |].
  intros k g Hk Hg. rewrite (is_deriv_unique _ g Hg _ Hd).
  destruct k as [|[|[|[|k]]]]; try lia; reflexivity.
Qed.

Lemma kernel_eval_gradient_witness :
  1e-8 <= normSq (pt_sub (0, 0, 0) (1, 2, 2)) /\
  vget (kernel_eval (1, 2, 2) (0, 0, 0)) 0 = inv_dist (pt_sub (1, 2, 2) (0, 0, 0)).
Proof.
  assert (H : 1e-8 <= normSq (pt_sub (0, 0, 0) (1, 2, 2))) by (simpl; lra).
  split; [exact H |].
  exact (proj1 (kernel_eval_gradient (1, 2, 2) (0, 0, 0) H)).
Defined.

(** ** The translations are additive in their source *)

(** X23.  [M2M] and [L2L] are additive in the expansion they translate:
    translating the elementwise sum of two sources adds what translating
    the one and then the other adds. *)
Theorem translations_additive P M1 M2 Mt L1 L2 Lt tau :
  (1 <= P)%nat -> supported P ->
  length M1 = MTERM P -> length M2 = MTERM P -> length Mt = MTERM P ->
  length L1 = LTERM P -> length L2 = LTERM P -> length Lt = LTERM P ->
  M2M P (vadd M1 M2) Mt tau = M2M P M2 (M2M P M1 Mt tau) tau /\
  L2L P (vadd L1 L2) Lt tau = L2L P L2 (L2L P L1 Lt tau) tau.
Proof.
  intros H1 HP HM1 HM2 HMt HL1 HL2 HLt.
  assert (HP1 : S (P - 1) = P) by lia.
  split.
  - apply (multipole_ext P); try assumption; try (now rewrite !M2M_length).
    intros a Ha.
    rewrite !M2M_get by (try assumption; try (now rewrite M2M_length); lia). cbv zeta.
    rewrite Rplus_assoc, <- Rsum_plus. f_equal.
    apply Rsum_ext. intros b Hb. pose proof (below_deg a b Hb) as [Hb1 _].
    rewrite vget_vadd_same by congruence. ring.
  - apply (local_ext P); try assumption; try (now rewrite !L2L_length).
    intros a Ha.
    rewrite !L2L_get by
      (try assumption; try (now rewrite L2L_length); now rewrite length_vadd).
    cbv zeta.
    rewrite vget_vadd_same by congruence.
    rewrite (Rsum_ext _ _
               (fun c => vget (power_tableau (LTERM P) P 1 tau) (index_of c)
                         * vget L1 (index_of (madd a c))
                         + vget (power_tableau (LTERM P) P 1 tau) (index_of c)
                           * vget L2 (index_of (madd a c)))).
    + rewrite Rsum_plus. ring.
    + intros c _. rewrite vget_vadd_same by congruence. ring.
Qed.

Lemma translations_additive_witness :
  (1 <= 1)%nat /\ supported 1 /\
  length [1] = MTERM 1 /\ length [2] = MTERM 1 /\ length [0] = MTERM 1 /\
  length [1; 2; 3; 4] = LTERM 1 /\ length [5; 6; 7; 8] = LTERM 1 /\
  length [0; 0; 0; 0] = LTERM 1 /\
  L2L 1 (vadd [1; 2; 3; 4] [5; 6; 7; 8]) [0; 0; 0; 0] (1, 2, 3)
  = L2L 1 [5; 6; 7; 8] (L2L 1 [1; 2; 3; 4] [0; 0; 0; 0] (1, 2, 3)) (1, 2, 3).
Proof.
  split; [lia |]. split; [reflexivity |].
  split; [reflexivity |]. split; [reflexivity |]. split; [reflexivity |].
  split; [reflexivity |]. split; [reflexivity |]. split; [reflexivity |].
  exact (proj2 (translations_additive 1 [1] [2] [0] [1; 2; 3; 4] [5; 6; 7; 8] [0; 0; 0; 0]
                  (1, 2, 3) ltac:(lia) eq_refl eq_refl eq_refl eq_refl eq_refl eq_refl
                  eq_refl)).
Defined.
